(** * Highlight selection and keyframe extraction: a shallow embedding

    The development follows three source files:
    - [core/highlight_selector.py]  (modules [HighlightSelector] and
      [HighlightSelector64]),
    - [core/multimodal_fusion.py]   (module [MultimodalFusion]),
    - [core/keyframe_extractor.py]  (modules [KeyframeExtractor],
      [KeyframePipeline], [FrameMeasures] and [KeyframeExtractor64]).

    Numbers are rationals ([Q]).  The arithmetic of the code is read in
    two ways, and a statement is about the one whose module it names:
    - in [HighlightSelector], [MultimodalFusion], [KeyframeExtractor]
      and [KeyframePipeline] sums, products and quotients are those of
      the rationals; these modules carry the properties of the structure
      of the code: which items are taken, under which keys, in which
      order;
    - in [HighlightSelector64] and [KeyframeExtractor64] every operation
      on floats is followed by the rounding of binary64
      ([Binary64.b64]), as Python computes it; these modules carry the
      properties that depend on the values computed: budgets, scores,
      sample times and frame numbers.
    Python strings are sequences of characters; [len] is
    [String.length]. *)

From Stdlib Require Import QArith Qround Qminmax Lqa Lia ZArith List String.
From Stdlib Require Import Sorting.Sorted Sorting.Permutation.
From Stdlib Require Import Qabs Qpower Ascii HexString Floats.
From stdpp Require Import gmap strings list sorting.

Open Scope Q_scope.

(** ** Python run time: exceptions and results *)

Inductive exn : Type :=
| KeyError (key : string)
| ZeroDivisionError.

Inductive result (A : Type) : Type :=
| Ok (a : A)
| Raise (e : exn).
Arguments Ok {A} a.
Arguments Raise {A} e.

#[global] Instance result_ret : MRet result := fun _ a => Ok a.
#[global] Instance result_bind : MBind result := fun _ _ f m =>
  match m with
  | Ok a => f a
  | Raise e => Raise e
  end.

Definition is_ok {A} (r : result A) : bool :=
  match r with Ok _ => true | Raise _ => false end.

(** [d[key]] on a dict whose key may be absent. *)
Definition getitem {A} (key : string) (field : option A) : result A :=
  match field with
  | Some v => Ok v
  | None => Raise (KeyError key)
  end.

(** [for x in l: ... f(x) ...] collecting the results, stopping at the
    first exception. *)
Fixpoint traverse {A B} (f : A -> result B) (l : list A) : result (list B) :=
  match l with
  | [] => Ok []
  | x :: l' => y ← f x; ys ← traverse f l'; Ok (y :: ys)
  end.

(** ** Python built-ins on numbers *)

Definition Qlt_bool (a b : Q) : bool := negb (Qle_bool b a).

(** [min(a, b)] returns its first argument unless the second is smaller. *)
Definition py_min (a b : Q) : Q := if Qlt_bool b a then b else a.

(** [max(a, b)] returns its first argument unless the second is larger. *)
Definition py_max (a b : Q) : Q := if Qlt_bool a b then b else a.

(** Nearest integer, ties to the even one. *)
Definition round_half_even (q : Q) : Z :=
  let f := Qfloor q in
  match Qcompare (q - inject_Z f) (1 # 2) with
  | Lt => f
  | Gt => (f + 1)%Z
  | Eq => if Z.even f then f else (f + 1)%Z
  end.

(** [round(q, ndigits)] for a non-negative number of digits. *)
Definition py_round (q : Q) (ndigits : nat) : Q :=
  let scale := inject_Z (10 ^ Z.of_nat ndigits) in
  inject_Z (round_half_even (q * scale)) / scale.

(** [int(q)]: truncation towards zero. *)
Definition py_int (q : Q) : Z := Z.quot (Qnum q) (Zpos (Qden q)).

Definition Qnat (n : nat) : Q := inject_Z (Z.of_nat n).

(** [sum] of a list of numbers. *)
Definition Qsum (l : list Q) : Q := foldr Qplus 0 l.

(** ** [list.sort(key=..., reverse=...)]

    Python's sort is stable, also under [reverse=True].  The keys are
    computed first, once per element; the decorated list is sorted by a
    stable insertion sort, whose result is the one any stable sort
    gives. *)

Section Sort.
Context {A : Type}.

Definition goes_before (reverse : bool) (k k' : Q) : bool :=
  if reverse then Qle_bool k' k else Qle_bool k k'.

Fixpoint insert_keyed (reverse : bool) (x : Q * A) (l : list (Q * A))
  : list (Q * A) :=
  match l with
  | [] => [x]
  | y :: l' =>
      if goes_before reverse (fst x) (fst y) then x :: y :: l'
      else y :: insert_keyed reverse x l'
  end.

Definition sort_keyed (reverse : bool) (l : list (Q * A)) : list (Q * A) :=
  foldr (insert_keyed reverse) [] l.

Definition decorate (key : A -> result Q) (x : A) : result (Q * A) :=
  k ← key x; Ok (k, x).

Definition list_sort (key : A -> result Q) (reverse : bool) (l : list A)
  : result (list A) :=
  keyed ← traverse (decorate key) l;
  Ok (map snd (sort_keyed reverse keyed)).

(** The order in which two keys may follow each other in the result. *)
Definition in_order (reverse : bool) (k k' : Q) : Prop :=
  if reverse then k' <= k else k <= k'.

Definition keys_in_order (reverse : bool) (x y : Q * A) : Prop :=
  in_order reverse (fst x) (fst y).

(** The same sort for a key that is available on every element. *)
Definition sorted_by (key : A -> Q) (reverse : bool) (l : list A) : list A :=
  map snd (sort_keyed reverse (map (fun x => (key x, x)) l)).
End Sort.

(** ** Records for the dict-shaped data *)

(** A subtitle span [{'start', 'end', 'text'}]. *)
Record Subtitle : Type := mkSubtitle {
  start : Q;
  end_ : Q;
  text : string
}.

(** A scene dict.  A field is [None] when the key is absent. *)
Record Scene : Type := mkScene {
  id : option Z;
  index : option Z;
  start_time : option Q;
  end_time : option Q;
  duration : option Q;
  start_frame : option Z;
  end_frame : option Z;
  dialogue : option string;
  subtitle_count : option nat;
  highlight_score : option Q;
  selected_id : option Z
}.

Definition set_dialogue (s : Scene) (v : string) : Scene :=
  mkScene (id s) (index s) (start_time s) (end_time s) (duration s)
          (start_frame s) (end_frame s) (Some v) (subtitle_count s)
          (highlight_score s) (selected_id s).

Definition set_subtitle_count (s : Scene) (v : nat) : Scene :=
  mkScene (id s) (index s) (start_time s) (end_time s) (duration s)
          (start_frame s) (end_frame s) (dialogue s) (Some v)
          (highlight_score s) (selected_id s).

Definition set_highlight_score (s : Scene) (v : Q) : Scene :=
  mkScene (id s) (index s) (start_time s) (end_time s) (duration s)
          (start_frame s) (end_frame s) (dialogue s) (subtitle_count s)
          (Some v) (selected_id s).

Definition set_selected_id (s : Scene) (v : Z) : Scene :=
  mkScene (id s) (index s) (start_time s) (end_time s) (duration s)
          (start_frame s) (end_frame s) (dialogue s) (subtitle_count s)
          (highlight_score s) (Some v).

(** ** core/highlight_selector.py *)

Module HighlightSelector.

(** The condition of the list comprehension of [_add_dialogue_to_scene]. *)
Definition overlaps (s e : Q) (sub : Subtitle) : bool :=
  (Qle_bool s (start sub) && Qlt_bool (start sub) e)
  || (Qlt_bool s (end_ sub) && Qle_bool (end_ sub) e)
  || (Qle_bool (start sub) s && Qle_bool e (end_ sub)).

Definition _add_dialogue_to_scene (scene : Scene) (subtitles : list Subtitle)
  : result Scene :=
  s ← getitem "start_time" (start_time scene);
  e ← getitem "end_time" (end_time scene);
  let scene_subtitles := filter (fun sub => overlaps s e sub = true) subtitles in
  let dialogue := String.concat " " (map text scene_subtitles) in
  let scene_with_dialogue := scene in
  let scene_with_dialogue := set_dialogue scene_with_dialogue dialogue in
  let scene_with_dialogue :=
    set_subtitle_count scene_with_dialogue (length scene_subtitles) in
  Ok scene_with_dialogue.

(** The third component of the score, on its own. *)
Definition duration_score (duration : Q) : Q :=
  if Qle_bool 5 duration && Qle_bool duration 15 then 100
  else if Qlt_bool duration 5 then duration / 5 * 100
  else py_max 0 (100 - (duration - 15) * 3).

Definition _calculate_highlight_score (scene : Scene) : result Q :=
  let score := 0 in
  duration ← getitem "duration" (duration scene);
  let dialogue := default ""%string (dialogue scene) in
  let dialogue_len := String.length dialogue in
  let dialogue_score :=
    if (0 <? dialogue_len)%nat then
      let dialogue_density :=
        if Qlt_bool 0 duration then Qnat dialogue_len / duration else 0 in
      py_min (dialogue_density / 8 * 100) 100
    else 0 in
  let score := score + dialogue_score * 0.4 in
  let subtitle_count := default 0%nat (subtitle_count scene) in
  let subtitle_score :=
    if (0 <? subtitle_count)%nat then py_min (Qnat subtitle_count * 20) 100
    else 0 in
  let score := score + subtitle_score * 0.3 in
  let score := score + duration_score duration * 0.3 in
  Ok (py_round score 2).

(** The body of the [try] block of the enrichment loop. *)
Definition enrich (subtitles : list Subtitle) (scene : Scene) : result Scene :=
  scene_with_dialogue ← _add_dialogue_to_scene scene subtitles;
  score ← _calculate_highlight_score scene_with_dialogue;
  Ok (set_highlight_score scene_with_dialogue score).

(** The enrichment loop: a scene whose processing raises is logged and
    skipped ([except Exception: continue]). *)
Fixpoint enrich_all (subtitles : list Subtitle) (scenes : list Scene)
  : list Scene :=
  match scenes with
  | [] => []
  | scene :: rest =>
      match enrich subtitles scene with
      | Ok scene' => scene' :: enrich_all subtitles rest
      | Raise _ => enrich_all subtitles rest
      end
  end.

(** The arguments of the [logger.debug] f-string, evaluated whenever a
    scene is accepted. *)
Definition debug_fields (scene : Scene) : result unit :=
  _ ← getitem "id" (id scene);
  _ ← getitem "start_time" (start_time scene);
  _ ← getitem "end_time" (end_time scene);
  _ ← getitem "highlight_score" (highlight_score scene);
  Ok tt.

(** The greedy loop; the state is [(selected_scenes, total_duration)]. *)
Fixpoint greedy (target_duration : Q) (scenes : list Scene)
         (selected_scenes : list Scene) (total_duration : Q)
  : result (list Scene * Q) :=
  match scenes with
  | [] => Ok (selected_scenes, total_duration)
  | scene :: rest =>
      d ← getitem "duration" (duration scene);
      st ← (if Qle_bool (total_duration + d) target_duration then
              _ ← debug_fields scene;
              Ok (selected_scenes ++ [scene], total_duration + d)
            else Ok (selected_scenes, total_duration));
      if Qle_bool (target_duration * 0.95) (snd st) then Ok st
      else greedy target_duration rest (fst st) (snd st)
  end.

(** [for i, scene in enumerate(selected_scenes, start=1)]. *)
Definition assign_selected_ids (selected_scenes : list Scene) : list Scene :=
  imap (fun i scene => set_selected_id scene (Z.of_nat i + 1)) selected_scenes.

(** Steps 2 to 5 of [select_highlights], after the enrichment loop. *)
Definition select_enriched (enriched_scenes : list Scene) (target_duration : Q)
  : result (list Scene) :=
  match enriched_scenes with
  | [] => Ok []
  | _ =>
      enriched_scenes ←
        list_sort (fun x => getitem "highlight_score" (highlight_score x))
                  true enriched_scenes;
      st ← greedy target_duration enriched_scenes [] 0;
      selected_scenes ←
        list_sort (fun x => getitem "start_time" (start_time x))
                  false (fst st);
      Ok (assign_selected_ids selected_scenes)
  end.

Definition select_highlights (scenes : list Scene) (subtitles : list Subtitle)
           (target_duration : Q) : result (list Scene) :=
  match scenes with
  | [] => Ok []
  | _ => select_enriched (enrich_all subtitles scenes) target_duration
  end.

End HighlightSelector.

(** ** core/multimodal_fusion.py *)

Module MultimodalFusion.

(** The merged ['visual'] dict; the empty dict has every field [None]. *)
Record Visual : Type := mkVisual {
  clip_labels : option (list string);
  blip2_caption : option string;
  motion_score : option Q
}.

Record VisionItem : Type := mkVisionItem {
  vision_timestamp : Q;
  vision_data : Visual
}.

(** One entry of an OCR item's ['texts'] list: [{'text': ...}]. *)
Record TextInfo : Type := mkTextInfo { info_text : string }.

Record OcrItem : Type := mkOcrItem {
  ocr_timestamp : Q;
  ocr_item_texts : option (list TextInfo)
}.

(** The merged ['ocr'] dict. *)
Record Ocr : Type := mkOcr { texts : option (list string) }.

Section Fusion.
Context {Face : Type}.

Record FaceItem : Type := mkFaceItem {
  face_timestamp : Q;
  item_faces : option (list Face)
}.

(** A fused scene: [{**scene, 'visual': .., 'ocr': .., 'faces': ..}]; the
    keys ['dialogue'] and ['highlight_score'] live in [scene]. *)
Record FusedScene : Type := mkFusedScene {
  scene : Scene;
  visual : option Visual;
  ocr : option Ocr;
  faces : option (list Face)
}.

Definition _get_data_in_range {A} (timestamp : A -> Q) (data_list : list A)
           (start end_ : Q) : list A :=
  filter (fun item => Qle_bool start (timestamp item)
                      && Qle_bool (timestamp item) end_ = true) data_list.

(** The test of the loop of [_get_dialogue_in_range]. *)
Definition inside (start_ end_' : Q) (sub : Subtitle) : bool :=
  Qle_bool start_ (start sub) && Qle_bool (end_ sub) end_'.

Definition _get_dialogue_in_range (subtitles : list Subtitle) (start_ end_' : Q)
  : string :=
  let dialogues :=
    map text (filter (fun sub => inside start_ end_' sub = true) subtitles) in
  String.concat " " dialogues.

Definition _merge_vision_data (vision_data_ : list VisionItem) : Visual :=
  match vision_data_ !! (length vision_data_ / 2)%nat with
  | None => mkVisual None None None
  | Some mid_frame =>
      mkVisual (Some (default [] (clip_labels (vision_data mid_frame))))
               (Some (default ""%string (blip2_caption (vision_data mid_frame))))
               (Some (default 0 (motion_score (vision_data mid_frame))))
  end.

(** [list(set(all_texts))]: the order of the result is the set's. *)
Definition _merge_ocr_data (ocr_data : list OcrItem) : Ocr :=
  let all_texts :=
    concat (map (fun item => map info_text (default [] (ocr_item_texts item)))
                ocr_data) in
  let unique_texts := elements (list_to_set all_texts : gset string) in
  mkOcr (Some unique_texts).

Definition _merge_face_data (face_data : list FaceItem) : list Face :=
  concat (map (fun item => default [] (item_faces item)) face_data).

(** [a / b] on numbers raises when [b] is zero. *)
Definition py_div (a b : Q) : result Q :=
  if Qeq_bool b 0 then Raise ZeroDivisionError else Ok (a / b).

Definition duration_score (duration : Q) : Q :=
  if Qle_bool 5 duration && Qle_bool duration 15 then 100
  else if Qlt_bool duration 5 then duration / 5 * 100
  else py_max 0 (100 - (duration - 15) * 5).

Definition _calculate_highlight_score (fs : FusedScene) : result Q :=
  let score := 0 in
  let dialogue_len := String.length (default ""%string (dialogue (scene fs))) in
  d ← getitem "duration" (duration (scene fs));
  density ← py_div (Qnat dialogue_len) d;
  let dialogue_score := py_min (density / 10 * 100) 100 in
  let score := score + dialogue_score * 0.3 in
  let motion_score :=
    default 0 (motion_score (default (mkVisual None None None) (visual fs)))
    * 100 in
  let score := score + motion_score * 0.25 in
  let face_count := length (default [] (faces fs)) in
  let face_score := py_min (Qnat face_count * 30) 100 in
  let score := score + face_score * 0.2 in
  let ocr_count :=
    length (default [] (texts (default (mkOcr None) (ocr fs)))) in
  let special_score := py_min (Qnat ocr_count * 20) 100 in
  let score := score + special_score * 0.15 in
  duration ← getitem "duration" (duration (scene fs));
  let score := score + duration_score duration * 0.1 in
  Ok score.

(** The body of the loop of [fuse_multimodal_data]. *)
Definition fuse_scene (vision_results : list VisionItem)
           (ocr_results : list OcrItem) (face_results : list FaceItem)
           (subtitles : list Subtitle) (scene_ : Scene) : result FusedScene :=
  start_ ← getitem "start_time" (start_time scene_);
  end_' ← getitem "end_time" (end_time scene_);
  let scene_vision := _get_data_in_range vision_timestamp vision_results start_ end_' in
  let scene_ocr := _get_data_in_range ocr_timestamp ocr_results start_ end_' in
  let scene_faces := _get_data_in_range face_timestamp face_results start_ end_' in
  let scene_dialogue := _get_dialogue_in_range subtitles start_ end_' in
  let fused_scene :=
    mkFusedScene (set_dialogue scene_ scene_dialogue)
                 (Some (_merge_vision_data scene_vision))
                 (Some (_merge_ocr_data scene_ocr))
                 (Some (_merge_face_data scene_faces)) in
  score ← _calculate_highlight_score fused_scene;
  Ok (mkFusedScene (set_highlight_score (scene fused_scene) score)
                   (visual fused_scene) (ocr fused_scene) (faces fused_scene)).

Definition fuse_multimodal_data (scenes : list Scene)
           (vision_results : list VisionItem) (ocr_results : list OcrItem)
           (face_results : list FaceItem) (subtitles : list Subtitle)
  : result (list FusedScene) :=
  traverse (fuse_scene vision_results ocr_results face_results subtitles) scenes.

End Fusion.
End MultimodalFusion.

(** ** core/keyframe_extractor.py *)

Module KeyframeExtractor.

Record ModeConfig : Type := mkModeConfig {
  interval : Q;
  quality_threshold : Q
}.

(** [self.mode_configs]. *)
Definition mode_configs : gmap string ModeConfig :=
  <["low" := mkModeConfig 3.0 0.3]>
    (<["medium" := mkModeConfig 2.0 0.5]>
       (<["high" := mkModeConfig 1.0 0.7]> ∅)).

(** The attributes set by [__init__]. *)
Record Extractor : Type := mkExtractor {
  mode : string;
  max_frames_per_scene : nat;
  use_gpu : bool
}.

(** A keyframe dict; ['image_hash'] is read with [.get], so it may be
    absent.  The image file and its ['image_path'] are not modelled. *)
Record Keyframe : Type := mkKeyframe {
  scene_id : option Z;
  scene_index : option Z;
  keyframe_index : nat;
  time : Q;
  frame_number : Z;
  quality_score : Q;
  image_hash : option string
}.

(** Truthiness of [kf.get('image_hash')]: [None] and the empty string are
    false. *)
Definition truthy (hash_val : option string) : bool :=
  match hash_val with
  | Some (String _ _) => true
  | _ => false
  end.

(** [hash_val not in seen_hashes]; [None] is never added to the set. *)
Definition not_in (hash_val : option string) (seen_hashes : gset string) : bool :=
  match hash_val with
  | Some h => bool_decide (h ∉ seen_hashes)
  | None => true
  end.

Definition add_hash (hash_val : option string) (seen_hashes : gset string)
  : gset string :=
  match hash_val with
  | Some h => {[h]} ∪ seen_hashes
  | None => seen_hashes
  end.

(** The loop of [remove_duplicates]; the state is
    [(unique_frames, seen_hashes)]. *)
Fixpoint dedup_loop (keyframes : list Keyframe) (unique_frames : list Keyframe)
         (seen_hashes : gset string) : list Keyframe :=
  match keyframes with
  | [] => unique_frames
  | kf :: rest =>
      let hash_val := image_hash kf in
      if negb (truthy hash_val) || not_in hash_val seen_hashes then
        dedup_loop rest (unique_frames ++ [kf])
                   (if truthy hash_val then add_hash hash_val seen_hashes
                    else seen_hashes)
      else dedup_loop rest unique_frames seen_hashes
  end.

Definition remove_duplicates (keyframes : list Keyframe)
           (similarity_threshold : Q) : list Keyframe :=
  match keyframes with
  | [] => keyframes
  | _ => dedup_loop keyframes [] ∅
  end.

Section Extraction.
(** The video side is abstract: [cap] gives the frame read after seeking
    to a frame number ([None] when [ret] is false); frame quality and the
    image hash are computed by OpenCV. *)
Context {Frame : Type}.
Variable cap : Z -> option Frame.
Variable _evaluate_frame_quality : Frame -> Q.
Variable _calculate_image_hash : Frame -> string.

(** An entry of [candidates]. *)
Record Candidate : Type := mkCandidate {
  cand_time : Q;
  cand_frame_number : Z;
  cand_frame : Frame;
  cand_quality_score : Q
}.

(** [interval] as chosen from the mode. *)
Definition interval_of (self : Extractor) : Q :=
  match mode_configs !! mode self with
  | Some config_params => interval config_params
  | None => 2.0
  end.

(** The [while] loop over [current_time]; [room] is
    [max_frames_per_scene - len(sample_times)]. *)
Fixpoint sample_loop (room : nat) (scene : Scene) (duration interval : Q)
         (current_time : Q) : result (list Q) :=
  match room with
  | O => Ok []
  | S room' =>
      if Qlt_bool current_time duration then
        st ← getitem "start_time" (start_time scene);
        rest ← sample_loop room' scene duration interval (current_time + interval);
        Ok ((st + current_time) :: rest)
      else Ok []
  end.

(** [sample_times] as it stands before the frames are read. *)
Definition sample_times (self : Extractor) (scene : Scene) (duration : Q)
  : result (list Q) :=
  sample_times ← sample_loop (max_frames_per_scene self) scene duration
                             (interval_of self) 0;
  if (length sample_times <? max_frames_per_scene self)%nat then
    st ← getitem "start_time" (start_time scene);
    st' ← getitem "start_time" (start_time scene);
    et ← getitem "end_time" (end_time scene);
    Ok (take (max_frames_per_scene self)
             [st; st' + duration / 2; et - 0.1])
  else Ok sample_times.

(** The loop that reads and scores one frame per sample time. *)
Fixpoint read_candidates (fps : Q) (times : list Q) : list Candidate :=
  match times with
  | [] => []
  | time_sec :: rest =>
      let frame_number := py_int (time_sec * fps) in
      match cap frame_number with
      | None => read_candidates fps rest
      | Some frame =>
          mkCandidate time_sec frame_number frame (_evaluate_frame_quality frame)
          :: read_candidates fps rest
      end
  end.

(** [x or y] on optional integers: [None] and [0] are false. *)
Definition py_or (x y : option Z) : option Z :=
  match x with
  | Some 0%Z | None => y
  | Some _ => x
  end.

Definition _extract_from_scene (self : Extractor) (scene : Scene) (fps : Q)
  : result (list Keyframe) :=
  let scene_id := py_or (selected_id scene) (id scene) in
  let scene_index :=
    match index scene with Some i => Some i | None => scene_id end in
  _ ← getitem "start_frame" (start_frame scene);
  _ ← getitem "end_frame" (end_frame scene);
  duration ← getitem "duration" (duration scene);
  sample_times ← sample_times self scene duration;
  let candidates := read_candidates fps sample_times in
  candidates ← list_sort (fun x => Ok (cand_quality_score x)) true candidates;
  let selected := take (max_frames_per_scene self) candidates in
  selected ← list_sort (fun x => Ok (cand_time x)) false selected;
  Ok (imap (fun idx candidate =>
              mkKeyframe scene_id scene_index idx (cand_time candidate)
                         (cand_frame_number candidate)
                         (cand_quality_score candidate)
                         (Some (_calculate_image_hash (cand_frame candidate))))
           selected).

(** What the keyframe built from a candidate carries over. *)
Definition built_from (kf : Keyframe) (c : Candidate) : Prop :=
  time kf = cand_time c /\ frame_number kf = cand_frame_number c
  /\ quality_score kf = cand_quality_score c
  /\ image_hash kf = Some (_calculate_image_hash (cand_frame c)).

End Extraction.
End KeyframeExtractor.

(** ** Specification side

    The definitions of this part are written from the wording of the
    specification; the theorems below compare them with the code. *)

#[global] Instance Qle_decision (a b : Q) : Decision (a <= b).
Proof.
  destruct (Qlt_le_dec b a) as [H | H]; [right | left]; [|exact H].
  intros H'. exact (Qlt_not_le _ _ H H').
Defined.

#[global] Instance Qlt_decision (a b : Q) : Decision (a < b).
Proof.
  destruct (Qlt_le_dec a b) as [H | H]; [left | right]; [exact H|].
  intros H'. exact (Qlt_not_le _ _ H' H).
Defined.

Module Spec.

(** "[sub.start] in [[s,e)], or [sub.end] in [(s,e]], or the subtitle
    fully contains [[s,e]]". *)
Definition permissive_rule (s e : Q) (sub : Subtitle) : Prop :=
  (s <= start sub /\ start sub < e)
  \/ (s < end_ sub /\ end_ sub <= e)
  \/ (start sub <= s /\ e <= end_ sub).

(** Simple containment of the subtitle inside the scene. *)
Definition contained (s e : Q) (sub : Subtitle) : Prop :=
  s <= start sub /\ end_ sub <= e.

#[global] Instance permissive_rule_dec s e sub : Decision (permissive_rule s e sub).
Proof. unfold permissive_rule. apply _. Defined.

#[global] Instance contained_dec s e sub : Decision (contained s e sub).
Proof. unfold contained. apply _. Defined.

(** "concatenate, space-joined, the texts of all overlapping subtitle
    spans, in input order", for a given notion of overlap. *)
Definition dialogue_of (rule : Subtitle -> Prop) `{!forall sub, Decision (rule sub)}
           (subtitles : list Subtitle) : string :=
  String.concat " " (map text (filter rule subtitles)).

(** "[100] if [5 <= duration <= 15]; [duration/5*100] if [duration < 5];
    [max(0, 100 - (duration-15)*c)] if [duration > 15]", with falloff
    coefficient [c]. *)
Definition duration_score (c : Q) (duration : Q) : Q :=
  if decide (5 <= duration /\ duration <= 15) then 100
  else if decide (duration < 5) then duration / 5 * 100
  else Qmax 0 (100 - (duration - 15) * c).

(** The dialogue-only total, rounded to 2 decimals. *)
Definition dialogue_only_score (dialogue_len subtitle_count : nat) (duration : Q)
  : Q :=
  py_round (0.4 * Qmin (Qnat dialogue_len / duration / 8 * 100) 100
            + 0.3 * Qmin (Qnat subtitle_count * 20) 100
            + 0.3 * duration_score 3 duration) 2.

(** The multimodal total, unrounded. *)
Definition multimodal_score (dialogue_len : nat) (motion_score : Q)
           (face_count ocr_text_count : nat) (duration : Q) : Q :=
  0.3 * Qmin (Qnat dialogue_len / duration / 10 * 100) 100
  + 0.25 * (motion_score * 100)
  + 0.2 * Qmin (Qnat face_count * 30) 100
  + 0.15 * Qmin (Qnat ocr_text_count * 20) 100
  + 0.1 * duration_score 5 duration.

(** The value of a key that is known to be present. *)
Definition duration_of (s : Scene) : Q := default 0 (duration s).
Definition score_of (s : Scene) : Q := default 0 (highlight_score s).
Definition start_of (s : Scene) : Q := default 0 (start_time s).
Definition end_of (s : Scene) : Q := default 0 (end_time s).

(** A scene as the enrichment loop leaves it. *)
Definition enriched (s : Scene) : Prop :=
  is_Some (start_time s) /\ is_Some (end_time s) /\ is_Some (duration s)
  /\ is_Some (highlight_score s).

(** Two scene records cover the same stretch of video. *)
Definition same_span (s s0 : Scene) : Prop :=
  start_time s = start_time s0 /\ end_time s = end_time s0
  /\ duration s = duration s0.

(** The greedy scan of section 4.3, steps 3 and 4, as rules.
    [Scan target scenes total accepted total'] : scanning [scenes] from the
    running total [total] accepts [accepted] and ends with [total']. *)
Inductive Scan (target : Q) : list Scene -> Q -> list Scene -> Q -> Prop :=
| scan_exhausted total :
    Scan target [] total [] total
| scan_accept_stop scene rest total :
    total + duration_of scene <= target ->
    target * 0.95 <= total + duration_of scene ->
    Scan target (scene :: rest) total [scene] (total + duration_of scene)
| scan_accept_continue scene rest total accepted total' :
    total + duration_of scene <= target ->
    total + duration_of scene < target * 0.95 ->
    Scan target rest (total + duration_of scene) accepted total' ->
    Scan target (scene :: rest) total (scene :: accepted) total'
| scan_skip_continue scene rest total accepted total' :
    target < total + duration_of scene ->
    total < target * 0.95 ->
    Scan target rest total accepted total' ->
    Scan target (scene :: rest) total accepted total'
| scan_skip_stop scene rest total :
    target < total + duration_of scene ->
    target * 0.95 <= total ->
    Scan target (scene :: rest) total [] total.

(** The order in which the scenes are scanned: the enriched scenes by
    descending score. *)
Definition scan_order (scenes : list Scene) (subtitles : list Subtitle)
  : list Scene :=
  sorted_by score_of true (HighlightSelector.enrich_all subtitles scenes).

(** "Input scenes are non-overlapping and sorted by [start_time]", with
    [duration == end_time - start_time > 0]. *)
Definition positive_span (s : Scene) : Prop :=
  exists st en d,
    start_time s = Some st /\ end_time s = Some en /\ duration s = Some d
    /\ 0 < d /\ d == en - st.

Definition chronological (scenes : list Scene) : Prop :=
  Forall positive_span scenes
  /\ StronglySorted (fun a b => end_of a <= start_of b) scenes.

(** The end-to-end scenario of section 8: two scenes, the first with a
    dialogue of 80 characters from 4 subtitles, and a target of 8 seconds. *)
Definition scenario_dialogue : string :=
  "aaaaaaaaaaaaaaaaaaaa bbbbbbbbbbbbbbbbbbb ccccccccccccccccccc ddddddddddddddddddd".

Definition scenario_scene1 : Scene :=
  mkScene (Some 1%Z) None (Some 0) (Some 8) (Some 8) None None
          (Some scenario_dialogue) (Some 4%nat) None None.

Definition scenario_scene2 : Scene :=
  mkScene (Some 2%Z) None (Some 8) (Some 20) (Some 12) None None
          (Some ""%string) (Some 0%nat) None None.

Definition scenario_subtitles : list Subtitle :=
  [mkSubtitle 0 2 "aaaaaaaaaaaaaaaaaaaa"; mkSubtitle 2 4 "bbbbbbbbbbbbbbbbbbb";
   mkSubtitle 4 6 "ccccccccccccccccccc"; mkSubtitle 6 8 "ddddddddddddddddddd"].

(** A scene without ['duration'], whose scoring raises [KeyError]. *)
Definition scene_without_duration : Scene :=
  mkScene (Some 7%Z) None (Some 0) (Some 4) None None None None None None None.

(** The two failure policies of the error-handling section. *)
Inductive FailurePolicy : Type :=
| SkipAndContinue
| AbortPipeline.

(** The enrichment loop under a policy: a scene whose enrichment or
    scoring raises is skipped, or the exception aborts the pipeline. *)
Fixpoint enrich_with_policy (policy : FailurePolicy) (subtitles : list Subtitle)
         (scenes : list Scene) : result (list Scene) :=
  match scenes with
  | [] => Ok []
  | scene :: rest =>
      match HighlightSelector.enrich subtitles scene with
      | Ok scene' =>
          rest' ← enrich_with_policy policy subtitles rest;
          Ok (scene' :: rest')
      | Raise e =>
          match policy with
          | SkipAndContinue => enrich_with_policy policy subtitles rest
          | AbortPipeline => Raise e
          end
      end
  end.

(** Selection with the policy as a strategy parameter. *)
Definition select_with_policy (policy : FailurePolicy) (scenes : list Scene)
           (subtitles : list Subtitle) (target_duration : Q)
  : result (list Scene) :=
  match scenes with
  | [] => Ok []
  | _ =>
      enriched ← enrich_with_policy policy subtitles scenes;
      HighlightSelector.select_enriched enriched target_duration
  end.

End Spec.

(** ** core/keyframe_extractor.py: the entry points and the frame measures *)

Module KeyframePipeline.
Import KeyframeExtractor.

(** What [extract] caught before it raised [KeyframeExtractionError]:
    the video could not be opened, or the processing of a scene raised. *)
Inductive cause : Type :=
| VideoNotOpened
| SceneRaised (e : exn).

Inductive extraction (A : Type) : Type :=
| Extracted (a : A)
| KeyframeExtractionError (c : cause).
Arguments Extracted {A} a.
Arguments KeyframeExtractionError {A} c.

(** A call and its effects: the values passed to [progress_callback], in
    order, whether [cap.release()] was reached, and the outcome. *)
Record Run (A : Type) : Type := mkRun {
  reported : list Q;
  released : bool;
  outcome : extraction A
}.
Arguments mkRun {A} reported released outcome.
Arguments reported {A} r.
Arguments released {A} r.
Arguments outcome {A} r.

Section Entry.
Context {Frame : Type}.
Variable cap : Z -> option Frame.
Variable _evaluate_frame_quality : Frame -> Q.
Variable _calculate_image_hash : Frame -> string.
(** [cap.isOpened()] and [cap.get(cv2.CAP_PROP_FPS)]. *)
Variable opened : bool.
Variable fps : Q.

(** The loop of [extract] over [enumerate(scenes)]; [total] is
    [len(scenes)], the state is [(all_keyframes, reported)]. *)
Fixpoint extract_loop (self : Extractor) (progress_callback : bool)
         (total i : nat) (scenes : list Scene)
         (all_keyframes : list Keyframe) (reported : list Q)
  : list Q * result (list Keyframe) :=
  match scenes with
  | [] => (reported, Ok all_keyframes)
  | scene :: rest =>
      match _extract_from_scene cap _evaluate_frame_quality
                                _calculate_image_hash self scene fps with
      | Raise e => (reported, Raise e)
      | Ok keyframes =>
          let all_keyframes := all_keyframes ++ keyframes in
          let reported :=
            if progress_callback then
              let progress := Qnat (i + 1) / Qnat total * 100 in
              reported ++ [progress]
            else reported in
          extract_loop self progress_callback total (S i) rest
                       all_keyframes reported
      end
  end.

Definition extract (self : Extractor) (scenes : list Scene)
           (progress_callback : bool) : Run (list Keyframe) :=
  if opened then
    let run := extract_loop self progress_callback (length scenes) 0 scenes [] [] in
    match snd run with
    | Ok all_keyframes => mkRun (fst run) true (Extracted all_keyframes)
    | Raise e => mkRun (fst run) false (KeyframeExtractionError (SceneRaised e))
    end
  else mkRun [] false (KeyframeExtractionError VideoNotOpened).

End Entry.
End KeyframePipeline.

Module FrameMeasures.

(** *** [_calculate_image_hash]

    [cv2.resize] and [cv2.cvtColor] are outside the model: the function is
    taken from the 8x8 grayscale image on, given as the list of its
    pixels in row-major order ([gray.flatten()]). *)

(** [gray.mean()]; the sum of the pixels over their number. *)
Definition gray_mean (gray : list Z) : Q :=
  Qsum (map inject_Z gray) / Qnat (length gray).

(** The characters of [hash_str], as bits: ['1' if pixel > avg else '0']. *)
Definition hash_bits (gray : list Z) : list bool :=
  let avg := gray_mean gray in
  map (fun pixel => Qlt_bool avg (inject_Z pixel)) gray.

(** [int(hash_str, 2)]; the string has one binary digit per pixel, 64
    of them for the 8x8 image. *)
Definition int_base2 (bits : list bool) : N :=
  foldl (fun acc (b : bool) => (2 * acc + (if b then 1 else 0))%N) 0%N bits.

(** [format(n, 'x')]: lower-case hexadecimal digits. *)
Definition format_x (n : N) : string :=
  match n with
  | N0 => "0"
  | Npos p => HexString.Raw.of_pos p ""
  end.

(** Zero padding on the left up to [width] characters. *)
Fixpoint zeros (k : nat) (s : string) : string :=
  match k with
  | O => s
  | S k' => String "0"%char (zeros k' s)
  end.

(** [format(n, '016x')]. *)
Definition format_016x (n : N) : string :=
  let digits := format_x n in
  zeros (16 - String.length digits) digits.

Definition image_hash_of_gray (gray : list Z) : string :=
  let hash_int := int_base2 (hash_bits gray) in
  format_016x hash_int.

(** [int(s, 16)], the reading of a hexadecimal string. *)
Definition int_base16 (s : string) : N := HexString.Raw.to_N s 0%N.

(** *** [_evaluate_frame_quality]

    The four measurements come from OpenCV and NumPy; the function is
    taken from there on. *)
Record Measurements : Type := mkMeasurements {
  sharpness : Q;
  contrast : Q;
  brightness : Q;
  saturation : Q
}.

Definition quality_of (m : Measurements) : Q :=
  let sharpness_score := py_min (sharpness m / 1000) 1.0 in
  let contrast_score := py_min (contrast m / 80) 1.0 in
  let brightness_score := 1.0 - Qabs (brightness m - 127.5) / 127.5 in
  let color_score := saturation m / 255.0 in
  let total_score :=
    sharpness_score * 0.4 + contrast_score * 0.3 + brightness_score * 0.2
    + color_score * 0.1 in
  py_round total_score 3.

End FrameMeasures.

(** ** Vocabulary of the further properties *)

Module Vocabulary.

(** A scene dict without the keys that the selection writes. *)
Definition strip_annotations (s : Scene) : Scene :=
  mkScene (id s) (index s) (start_time s) (end_time s) (duration s)
          (start_frame s) (end_frame s) None None None None.

(** A scene dict without ['selected_id']. *)
Definition drop_selected_id (s : Scene) : Scene :=
  mkScene (id s) (index s) (start_time s) (end_time s) (duration s)
          (start_frame s) (end_frame s) (dialogue s) (subtitle_count s)
          (highlight_score s) None.

(** The keys a scene needs for the enrichment to succeed. *)
Definition timed (s : Scene) : Prop :=
  is_Some (start_time s) /\ is_Some (end_time s) /\ is_Some (duration s).

(** All the texts of a list of OCR items, in order. *)
Definition all_ocr_texts (ocr_data : list MultimodalFusion.OcrItem) : list string :=
  concat (map (fun item =>
                 map MultimodalFusion.info_text
                     (default [] (MultimodalFusion.ocr_item_texts item)))
              ocr_data).

(** The hashes that take part in the duplicate removal: those that are
    neither absent nor empty. *)
Definition hashes_of (keyframes : list KeyframeExtractor.Keyframe)
  : list (option string) :=
  map KeyframeExtractor.image_hash
      (filter (fun kf => KeyframeExtractor.truthy
                           (KeyframeExtractor.image_hash kf) = true)
              keyframes).

(** The progress values [(i + 1) / total * 100] of [count] consecutive
    scenes, the first of them with index [first]. *)
Definition progress_values (total first count : nat) : list Q :=
  map (fun i => Qnat (i + 1) / Qnat total * 100) (seq first count).

(** The scene number that [_extract_from_scene] writes into the
    keyframes of a scene. *)
Definition scene_id_of (scene : Scene) : option Z :=
  KeyframeExtractor.py_or (selected_id scene) (id scene).

End Vocabulary.

(** ** Sample data *)

Module Samples.
Import KeyframeExtractor.

(** Two detected scenes with their frame numbers, at 25 frames per
    second. *)
Definition sample_scene1 : Scene :=
  mkScene (Some 7%Z) None (Some 10) (Some 14) (Some 4) (Some 250%Z)
          (Some 350%Z) None None None None.

Definition sample_scene2 : Scene :=
  mkScene (Some 4%Z) None (Some 14) (Some 23) (Some 9) (Some 350%Z)
          (Some 575%Z) None None None None.

(** [KeyframeExtractor()] with its default arguments. *)
Definition sample_extractor : Extractor := mkExtractor "medium" 3 false.

(** A video whose frames are their numbers; one frame in seven cannot
    be read. *)
Definition sample_cap (frame_number : Z) : option Z :=
  if (frame_number mod 7 =? 3)%Z then None else Some frame_number.

Definition sample_quality (frame : Z) : Q := inject_Z (frame mod 5) / 5.

(** The 8x8 grayscale image of a frame. *)
Definition sample_gray (frame : Z) : list Z :=
  map (fun i => ((frame + 1) * Z.of_nat i * 37 mod 256)%Z) (seq 0 64).

End Samples.

(** ** Python floats: binary64

    A float is a rational of the form [m * 2^e] with [|m| < 2^53] and
    [e >= -1074].  The result of an operation on floats is the exact
    result rounded to the nearest such number, ties going to the one
    whose [m] is even.  The exponent is not bounded above: overflow,
    the infinities, NaN and the sign of zero are outside the model.
    Comparisons of floats are those of the rationals. *)

Module Binary64.

Definition pow2 (e : Z) : Q := 2 ^ e.

(** For [0 < q], the exponent [k] with [2^k <= q < 2^(k+1)]. *)
Definition ilog2 (q : Q) : Z :=
  let k := (Z.log2 (Qnum q) - Z.log2 (Zpos (Qden q)))%Z in
  if Qle_bool (pow2 k) q then k else (k - 1)%Z.

(** The exponent of the last of the 53 bits; subnormal numbers share
    the exponent -1074. *)
Definition ulp_exponent (q : Q) : Z := Z.max (ilog2 q - 52) (-1074).

Definition round_pos (q : Q) : Q :=
  let e := ulp_exponent q in
  inject_Z (round_half_even (q / pow2 e)) * pow2 e.

(** Rounding to the nearest binary64 number, ties to even. *)
Definition b64 (q : Q) : Q :=
  let q := Qred q in
  match Qnum q with
  | Z0 => 0
  | Zpos _ => Qred (round_pos q)
  | Zneg _ => Qred (- round_pos (- q))
  end.

(** [a + b], [a - b], [a * b] and [a / b] on floats.  A decimal literal
    of the source, such as [0.95], is [b64 0.95]. *)
Definition add (a b : Q) : Q := b64 (a + b).
Definition sub (a b : Q) : Q := b64 (a - b).
Definition mul (a b : Q) : Q := b64 (a * b).
Definition div (a b : Q) : Q := b64 (a / b).

Infix "⊕" := add (at level 50, left associativity).
Infix "⊖" := sub (at level 50, left associativity).
Infix "⊗" := mul (at level 40, left associativity).
Infix "⊘" := div (at level 40, left associativity).

(** [round(x, ndigits)] on a float: the decimal nearest to the value of
    [x], ties to even, and then the float nearest to that decimal. *)
Definition round64 (x : Q) (ndigits : nat) : Q := b64 (py_round x ndigits).

(** The binary64 numbers: those that rounding leaves as they are. *)
Definition binary64 (q : Q) : Prop := b64 q == q.

(** The value of a float of the kernel. *)
Definition float_value (f : PrimFloat.float) : Q :=
  match Prim2SF f with
  | S754_finite s m e =>
      (if s then -1 else 1) * inject_Z (Zpos m) * pow2 e
  | _ => 0
  end.

End Binary64.

(** ** core/highlight_selector.py on floats

    [select_highlights] and the functions it calls, every operation
    on a float being the binary64 one.  [_add_dialogue_to_scene]
    compares numbers only and is the one of [HighlightSelector]. *)

Module HighlightSelector64.
Import Binary64.
Import HighlightSelector.

Definition duration_score (duration : Q) : Q :=
  if Qle_bool 5 duration && Qle_bool duration 15 then 100
  else if Qlt_bool duration 5 then duration ⊘ 5 ⊗ 100
  else py_max 0 (100 ⊖ (duration ⊖ 15) ⊗ 3).

Definition _calculate_highlight_score (scene : Scene) : result Q :=
  let score := 0 in
  duration ← getitem "duration" (duration scene);
  let dialogue := default ""%string (dialogue scene) in
  let dialogue_len := String.length dialogue in
  let dialogue_score :=
    if (0 <? dialogue_len)%nat then
      let dialogue_density :=
        if Qlt_bool 0 duration then Qnat dialogue_len ⊘ duration else 0 in
      py_min (dialogue_density ⊘ 8 ⊗ 100) 100
    else 0 in
  let score := score ⊕ dialogue_score ⊗ b64 0.4 in
  let subtitle_count := default 0%nat (subtitle_count scene) in
  let subtitle_score :=
    if (0 <? subtitle_count)%nat then py_min (Qnat subtitle_count * 20) 100
    else 0 in
  let score := score ⊕ subtitle_score ⊗ b64 0.3 in
  let score := score ⊕ duration_score duration ⊗ b64 0.3 in
  Ok (round64 score 2).

Definition enrich (subtitles : list Subtitle) (scene : Scene) : result Scene :=
  scene_with_dialogue ← _add_dialogue_to_scene scene subtitles;
  score ← _calculate_highlight_score scene_with_dialogue;
  Ok (set_highlight_score scene_with_dialogue score).

Fixpoint enrich_all (subtitles : list Subtitle) (scenes : list Scene)
  : list Scene :=
  match scenes with
  | [] => []
  | scene :: rest =>
      match enrich subtitles scene with
      | Ok scene' => scene' :: enrich_all subtitles rest
      | Raise _ => enrich_all subtitles rest
      end
  end.

Fixpoint greedy (target_duration : Q) (scenes : list Scene)
         (selected_scenes : list Scene) (total_duration : Q)
  : result (list Scene * Q) :=
  match scenes with
  | [] => Ok (selected_scenes, total_duration)
  | scene :: rest =>
      d ← getitem "duration" (duration scene);
      st ← (if Qle_bool (total_duration ⊕ d) target_duration then
              _ ← debug_fields scene;
              Ok (selected_scenes ++ [scene], total_duration ⊕ d)
            else Ok (selected_scenes, total_duration));
      if Qle_bool (target_duration ⊗ b64 0.95) (snd st) then Ok st
      else greedy target_duration rest (fst st) (snd st)
  end.

Definition select_enriched (enriched_scenes : list Scene) (target_duration : Q)
  : result (list Scene) :=
  match enriched_scenes with
  | [] => Ok []
  | _ =>
      enriched_scenes ←
        list_sort (fun x => getitem "highlight_score" (highlight_score x))
                  true enriched_scenes;
      st ← greedy target_duration enriched_scenes [] 0;
      selected_scenes ←
        list_sort (fun x => getitem "start_time" (start_time x))
                  false (fst st);
      Ok (assign_selected_ids selected_scenes)
  end.

Definition select_highlights (scenes : list Scene) (subtitles : list Subtitle)
           (target_duration : Q) : result (list Scene) :=
  match scenes with
  | [] => Ok []
  | _ => select_enriched (enrich_all subtitles scenes) target_duration
  end.

End HighlightSelector64.

(** ** core/keyframe_extractor.py on floats, with its effects

    [extract], [_extract_from_scene] and [extract_custom]: the sample
    times and the frame numbers are computed in binary64, and the
    release of the capture, the progress reports and the exceptions
    are those of the statements executed. *)

Module KeyframeExtractor64.
Import Binary64.
Import KeyframeExtractor.

(** What a call leaves behind: whether [cap.release()] was executed and
    the values passed to [progress_callback], in order. *)
Record World : Type := mkWorld {
  released : bool;
  reported : list Q
}.

Definition initial : World := mkWorld false [].

(** An exception in flight: one of Python's own, or the
    [KeyframeExtractionError] of [core/exceptions.py], raised directly
    ([None]) or by the handler that caught [cause]. *)
Inductive error : Type :=
| Builtin (e : exn)
| KeyframeExtractionError (cause : option error).

Inductive outcome (A : Type) : Type :=
| Returned (a : A)
| Raised (e : error).
Arguments Returned {A} a.
Arguments Raised {A} e.

(** Statements: from a world to a world and an outcome. *)
Definition M (A : Type) : Type := World -> World * outcome A.

Definition ret {A} (a : A) : M A := fun w => (w, Returned a).

Definition bind {A B} (m : M A) (k : A -> M B) : M B := fun w =>
  match m w with
  | (w', Returned a) => k a w'
  | (w', Raised e) => (w', Raised e)
  end.

Definition raise {A} (e : error) : M A := fun w => (w, Raised e).

(** A call of a function that has no effect but may raise. *)
Definition call {A} (r : result A) : M A :=
  match r with
  | Ok a => ret a
  | Raise e => raise (Builtin e)
  end.

(** [cap.release()]. *)
Definition cap_release : M unit := fun w =>
  (mkWorld true (reported w), Returned tt).

(** [progress_callback(progress)]. *)
Definition callback (progress : Q) : M unit := fun w =>
  (mkWorld (released w) (reported w ++ [progress]), Returned tt).

(** [try: body except Exception as e: handler(e)]. *)
Definition try_except {A} (body : M A) (handler : error -> M A) : M A := fun w =>
  match body w with
  | (w', Returned a) => (w', Returned a)
  | (w', Raised e) => handler e w'
  end.

(** [try: body finally: final]. *)
Definition try_finally {A} (body : M A) (final : M unit) : M A := fun w =>
  match body w with
  | (w', r) =>
      match final w' with
      | (w'', Returned _) => (w'', r)
      | (w'', Raised e) => (w'', Raised e)
      end
  end.

Notation "x ⇐ m ; k" := (bind m (fun x => k))
  (at level 100, m at next level, right associativity, only parsing).

Section Extraction.
Context {Frame : Type}.
Variable cap : Z -> option Frame.
Variable _evaluate_frame_quality : Frame -> Q.
Variable _calculate_image_hash : Frame -> string.
Variable opened : bool.
Variable fps : Q.

(** The [while] loop over [current_time]; [room] is
    [max_frames_per_scene - len(sample_times)]. *)
Fixpoint sample_loop (room : nat) (scene : Scene) (duration interval : Q)
         (current_time : Q) : result (list Q) :=
  match room with
  | O => Ok []
  | S room' =>
      if Qlt_bool current_time duration then
        st ← getitem "start_time" (start_time scene);
        rest ← sample_loop room' scene duration interval
                           (current_time ⊕ interval);
        Ok ((st ⊕ current_time) :: rest)
      else Ok []
  end.

Definition sample_times (self : Extractor) (scene : Scene) (duration : Q)
  : result (list Q) :=
  sample_times ← sample_loop (max_frames_per_scene self) scene duration
                             (interval_of self) 0;
  if (length sample_times <? max_frames_per_scene self)%nat then
    st ← getitem "start_time" (start_time scene);
    st' ← getitem "start_time" (start_time scene);
    et ← getitem "end_time" (end_time scene);
    Ok (take (max_frames_per_scene self)
             [st; st' ⊕ duration ⊘ 2; et ⊖ b64 0.1])
  else Ok sample_times.

(** The loop that reads and scores one frame per sample time. *)
Fixpoint read_candidates (times : list Q) : list (@Candidate Frame) :=
  match times with
  | [] => []
  | time_sec :: rest =>
      let frame_number := py_int (time_sec ⊗ fps) in
      match cap frame_number with
      | None => read_candidates rest
      | Some frame =>
          mkCandidate time_sec frame_number frame (_evaluate_frame_quality frame)
          :: read_candidates rest
      end
  end.

Definition _extract_from_scene (self : Extractor) (scene : Scene)
  : result (list Keyframe) :=
  let scene_id := py_or (selected_id scene) (id scene) in
  let scene_index :=
    match index scene with Some i => Some i | None => scene_id end in
  _ ← getitem "start_frame" (start_frame scene);
  _ ← getitem "end_frame" (end_frame scene);
  duration ← getitem "duration" (duration scene);
  sample_times ← sample_times self scene duration;
  let candidates := read_candidates sample_times in
  candidates ← list_sort (fun x => Ok (cand_quality_score x)) true candidates;
  let selected := take (max_frames_per_scene self) candidates in
  selected ← list_sort (fun x => Ok (cand_time x)) false selected;
  Ok (imap (fun idx candidate =>
              mkKeyframe scene_id scene_index idx (cand_time candidate)
                         (cand_frame_number candidate)
                         (cand_quality_score candidate)
                         (Some (_calculate_image_hash (cand_frame candidate))))
           selected).

(** The loop of [extract] over [enumerate(scenes)]; [total] is
    [len(scenes)]. *)
Fixpoint extract_loop (self : Extractor) (progress_callback : bool)
         (total i : nat) (scenes : list Scene) (all_keyframes : list Keyframe)
  : M (list Keyframe) :=
  match scenes with
  | [] => ret all_keyframes
  | scene :: rest =>
      keyframes ⇐ call (_extract_from_scene self scene);
      let all_keyframes := all_keyframes ++ keyframes in
      _ ⇐ (if progress_callback then
             let progress := Qnat (i + 1) ⊘ Qnat total ⊗ 100 in
             callback progress
           else ret tt);
      extract_loop self progress_callback total (S i) rest all_keyframes
  end.

Definition extract (self : Extractor) (scenes : list Scene)
           (progress_callback : bool) : M (list Keyframe) :=
  try_except
    (_ ⇐ (if negb opened then raise (KeyframeExtractionError None)
          else ret tt);
     all_keyframes ⇐
       extract_loop self progress_callback (length scenes) 0 scenes [];
     _ ⇐ cap_release;
     ret all_keyframes)
    (fun e => raise (KeyframeExtractionError (Some e))).

(** The loop of [extract_custom] over [enumerate(time_points)]. *)
Fixpoint custom_loop (idx : nat) (time_points : list Q)
         (keyframes : list Keyframe) : M (list Keyframe) :=
  match time_points with
  | [] => ret keyframes
  | time_sec :: rest =>
      let frame_number := py_int (time_sec ⊗ fps) in
      match cap frame_number with
      | None => custom_loop (S idx) rest keyframes
      | Some frame =>
          let keyframe :=
            mkKeyframe None None idx time_sec frame_number
                       (_evaluate_frame_quality frame)
                       (Some (_calculate_image_hash frame)) in
          custom_loop (S idx) rest (keyframes ++ [keyframe])
      end
  end.

Definition extract_custom (time_points : list Q) : M (list Keyframe) :=
  try_finally (custom_loop 0 time_points []) cap_release.

End Extraction.
End KeyframeExtractor64.

(** ** The specification on floats *)

Module Spec64.
Import Binary64.
Import Spec.

(** The duration component, evaluated as Python evaluates it. *)
Definition duration_score (c : Q) (duration : Q) : Q :=
  if decide (5 <= duration /\ duration <= 15) then 100
  else if decide (duration < 5) then duration ⊘ 5 ⊗ 100
  else Qmax 0 (100 ⊖ (duration ⊖ 15) ⊗ c).

(** "round(0.4 * min(len(dialogue)/duration/8 * 100, 100)
          + 0.3 * min(subtitle_count * 20, 100) + 0.3 * duration_score, 2)",
    every operation being the binary64 one. *)
Definition dialogue_only_score (dialogue_len subtitle_count : nat) (duration : Q)
  : Q :=
  round64 (b64 0.4 ⊗ Qmin (Qnat dialogue_len ⊘ duration ⊘ 8 ⊗ 100) 100
           ⊕ b64 0.3 ⊗ Qmin (Qnat subtitle_count * 20) 100
           ⊕ b64 0.3 ⊗ duration_score 3 duration) 2.

(** The greedy scan as rules, the running total being a binary64 sum. *)
Inductive Scan (target : Q) : list Scene -> Q -> list Scene -> Q -> Prop :=
| scan_exhausted total :
    Scan target [] total [] total
| scan_accept_stop scene rest total :
    total ⊕ duration_of scene <= target ->
    target ⊗ b64 0.95 <= total ⊕ duration_of scene ->
    Scan target (scene :: rest) total [scene] (total ⊕ duration_of scene)
| scan_accept_continue scene rest total accepted total' :
    total ⊕ duration_of scene <= target ->
    total ⊕ duration_of scene < target ⊗ b64 0.95 ->
    Scan target rest (total ⊕ duration_of scene) accepted total' ->
    Scan target (scene :: rest) total (scene :: accepted) total'
| scan_skip_continue scene rest total accepted total' :
    target < total ⊕ duration_of scene ->
    total < target ⊗ b64 0.95 ->
    Scan target rest total accepted total' ->
    Scan target (scene :: rest) total accepted total'
| scan_skip_stop scene rest total :
    target < total ⊕ duration_of scene ->
    target ⊗ b64 0.95 <= total ->
    Scan target (scene :: rest) total [] total.

Definition scan_order (scenes : list Scene) (subtitles : list Subtitle)
  : list Scene :=
  sorted_by score_of true (HighlightSelector64.enrich_all subtitles scenes).

(** The total of a list of durations as the loop accumulates it:
    [total = 0], then [total += d] for each. *)
Definition running_total (durations : list Q) : Q := foldl add 0 durations.

(** "Input scenes are non-overlapping and sorted by [start_time] with
    positive durations", the duration being the length of the span. *)
Definition positive_span (s : Scene) : Prop :=
  exists st en d,
    start_time s = Some st /\ end_time s = Some en /\ duration s = Some d
    /\ 0 < d /\ d == en ⊖ st.

Definition chronological (scenes : list Scene) : Prop :=
  Forall positive_span scenes
  /\ StronglySorted (fun a b => end_of a <= start_of b) scenes.

End Spec64.

Module SpecKeyframes.
Import Binary64.
Import KeyframeExtractor.

(** The offset of the k-th step: [current_time] after [k] additions of
    [interval], starting from 0. *)
Fixpoint step_offset (interval : Q) (k : nat) : Q :=
  match k with
  | O => 0
  | S k' => step_offset interval k' ⊕ interval
  end.

(** "Generate candidate times starting at [start_time], stepping by
    [interval], until [max_frames] candidates are produced or the step
    exceeds [duration]", word for word: a step is used unless it exceeds
    the duration. *)
Fixpoint stepping_as_worded (room : nat) (st d interval step : Q) : list Q :=
  match room with
  | O => []
  | S room' =>
      if Qlt_bool d step then []
      else (st ⊕ step) :: stepping_as_worded room' st d interval (step ⊕ interval)
  end.

Definition sample_times_as_worded (max_frames : nat) (st en d interval : Q)
  : list Q :=
  let stepped := stepping_as_worded max_frames st d interval 0 in
  if (length stepped <? max_frames)%nat then
    take max_frames [st; st ⊕ d ⊘ 2; en ⊖ b64 0.1]
  else stepped.

(** The frame at a time can be read. *)
Definition readable {Frame} (cap : Z -> option Frame) (fps : Q) (t : Q) : Prop :=
  is_Some (cap (py_int (t ⊗ fps))).

(** A candidate is the frame read at its time, with its score. *)
Definition read_at {Frame} (cap : Z -> option Frame) (quality : Frame -> Q)
           (fps : Q) (c : @Candidate Frame) : Prop :=
  cand_frame_number c = py_int (cand_time c ⊗ fps)
  /\ cap (cand_frame_number c) = Some (cand_frame c)
  /\ cand_quality_score c = quality (cand_frame c).

End SpecKeyframes.

(** ** Sample data on floats *)

Module Samples64.
Import Binary64 KeyframeExtractor.

(** A scene given by its number, its start and its duration, each the
    binary64 number that Python reads from the decimal. *)
Definition timed_scene (i : Z) (st d : Q) : Scene :=
  mkScene (Some i) None (Some (b64 st)) (Some (b64 st ⊕ b64 d)) (Some (b64 d))
          None None None None None None.

(** Four scenes of 1.6, 0.6, 1.2 and 2.2 seconds. *)
Definition budget_scenes : list Scene :=
  [timed_scene 1 0 1.6; timed_scene 2 2 0.6; timed_scene 3 3 1.2;
   timed_scene 4 5 2.2].

(** A scene from 2140.0 to 2140.1, its duration the difference of the
    two. *)
Definition short_scene : Scene :=
  mkScene (Some 3%Z) None (Some 2140) (Some (b64 2140.1))
          (Some (b64 2140.1 ⊖ 2140)) (Some 53500%Z) (Some 53502%Z)
          None None None None.

(** A scene from 60.12 to 64.12, its duration the difference of the
    two, a little more than 4 seconds. *)
Definition late_scene : Scene :=
  mkScene (Some 5%Z) None (Some (b64 60.12)) (Some (b64 64.12))
          (Some (b64 64.12 ⊖ b64 60.12)) (Some 1503%Z) (Some 1603%Z)
          None None None None.

End Samples64.

(** * Properties *)

(** ** Comparisons and built-ins *)

Lemma Qlt_bool_iff (a b : Q) : Qlt_bool a b = true <-> a < b.
Proof.
  unfold Qlt_bool. rewrite negb_true_iff. split.
  - intros H. apply Qnot_le_lt. intros Hle.
    apply Qle_bool_iff in Hle. congruence.
  - intros H. destruct (Qle_bool b a) eqn:E; [|reflexivity].
    apply Qle_bool_iff in E. exfalso. exact (Qlt_not_le _ _ H E).
Qed.

Lemma Qle_bool_false (a b : Q) : Qle_bool a b = false <-> b < a.
Proof.
  rewrite <- Qlt_bool_iff. unfold Qlt_bool.
  destruct (Qle_bool a b); simpl; split; congruence.
Qed.

Lemma Qlt_bool_false (a b : Q) : Qlt_bool a b = false <-> b <= a.
Proof.
  unfold Qlt_bool. rewrite negb_false_iff. apply Qle_bool_iff.
Qed.

(** Case analysis on the boolean comparisons of a goal, leaving the
    corresponding facts about rationals in the context. *)
Ltac Qcases :=
  repeat match goal with
  | |- context [Qle_bool ?a ?b] =>
      let E := fresh "E" in
      destruct (Qle_bool a b) eqn:E;
      [apply Qle_bool_iff in E | apply Qle_bool_false in E]
  | |- context [Qlt_bool ?a ?b] =>
      let E := fresh "E" in
      destruct (Qlt_bool a b) eqn:E;
      [apply Qlt_bool_iff in E | apply Qlt_bool_false in E]
  end.

Lemma py_min_Qmin (a b : Q) : py_min a b == Qmin a b.
Proof.
  unfold py_min. Qcases.
  - symmetry. apply Q.min_r. lra.
  - symmetry. apply Q.min_l. lra.
Qed.

Lemma py_max_Qmax (a b : Q) : py_max a b == Qmax a b.
Proof.
  unfold py_max. Qcases.
  - symmetry. apply Q.max_r. lra.
  - symmetry. apply Q.max_l. lra.
Qed.

#[global] Instance py_min_proper : Proper (Qeq ==> Qeq ==> Qeq) py_min.
Proof.
  intros a a' Ha b b' Hb. rewrite !py_min_Qmin. now rewrite Ha, Hb.
Qed.

#[global] Instance round_half_even_proper : Proper (Qeq ==> eq) round_half_even.
Proof.
  intros a b Hab. unfold round_half_even.
  rewrite (Qfloor_comp _ _ Hab).
  assert (Hc : Qcompare (a - inject_Z (Qfloor b)) (1 # 2)
               = Qcompare (b - inject_Z (Qfloor b)) (1 # 2)).
  { apply Qcompare_comp; [now rewrite Hab | reflexivity]. }
  now rewrite Hc.
Qed.

Lemma py_round_proper (a b : Q) (n : nat) : a == b -> py_round a n = py_round b n.
Proof.
  intros Hab. unfold py_round.
  assert (H : a * inject_Z (10 ^ Z.of_nat n) == b * inject_Z (10 ^ Z.of_nat n))
    by now rewrite Hab.
  now rewrite (round_half_even_proper _ _ H).
Qed.

Lemma Qsum_app (l1 l2 : list Q) : Qsum (l1 ++ l2) == Qsum l1 + Qsum l2.
Proof.
  induction l1 as [|x l1 IH]; simpl.
  - lra.
  - unfold Qsum in *. simpl. rewrite IH. lra.
Qed.

(** ** The result monad *)

Lemma bind_Ok {A B} (f : A -> result B) (m : result A) (b : B) :
  (m ≫= f) = Ok b -> exists a, m = Ok a /\ f a = Ok b.
Proof. destruct m as [a|e]; simpl; [eauto | discriminate]. Qed.

Lemma traverse_Ok {A B} (f : A -> result B) (g : A -> B) (l : list A) :
  Forall (fun x => f x = Ok (g x)) l -> traverse f l = Ok (map g l).
Proof.
  induction 1 as [|x l Hx _ IH]; simpl; [reflexivity|].
  now rewrite Hx, IH.
Qed.

(** ** The stable sort *)

Section SortFacts.
Context {A : Type}.
Implicit Types (reverse : bool) (k : Q) (l : list (Q * A)).

Lemma goes_before_iff reverse k k' :
  goes_before reverse k k' = true <-> in_order reverse k k'.
Proof. destruct reverse; simpl; apply Qle_bool_iff. Qed.

Lemma in_order_total reverse k k' :
  goes_before reverse k k' = false -> in_order reverse k' k /\ ~ k == k'.
Proof.
  destruct reverse; simpl; intros H; apply Qle_bool_false in H; split; lra.
Qed.

Lemma in_order_trans reverse k1 k2 k3 :
  in_order reverse k1 k2 -> in_order reverse k2 k3 -> in_order reverse k1 k3.
Proof. destruct reverse; simpl; lra. Qed.

Lemma insert_keyed_perm reverse x l : insert_keyed reverse x l ≡ₚ x :: l.
Proof.
  induction l as [|y l IH]; simpl; [reflexivity|].
  destruct (goes_before reverse x.1 y.1); [reflexivity|].
  rewrite IH. apply Permutation_swap.
Qed.

Lemma sort_keyed_perm reverse l : sort_keyed reverse l ≡ₚ l.
Proof.
  induction l as [|x l IH]; simpl; [reflexivity|].
  rewrite insert_keyed_perm. now rewrite IH.
Qed.

Lemma insert_keyed_sorted reverse x l :
  StronglySorted (keys_in_order reverse) l ->
  StronglySorted (keys_in_order reverse) (insert_keyed reverse x l).
Proof.
  induction 1 as [|y l Hl IH Hy]; simpl.
  - repeat constructor.
  - destruct (goes_before reverse x.1 y.1) eqn:E.
    + apply goes_before_iff in E.
      constructor; [now constructor|].
      constructor; [exact E|].
      eapply Forall_impl; [exact Hy|].
      intros z Hz. exact (in_order_trans _ _ _ _ E Hz).
    + apply in_order_total in E as [E _].
      constructor; [exact IH|].
      rewrite insert_keyed_perm. now constructor.
Qed.

Lemma sort_keyed_sorted reverse l :
  StronglySorted (keys_in_order reverse) (sort_keyed reverse l).
Proof.
  induction l as [|x l IH]; simpl; [constructor|].
  now apply insert_keyed_sorted.
Qed.

(** Stability: inserting an element leaves it in front of the elements
    of equal key, and does not move the others. *)
Lemma insert_keyed_stable reverse k x l :
  filter (fun p => Qeq_bool p.1 k = true) (insert_keyed reverse x l)
  = filter (fun p => Qeq_bool p.1 k = true) (x :: l).
Proof.
  induction l as [|y l IH]; simpl; [reflexivity|].
  destruct (goes_before reverse x.1 y.1) eqn:E; [reflexivity|].
  apply in_order_total in E as [_ E].
  rewrite (filter_cons _ y), IH, !filter_cons.
  destruct (decide (Qeq_bool x.1 k = true)) as [Hx|Hx]; [|reflexivity].
  destruct (decide (Qeq_bool y.1 k = true)) as [Hy|Hy]; [|reflexivity].
  apply Qeq_bool_iff in Hx, Hy. exfalso. apply E. now rewrite Hx, Hy.
Qed.

Lemma sort_keyed_stable reverse k l :
  filter (fun p => Qeq_bool p.1 k = true) (sort_keyed reverse l)
  = filter (fun p => Qeq_bool p.1 k = true) l.
Proof.
  induction l as [|x l IH]; simpl; [reflexivity|].
  rewrite insert_keyed_stable, !filter_cons, IH. reflexivity.
Qed.

Variable key : A -> Q.

Lemma sorted_by_perm reverse (l : list A) : sorted_by key reverse l ≡ₚ l.
Proof.
  unfold sorted_by. rewrite sort_keyed_perm.
  induction l as [|x l IH]; simpl; [reflexivity|]. now rewrite IH.
Qed.

Lemma decorated_keys reverse (l : list A) :
  Forall (fun p => p.1 = key p.2)
         (sort_keyed reverse (map (fun x => (key x, x)) l)).
Proof.
  rewrite sort_keyed_perm. induction l; simpl; constructor; auto.
Qed.

Lemma sorted_by_sorted reverse (l : list A) :
  StronglySorted (fun x y => in_order reverse (key x) (key y))
                 (sorted_by key reverse l).
Proof.
  unfold sorted_by.
  pose proof (decorated_keys reverse l) as Hk.
  pose proof (sort_keyed_sorted reverse (map (fun x => (key x, x)) l)) as Hs.
  induction Hs as [|p l' Hl' IH Hp]; simpl; [constructor|].
  apply Forall_cons in Hk as [Hp1 Hk].
  constructor; [now apply IH|].
  clear IH Hl'. induction Hp as [|q l' Hq _ IH]; simpl; [constructor|].
  apply Forall_cons in Hk as [Hq1 Hk].
  constructor; [|now apply IH].
  unfold keys_in_order in Hq. now rewrite Hp1, Hq1 in Hq.
Qed.

Lemma filter_decorated (k : Q) (l : list (Q * A)) :
  Forall (fun p => p.1 = key p.2) l ->
  filter (fun x => Qeq_bool (key x) k = true) (map snd l)
  = map snd (filter (fun p => Qeq_bool p.1 k = true) l).
Proof.
  induction 1 as [|p l Hp _ IH]; simpl; [reflexivity|].
  rewrite !filter_cons, IH, <- Hp.
  destruct (decide (Qeq_bool p.1 k = true)); reflexivity.
Qed.

(** Elements of equal key keep the order they had in the input. *)
Lemma sorted_by_stable reverse (k : Q) (l : list A) :
  filter (fun x => Qeq_bool (key x) k = true) (sorted_by key reverse l)
  = filter (fun x => Qeq_bool (key x) k = true) l.
Proof.
  unfold sorted_by.
  rewrite filter_decorated by apply decorated_keys.
  rewrite sort_keyed_stable.
  rewrite <- filter_decorated by (induction l; simpl; constructor; auto).
  f_equal. induction l as [|x l IH]; simpl; [reflexivity|]. now rewrite IH.
Qed.

Lemma list_sort_sorted_by (keyf : A -> result Q) reverse (l : list A) :
  Forall (fun x => keyf x = Ok (key x)) l ->
  list_sort keyf reverse l = Ok (sorted_by key reverse l).
Proof.
  intros H. unfold list_sort, sorted_by.
  rewrite (traverse_Ok _ (fun x => (key x, x))); [reflexivity|].
  eapply Forall_impl; [exact H|].
  intros x Hx. unfold decorate. now rewrite Hx.
Qed.

End SortFacts.

(** ** Lists *)


Lemma map_perm {A B} (f : A -> B) (l l' : list A) :
  l ≡ₚ l' -> map f l ≡ₚ map f l'.
Proof. induction 1; simpl; econstructor; eauto. Qed.

Lemma filter_iff {A} (P P' : A -> Prop) `{!forall x, Decision (P x)}
      `{!forall x, Decision (P' x)} (l : list A) :
  (forall x, P x <-> P' x) -> filter P l = filter P' l.
Proof.
  intros Hiff. induction l as [|x l IH]; [reflexivity|].
  rewrite !filter_cons, IH.
  destruct (decide (P x)) as [Hx|Hx], (decide (P' x)) as [Hx'|Hx'];
    try reflexivity; exfalso; specialize (Hiff x); tauto.
Qed.

Lemma StronglySorted_map {A B} (f : A -> B) (R : B -> B -> Prop) (l : list A) :
  StronglySorted (fun a b => R (f a) (f b)) l <-> StronglySorted R (map f l).
Proof.
  induction l as [|x l IH]; simpl.
  - split; constructor.
  - rewrite !StronglySorted_cons, IH.
    assert (HF : Forall (fun b => R (f x) (f b)) l <-> Forall (R (f x)) (map f l)).
    { clear IH. induction l as [|y l IH]; simpl.
      - split; constructor.
      - rewrite !Forall_cons, IH. reflexivity. }
    now rewrite HF.
Qed.

Lemma StronglySorted_weaken {A} (R R' : A -> A -> Prop) (l : list A) :
  (forall a b, R a b -> R' a b) -> StronglySorted R l -> StronglySorted R' l.
Proof.
  intros HR. induction 1 as [|x l _ IH Hx]; constructor; [exact IH|].
  eapply Forall_impl; [exact Hx | auto].
Qed.

Lemma StronglySorted_submseteq {A} (R : A -> A -> Prop) (l k : list A) :
  (forall a b, R a b -> R b a) ->
  l ⊆+ k -> StronglySorted R k -> StronglySorted R l.
Proof.
  intros Hsym Hsub. induction Hsub as [|x l1 l2 Hsub IH|x y l|x l1 l2 Hsub IH|l1 l2 l3 _ IH1 _ IH2].
  - auto.
  - rewrite !StronglySorted_cons. intros [HF HS]. split; [|auto].
    apply Forall_forall. intros z Hz.
    rewrite Forall_forall in HF. apply HF.
    eapply elem_of_submseteq; eauto.
  - rewrite !StronglySorted_cons, !Forall_cons.
    intros [[Hxy Hx] [Hy HS]]. auto.
  - rewrite StronglySorted_cons. intros [_ HS]. auto.
  - auto.
Qed.

(** A list in non-decreasing order whose elements are pairwise different
    is in increasing order. *)
Lemma strictly_sorted (l : list Q) :
  StronglySorted Qle l -> StronglySorted (fun a b => ~ a == b) l ->
  StronglySorted Qlt l.
Proof.
  induction l as [|x l IH]; [constructor|].
  rewrite !StronglySorted_cons. intros [Hle Hs] [Hne Hd].
  split; [|auto].
  rewrite Forall_forall in *. intros y Hy.
  specialize (Hle y Hy). specialize (Hne y Hy).
  apply Qle_lteq in Hle as [Hlt|Heq]; [exact Hlt | contradiction].
Qed.

(** ** core/highlight_selector.py: enrichment and scoring *)

Module SelectorProofs.
Import HighlightSelector Spec.

Lemma overlaps_iff s e sub : overlaps s e sub = true <-> permissive_rule s e sub.
Proof.
  unfold overlaps, permissive_rule.
  rewrite !orb_true_iff, !andb_true_iff, !Qle_bool_iff, !Qlt_bool_iff.
  tauto.
Qed.

Lemma add_dialogue_inv scene subtitles scene' :
  _add_dialogue_to_scene scene subtitles = Ok scene' ->
  exists s e,
    start_time scene = Some s /\ end_time scene = Some e
    /\ scene' = set_subtitle_count
                  (set_dialogue scene
                     (String.concat " "
                        (map text (filter (fun sub => overlaps s e sub = true)
                                          subtitles))))
                  (length (filter (fun sub => overlaps s e sub = true) subtitles)).
Proof.
  unfold _add_dialogue_to_scene. intros H.
  destruct (start_time scene) as [s|] eqn:Es; [|discriminate].
  destruct (end_time scene) as [e|] eqn:Ee; [|discriminate].
  simpl in H. injection H as <-. eauto.
Qed.

Lemma calculate_is_Ok scene d :
  duration scene = Some d -> exists v, _calculate_highlight_score scene = Ok v.
Proof.
  intros H. unfold _calculate_highlight_score. rewrite H. simpl. eauto.
Qed.

Lemma enrich_inv subtitles scene scene' :
  enrich subtitles scene = Ok scene' ->
  enriched scene' /\ same_span scene' scene /\ id scene' = id scene.
Proof.
  unfold enrich. intros H.
  apply bind_Ok in H as (s1 & H1 & H).
  apply bind_Ok in H as (v & H2 & H). injection H as <-.
  apply add_dialogue_inv in H1 as (s & e & Hs & He & ->).
  unfold _calculate_highlight_score in H2.
  apply bind_Ok in H2 as (d & Hd & _).
  simpl in Hd. destruct (duration scene) as [d'|] eqn:Ed; [|discriminate].
  unfold enriched, same_span. simpl. rewrite Hs, He, Ed.
  repeat split; eauto.
Qed.

Lemma enrich_is_Ok subtitles scene :
  is_Some (start_time scene) -> is_Some (end_time scene) ->
  is_Some (duration scene) ->
  exists scene', enrich subtitles scene = Ok scene'.
Proof.
  intros [s Hs] [e He] [d Hd].
  unfold enrich, _add_dialogue_to_scene. rewrite Hs, He. simpl.
  unfold _calculate_highlight_score. simpl. rewrite Hd. simpl. eauto.
Qed.

Lemma enrich_all_enriched subtitles scenes :
  Forall enriched (enrich_all subtitles scenes).
Proof.
  induction scenes as [|scene rest IH]; simpl; [constructor|].
  destruct (enrich subtitles scene) as [scene'|] eqn:E; [|exact IH].
  constructor; [|exact IH]. now apply enrich_inv in E.
Qed.

Lemma enrich_all_from subtitles scenes :
  Forall (fun s => exists s0, s0 ∈ scenes /\ enrich subtitles s0 = Ok s)
         (enrich_all subtitles scenes).
Proof.
  induction scenes as [|scene rest IH]; simpl; [constructor|].
  assert (IH' : Forall (fun s => exists s0, s0 ∈ scene :: rest
                                      /\ enrich subtitles s0 = Ok s)
                       (enrich_all subtitles rest)).
  { eapply Forall_impl; [exact IH|].
    intros s (s0 & Hin & Hs). exists s0. split; [now right | exact Hs]. }
  destruct (enrich subtitles scene) as [scene'|] eqn:E; [|exact IH'].
  constructor; [|exact IH'].
  exists scene. split; [now left | exact E].
Qed.

(** The start times after enrichment are those of the input, in the
    input's order, without those of the skipped scenes. *)
Lemma enrich_all_starts subtitles scenes :
  map start_of (enrich_all subtitles scenes) `sublist_of` map start_of scenes.
Proof.
  induction scenes as [|scene rest IH]; simpl; [constructor|].
  destruct (enrich subtitles scene) as [scene'|] eqn:E.
  - apply enrich_inv in E as (_ & (Hs & _) & _).
    simpl. unfold start_of at 1 3. rewrite Hs. now apply sublist_skip.
  - now apply sublist_cons.
Qed.

(** The scenes whose enrichment raises leave no trace. *)
Lemma enrich_all_filter subtitles scenes :
  enrich_all subtitles scenes
  = enrich_all subtitles
      (filter (fun s => is_ok (enrich subtitles s) = true) scenes).
Proof.
  induction scenes as [|scene rest IH]; simpl; [reflexivity|].
  rewrite filter_cons.
  destruct (enrich subtitles scene) as [scene'|] eqn:E; simpl.
  - rewrite E. now rewrite IH.
  - exact IH.
Qed.

(** ** The greedy scan *)

Lemma Scan_sublist t l T acc T' : Scan t l T acc T' -> acc `sublist_of` l.
Proof.
  induction 1.
  - constructor.
  - apply sublist_skip, sublist_nil_l.
  - now apply sublist_skip.
  - now apply sublist_cons.
  - apply sublist_nil_l.
Qed.

Lemma Scan_sum t l T acc T' :
  Scan t l T acc T' -> T' == T + Qsum (map duration_of acc).
Proof.
  induction 1; unfold Qsum in *; simpl in *; try lra.
Qed.

Lemma Scan_budget t l T acc T' :
  Scan t l T acc T' -> T <= t \/ acc <> [] -> T' <= t.
Proof.
  induction 1; intros Hb.
  - destruct Hb as [Hb|Hb]; [exact Hb | congruence].
  - assumption.
  - apply IHScan. now left.
  - apply IHScan. destruct Hb as [Hb|Hb]; [lra | now right].
  - destruct Hb as [Hb|Hb]; [exact Hb | congruence].
Qed.

Lemma Scan_each_fits t l T acc T' :
  Scan t l T acc T' -> 0 <= T -> Forall (fun s => 0 <= duration_of s) l ->
  Forall (fun s => duration_of s <= t) acc.
Proof.
  induction 1; intros HT Hl; try apply Forall_cons in Hl as [Hs Hl].
  - constructor.
  - constructor; [lra | constructor].
  - constructor; [lra|]. apply IHScan; [lra | exact Hl].
  - now apply IHScan.
  - constructor.
Qed.

(** The rules leave no choice. *)
Lemma Scan_deterministic t l T acc1 T1 acc2 T2 :
  Scan t l T acc1 T1 -> Scan t l T acc2 T2 -> acc1 = acc2 /\ T1 = T2.
Proof.
  intros H1. revert acc2 T2.
  induction H1 as [| | ? ? ? ? ? ? ? ? IH | ? ? ? ? ? ? ? ? IH |];
    intros acc2 T2 H2; inversion H2; subst;
    try (exfalso; lra); auto;
    match goal with
    | H : Scan _ _ _ _ _ |- _ => destruct (IH _ _ H) as [-> ->]; auto
    end.
Qed.

Lemma greedy_Scan t l :
  Forall enriched l ->
  forall sel T sel' T',
    greedy t l sel T = Ok (sel', T') ->
    exists acc, sel' = sel ++ acc /\ Scan t l T acc T'.
Proof.
  induction 1 as [|s l Hs _ IH]; intros sel T sel' T' H; simpl in H.
  - injection H as <- <-. exists []. split; [now rewrite app_nil_r | constructor].
  - destruct Hs as (_ & _ & [d Hd] & _).
    assert (Hdur : duration_of s = d) by (unfold duration_of; now rewrite Hd).
    rewrite Hd in H. simpl in H.
    destruct (Qle_bool (T + d) t) eqn:Efit.
    + apply Qle_bool_iff in Efit.
      destruct (debug_fields s) as [[]|]; [|discriminate]. simpl in H.
      destruct (Qle_bool (t * 0.95) (T + d)) eqn:Estop.
      * apply Qle_bool_iff in Estop. injection H as <- <-.
        exists [s]. split; [reflexivity|]. rewrite <- Hdur in *.
        now constructor.
      * apply Qle_bool_false in Estop.
        apply IH in H as (acc & -> & HS).
        exists (s :: acc). split; [now rewrite <- app_assoc|].
        rewrite <- Hdur in *. now constructor.
    + apply Qle_bool_false in Efit. simpl in H.
      destruct (Qle_bool (t * 0.95) T) eqn:Estop.
      * apply Qle_bool_iff in Estop. injection H as <- <-.
        exists []. split; [now rewrite app_nil_r|].
        rewrite <- Hdur in *. now constructor.
      * apply Qle_bool_false in Estop.
        apply IH in H as (acc & -> & HS).
        exists acc. split; [reflexivity|].
        rewrite <- Hdur in *. now constructor.
Qed.

Lemma debug_fields_Ok s :
  enriched s -> is_Some (id s) -> debug_fields s = Ok tt.
Proof.
  intros ([? Hs] & [? He] & _ & [? Hh]) [? Hi].
  unfold debug_fields. now rewrite Hi, Hs, He, Hh.
Qed.

(** The scan raises only on an accepted scene without ['id']. *)
Lemma greedy_is_Ok t l :
  Forall enriched l -> Forall (fun s => is_Some (id s)) l ->
  forall sel T, exists st, greedy t l sel T = Ok st.
Proof.
  induction 1 as [|s l Hs _ IH]; intros Hid sel T; simpl; [eauto|].
  apply Forall_cons in Hid as [Hi Hid].
  rewrite (debug_fields_Ok s Hs Hi).
  destruct Hs as (_ & _ & [d Hd] & _). rewrite Hd. simpl.
  destruct (Qle_bool (T + d) t); simpl;
    match goal with |- context [if ?c then _ else _] => destruct c end;
    eauto.
Qed.

(** When nothing fits, nothing is accepted and nothing is raised. *)
Lemma greedy_none_fit t l :
  Forall enriched l -> Forall (fun s => t < duration_of s) l ->
  exists T, greedy t l [] 0 = Ok ([], T).
Proof.
  induction 1 as [|s l Hs _ IH]; intros Hl; simpl; [eauto|].
  apply Forall_cons in Hl as [Hbig Hl].
  destruct Hs as (_ & _ & [d Hd] & _).
  unfold duration_of in Hbig. rewrite Hd in *. simpl in *.
  assert (E : Qle_bool (0 + d) t = false) by (apply Qle_bool_false; lra).
  rewrite E. simpl.
  destruct (Qle_bool (t * 0.95) 0); [eauto | now apply IH].
Qed.

(** ** The selection as a whole *)

(** Fields other than ['selected_id'] are not touched by the numbering. *)
Lemma map_assign_selected_ids {B} (f : Scene -> B) (l : list Scene) :
  (forall s v, f (set_selected_id s v) = f s) ->
  map f (assign_selected_ids l) = map f l.
Proof.
  intros Hf. unfold assign_selected_ids.
  enough (H : forall g : nat -> Z,
             map f (imap (fun i scene => set_selected_id scene (g i)) l)
             = map f l) by apply (H (fun i => (Z.of_nat i + 1)%Z)).
  induction l as [|s l IH]; intros g; simpl; [reflexivity|].
  rewrite Hf. f_equal. apply (IH (fun i => g (S i))).
Qed.

Lemma assign_selected_ids_lookup (l : list Scene) (i : nat) (s : Scene) :
  assign_selected_ids l !! i = Some s ->
  exists s', l !! i = Some s' /\ s = set_selected_id s' (Z.of_nat i + 1).
Proof.
  unfold assign_selected_ids. rewrite list_lookup_imap.
  destruct (l !! i) as [s'|]; simpl; [|discriminate].
  intros [= <-]. eauto.
Qed.

Lemma elem_of_assign_selected_ids (l : list Scene) (s : Scene) :
  s ∈ assign_selected_ids l ->
  exists s' v, s' ∈ l /\ s = set_selected_id s' v.
Proof.
  intros H. apply list_elem_of_lookup in H as [i H].
  apply assign_selected_ids_lookup in H as (s' & H & ->).
  exists s', (Z.of_nat i + 1)%Z. split; [|reflexivity].
  apply list_elem_of_lookup. eauto.
Qed.

Lemma scan_order_enriched scenes subtitles :
  Forall enriched (scan_order scenes subtitles).
Proof.
  unfold scan_order. rewrite sorted_by_perm. apply enrich_all_enriched.
Qed.

Lemma select_highlights_eq scenes subtitles target :
  select_highlights scenes subtitles target
  = (st ← greedy target (scan_order scenes subtitles) [] 0;
     Ok (assign_selected_ids (sorted_by start_of false st.1))).
Proof.
  unfold select_highlights, scan_order.
  assert (Hgen : forall E, Forall enriched E ->
            select_enriched E target
            = (st ← greedy target (sorted_by score_of true E) [] 0;
               Ok (assign_selected_ids (sorted_by start_of false st.1)))).
  { intros E HE. destruct E as [|s E]; [reflexivity|].
    unfold select_enriched.
    rewrite (list_sort_sorted_by score_of).
    2:{ eapply Forall_impl; [exact HE|].
        intros x (_ & _ & _ & [v Hv]). unfold score_of. now rewrite Hv. }
    simpl.
    destruct (greedy target (sorted_by score_of true (s :: E)) [] 0)
      as [[sel T]|e] eqn:Eg; [|reflexivity].
    simpl.
    rewrite (list_sort_sorted_by start_of); [reflexivity|].
    apply greedy_Scan in Eg as (acc & -> & HS).
    2:{ rewrite sorted_by_perm. exact HE. }
    simpl. apply Scan_sublist in HS.
    assert (Hacc : Forall enriched acc).
    { apply Forall_forall. intros x Hx.
      eapply elem_of_sublist in Hx; [|exact HS].
      rewrite sorted_by_perm in Hx.
      rewrite Forall_forall in HE. now apply HE. }
    eapply Forall_impl; [exact Hacc|].
    intros x ([v Hv] & _). unfold start_of. now rewrite Hv. }
  destruct scenes as [|s scenes]; [reflexivity|].
  apply Hgen, enrich_all_enriched.
Qed.

(** What a returned selection is made of. *)
Lemma select_highlights_inv scenes subtitles target selected :
  select_highlights scenes subtitles target = Ok selected ->
  exists accepted total,
    Scan target (scan_order scenes subtitles) 0 accepted total
    /\ selected = assign_selected_ids (sorted_by start_of false accepted).
Proof.
  rewrite select_highlights_eq. intros H.
  apply bind_Ok in H as ([sel T] & Hg & H). injection H as <-.
  apply greedy_Scan in Hg as (acc & -> & HS); [|apply scan_order_enriched].
  eauto.
Qed.

(** Every selected scene is the enrichment of an input scene, with its
    number. *)
Lemma selected_from scenes subtitles target selected s :
  select_highlights scenes subtitles target = Ok selected ->
  s ∈ selected ->
  exists s0 s' v,
    s0 ∈ scenes /\ enrich subtitles s0 = Ok s' /\ s = set_selected_id s' v.
Proof.
  intros H Hs.
  apply select_highlights_inv in H as (acc & T & HS & ->).
  apply elem_of_assign_selected_ids in Hs as (s' & v & Hs' & ->).
  rewrite sorted_by_perm in Hs'.
  eapply elem_of_sublist in Hs'; [|exact (Scan_sublist _ _ _ _ _ HS)].
  unfold scan_order in Hs'. rewrite sorted_by_perm in Hs'.
  pose proof (enrich_all_from subtitles scenes) as Hfrom.
  rewrite Forall_forall in Hfrom.
  destruct (Hfrom _ Hs') as (s0 & Hin & He).
  exists s0, s', v. auto.
Qed.

Lemma select_highlights_none_fit scenes subtitles target :
  (forall s0 d, s0 ∈ scenes -> duration s0 = Some d -> target < d) ->
  select_highlights scenes subtitles target = Ok [].
Proof.
  intros Hbig. rewrite select_highlights_eq.
  destruct (greedy_none_fit target (scan_order scenes subtitles)) as [T HT].
  - apply scan_order_enriched.
  - apply Forall_forall. intros s Hs.
    unfold scan_order in Hs. rewrite sorted_by_perm in Hs.
    pose proof (enrich_all_from subtitles scenes) as Hfrom.
    rewrite Forall_forall in Hfrom.
    destruct (Hfrom _ Hs) as (s0 & Hin & He).
    apply enrich_inv in He as ((_ & _ & [d Hd] & _) & (_ & _ & Hdur) & _).
    unfold duration_of. rewrite Hd. simpl.
    apply (Hbig s0 d Hin). now rewrite <- Hdur.
  - rewrite HT. reflexivity.
Qed.

Lemma select_highlights_is_Ok scenes subtitles target :
  (forall s0, s0 ∈ scenes -> is_Some (id s0)) ->
  exists selected, select_highlights scenes subtitles target = Ok selected.
Proof.
  intros Hid. rewrite select_highlights_eq.
  destruct (greedy_is_Ok target (scan_order scenes subtitles)) with (sel := @nil Scene) (T := 0)
    as [st Hst].
  - apply scan_order_enriched.
  - apply Forall_forall. intros s Hs.
    unfold scan_order in Hs. rewrite sorted_by_perm in Hs.
    pose proof (enrich_all_from subtitles scenes) as Hfrom.
    rewrite Forall_forall in Hfrom.
    destruct (Hfrom _ Hs) as (s0 & Hin & He).
    apply enrich_inv in He as (_ & _ & ->). now apply Hid.
  - rewrite Hst. simpl. eauto.
Qed.

(** ** Chronological output *)

Lemma chronological_starts scenes :
  chronological scenes -> StronglySorted Qlt (map start_of scenes).
Proof.
  intros [Hpos Hs]. apply (StronglySorted_map start_of Qlt).
  induction Hs as [|s l Hl IH Hs]; [constructor|].
  apply Forall_cons in Hpos as [Hp Hpos].
  constructor; [auto|].
  eapply Forall_impl; [exact Hs|].
  intros b Hb. simpl in Hb.
  destruct Hp as (st & en & d & Hst & Hen & _ & Hd & Hspan).
  unfold start_of, end_of in *. rewrite Hst. rewrite Hen in Hb. simpl in *.
  lra.
Qed.

(** The start times of a selection are among those of the input. *)
Lemma selected_starts scenes subtitles target selected :
  select_highlights scenes subtitles target = Ok selected ->
  map start_of selected ⊆+ map start_of scenes.
Proof.
  intros H. apply select_highlights_inv in H as (acc & T & HS & ->).
  rewrite map_assign_selected_ids by reflexivity.
  rewrite (map_perm _ _ _ (sorted_by_perm start_of false acc)).
  transitivity (map start_of (scan_order scenes subtitles)).
  - apply sublist_submseteq.
    apply (fmap_sublist start_of), (Scan_sublist _ _ _ _ _ HS).
  - unfold scan_order.
    rewrite (map_perm _ _ _ (sorted_by_perm score_of true _)).
    apply sublist_submseteq, enrich_all_starts.
Qed.

(** ** The dialogue-only score *)

Lemma duration_score_spec d :
  HighlightSelector.duration_score d == Spec.duration_score 3 d.
Proof.
  unfold HighlightSelector.duration_score, Spec.duration_score.
  destruct (decide (5 <= d /\ d <= 15)) as [[H1 H2]|Hn].
  - apply Qle_bool_iff in H1, H2. now rewrite H1, H2.
  - destruct (Qle_bool 5 d) eqn:E1; simpl.
    + destruct (Qle_bool d 15) eqn:E2; simpl.
      * apply Qle_bool_iff in E1, E2. tauto.
      * apply Qle_bool_iff in E1. apply Qle_bool_false in E2.
        destruct (decide (d < 5)) as [H|H]; [lra|].
        assert (E : Qlt_bool d 5 = false) by (apply Qlt_bool_false; lra).
        rewrite E. apply py_max_Qmax.
    + apply Qle_bool_false in E1.
      destruct (decide (d < 5)) as [H|H]; [|lra].
      apply Qlt_bool_iff in H. now rewrite H.
Qed.

Lemma calculate_highlight_score_spec scene d :
  duration scene = Some d -> 0 < d ->
  _calculate_highlight_score scene
  = Ok (dialogue_only_score
          (String.length (default ""%string (dialogue scene)))
          (default 0%nat (subtitle_count scene)) d).
Proof.
  intros Hd Hpos.
  unfold _calculate_highlight_score, dialogue_only_score.
  rewrite Hd. simpl. f_equal. apply py_round_proper.
  rewrite duration_score_spec.
  assert (Hlt : Qlt_bool 0 d = true) by now apply Qlt_bool_iff.
  rewrite Hlt.
  set (len := String.length (default ""%string (dialogue scene))).
  set (n := default 0%nat (subtitle_count scene)).
  assert (H1 : (if (0 <? len)%nat
                then py_min (Qnat len / d / 8 * 100) 100 else 0)
               == Qmin (Qnat len / d / 8 * 100) 100).
  { destruct len as [|len]; simpl.
    - assert (E : Qnat 0 / d / 8 * 100 == 0) by (unfold Qnat, Qdiv; simpl; ring).
      rewrite E. symmetry. apply Q.min_l. lra.
    - apply py_min_Qmin. }
  assert (H2 : (if (0 <? n)%nat then py_min (Qnat n * 20) 100 else 0)
               == Qmin (Qnat n * 20) 100).
  { destruct n as [|n]; simpl.
    - assert (E : Qnat 0 * 20 == 0) by (unfold Qnat; simpl; ring).
      rewrite E. symmetry. apply Q.min_l. lra.
    - apply py_min_Qmin. }
  rewrite H1, H2. ring.
Qed.

(** ** The end-to-end scenario *)

Lemma overlapping_filter s e (subtitles : list Subtitle) :
  filter (fun sub => overlaps s e sub = true) subtitles
  = filter (permissive_rule s e) subtitles.
Proof. apply filter_iff. intros sub. apply overlaps_iff. Qed.

Lemma enrich_eq subtitles scene s e d :
  start_time scene = Some s -> end_time scene = Some e ->
  duration scene = Some d -> 0 < d ->
  enrich subtitles scene
  = Ok (set_highlight_score
          (set_subtitle_count
             (set_dialogue scene (dialogue_of (permissive_rule s e) subtitles))
             (length (filter (permissive_rule s e) subtitles)))
          (dialogue_only_score
             (String.length (dialogue_of (permissive_rule s e) subtitles))
             (length (filter (permissive_rule s e) subtitles)) d)).
Proof.
  intros Hs He Hd Hpos. unfold enrich, _add_dialogue_to_scene.
  rewrite Hs, He. simpl. rewrite overlapping_filter.
  rewrite (calculate_highlight_score_spec _ d); [reflexivity | exact Hd | exact Hpos].
Qed.

Lemma enrich_all_cons_Ok subtitles scene scene' rest :
  enrich subtitles scene = Ok scene' ->
  enrich_all subtitles (scene :: rest) = scene' :: enrich_all subtitles rest.
Proof. intros H. simpl. now rewrite H. Qed.

(** C5 (end-to-end scenario), with the totals the code computes.  Whatever
    the subtitles, provided they give scene 1 a dialogue of 80 characters
    from 4 subtitles and give scene 2 none: scene 1 scores 94 (dialogue
    contribution 40, subtitle contribution 24, duration contribution 30),
    scene 2 scores 30, and the selection for a target of 8 seconds is
    exactly scene 1, numbered 1, of total duration 8. *)
Theorem end_to_end_scenario subtitles :
  String.length (dialogue_of (permissive_rule 0 8) subtitles) = 80%nat ->
  length (filter (permissive_rule 0 8) subtitles) = 4%nat ->
  filter (permissive_rule 8 20) subtitles = [] ->
  exists e1 e2 v1 v2,
    enrich_all subtitles [scenario_scene1; scenario_scene2] = [e1; e2]
    /\ same_span e1 scenario_scene1 /\ id e1 = Some 1%Z
    /\ same_span e2 scenario_scene2 /\ id e2 = Some 2%Z
    /\ highlight_score e1 = Some v1 /\ v1 == 94
    /\ v1 = dialogue_only_score 80 4 8
    /\ 0.4 * Qmin (Qnat 80 / 8 / 8 * 100) 100 == 40
    /\ 0.3 * Qmin (Qnat 4 * 20) 100 == 24
    /\ 0.3 * Spec.duration_score 3 8 == 30
    /\ highlight_score e2 = Some v2 /\ v2 == 30
    /\ select_highlights [scenario_scene1; scenario_scene2] subtitles 8
       = Ok [set_selected_id e1 1]
    /\ Qsum (map duration_of [set_selected_id e1 1]) == 8.
Proof.
  intros Hlen Hcount Hnone.
  pose proof (enrich_eq subtitles scenario_scene1 0 8 8
                eq_refl eq_refl eq_refl eq_refl) as E1.
  pose proof (enrich_eq subtitles scenario_scene2 8 20 12
                eq_refl eq_refl eq_refl eq_refl) as E2.
  rewrite Hlen, Hcount in E1.
  unfold dialogue_of in E2. rewrite Hnone in E2. simpl in E2.
  assert (Hall : enrich_all subtitles [scenario_scene1; scenario_scene2]
                 = [_; _])
    by (rewrite (enrich_all_cons_Ok _ _ _ _ E1), (enrich_all_cons_Ok _ _ _ _ E2);
        reflexivity).
  eexists _, _, _, _.
  split; [exact Hall|].
  do 12 (split; [solve [reflexivity | repeat split; reflexivity]|]).
  split; [|reflexivity].
  rewrite select_highlights_eq. unfold scan_order. rewrite Hall. reflexivity.
Qed.

(** The score of scene 1 of the scenario, scored as the record stands
    (80 characters, 4 subtitles, 8 seconds), is not 70. *)
Lemma scenario_score_counterexample :
  ~ (exists v, _calculate_highlight_score scenario_scene1 = Ok v /\ v == 70).
Proof.
  intros (v & Hv & H70). vm_compute in Hv. injection Hv as <-.
  vm_compute in H70. discriminate H70.
Qed.

Lemma end_to_end_scenario_witness :
  exists e1 e2 v1 v2,
    enrich_all scenario_subtitles [scenario_scene1; scenario_scene2] = [e1; e2]
    /\ same_span e1 scenario_scene1 /\ id e1 = Some 1%Z
    /\ same_span e2 scenario_scene2 /\ id e2 = Some 2%Z
    /\ highlight_score e1 = Some v1 /\ v1 == 94
    /\ v1 = dialogue_only_score 80 4 8
    /\ 0.4 * Qmin (Qnat 80 / 8 / 8 * 100) 100 == 40
    /\ 0.3 * Qmin (Qnat 4 * 20) 100 == 24
    /\ 0.3 * Spec.duration_score 3 8 == 30
    /\ highlight_score e2 = Some v2 /\ v2 == 30
    /\ select_highlights [scenario_scene1; scenario_scene2] scenario_subtitles 8
       = Ok [set_selected_id e1 1]
    /\ Qsum (map duration_of [set_selected_id e1 1]) == 8.
Proof.
  apply (end_to_end_scenario scenario_subtitles); reflexivity.
Defined.

(** ** Failure policy *)

Lemma select_skips_failures scenes subtitles target :
  select_highlights scenes subtitles target
  = select_highlights
      (filter (fun s => is_ok (enrich subtitles s) = true) scenes)
      subtitles target.
Proof.
  rewrite !select_highlights_eq. unfold scan_order.
  now rewrite <- enrich_all_filter.
Qed.

Lemma enrich_with_policy_skip subtitles scenes :
  enrich_with_policy SkipAndContinue subtitles scenes
  = Ok (enrich_all subtitles scenes).
Proof.
  induction scenes as [|scene rest IH]; simpl; [reflexivity|].
  destruct (enrich subtitles scene); rewrite IH; reflexivity.
Qed.

(** C9 as the code has it: there is one policy.  A scene whose
    enrichment or scoring raises is skipped and the remaining scenes are
    processed: the result is that of the skip-and-continue policy, and it
    is the result for the input without the failing scenes.  The entry
    point takes no strategy parameter. *)
Theorem enrichment_failures_are_skipped scenes subtitles target_duration :
  select_highlights scenes subtitles target_duration
  = select_with_policy SkipAndContinue scenes subtitles target_duration
  /\ select_highlights scenes subtitles target_duration
     = select_highlights
         (filter (fun s => is_ok (enrich subtitles s) = true) scenes)
         subtitles target_duration.
Proof.
  split; [|apply select_skips_failures].
  unfold select_highlights, select_with_policy.
  destruct scenes as [|s scenes]; [reflexivity|].
  now rewrite enrich_with_policy_skip.
Qed.

(** The abort policy is not available: with a failing scene in the input
    the entry point returns the selection over the other scenes, where
    aborting would raise. *)
Lemma abort_policy_counterexample :
  select_highlights [scene_without_duration; scenario_scene1] scenario_subtitles 8
  <> select_with_policy AbortPipeline
       [scene_without_duration; scenario_scene1] scenario_subtitles 8.
Proof. vm_compute. discriminate. Qed.

(** ** The theorems at the scenario of section 8 *)

Lemma scenario_scenes_elem (P : Scene -> Prop) :
  P scenario_scene1 -> P scenario_scene2 ->
  forall s0, s0 ∈ [scenario_scene1; scenario_scene2] -> P s0.
Proof.
  intros H1 H2 s0 Hin.
  apply elem_of_cons in Hin as [->|Hin]; [exact H1|].
  apply elem_of_cons in Hin as [->|Hin]; [exact H2|].
  now apply elem_of_nil in Hin.
Defined.

(** A scene that would overflow the budget is passed over and the scan
    goes on: the first scene (12 seconds, the higher score) does not fit
    a target of 8 seconds, the second one (8 seconds) is selected. *)
Example scan_continues_past_overflow :
  exists y,
    select_highlights
      [mkScene (Some 1%Z) None (Some 0) (Some 12) (Some 12) None None None None
               None None;
       mkScene (Some 2%Z) None (Some 12) (Some 20) (Some 8) None None None None
               None None]
      scenario_subtitles 8
    = Ok [y]
    /\ id y = Some 2%Z /\ selected_id y = Some 1%Z.
Proof. eexists. vm_compute. repeat split. Qed.

(** The scan stops once 95% of the target is reached: after the first
    scene (9.6 of 10 seconds) the second one (0.4 seconds), which would
    still fit, is not looked at. *)
Example scan_stops_at_95_percent :
  exists x,
    select_highlights
      [mkScene (Some 1%Z) None (Some 0) (Some 9.6) (Some 9.6) None None None None
               None None;
       mkScene (Some 2%Z) None (Some 9.6) (Some 10) (Some 0.4) None None None
               None None None]
      scenario_subtitles 10
    = Ok [x]
    /\ id x = Some 1%Z /\ 9.6 + 0.4 <= 10.
Proof. eexists. vm_compute. repeat split; discriminate. Qed.

(** Scenes of equal score are scanned in input order: of two silent
    scenes of 10 seconds each, with room for one, the first is selected. *)
Example equal_scores_keep_input_order :
  exists x,
    select_highlights
      [mkScene (Some 1%Z) None (Some 0) (Some 10) (Some 10) None None None None
               None None;
       mkScene (Some 2%Z) None (Some 10) (Some 20) (Some 10) None None None None
               None None]
      [] 10
    = Ok [x]
    /\ id x = Some 1%Z.
Proof. eexists. vm_compute. repeat split. Qed.

End SelectorProofs.

(** ** core/multimodal_fusion.py *)

Module FusionProofs.
Import MultimodalFusion Spec.

Lemma inside_iff s e sub : inside s e sub = true <-> contained s e sub.
Proof.
  unfold inside, contained. now rewrite andb_true_iff, !Qle_bool_iff.
Qed.

Lemma get_dialogue_in_range_spec subtitles s e :
  _get_dialogue_in_range subtitles s e = dialogue_of (contained s e) subtitles.
Proof.
  unfold _get_dialogue_in_range, dialogue_of. do 2 f_equal.
  apply filter_iff. intros sub. apply inside_iff.
Qed.

(** A well-formed span inside the scene meets the permissive rule. *)
Lemma contained_permissive s e sub :
  start sub <= end_ sub -> contained s e sub -> permissive_rule s e sub.
Proof.
  unfold contained, permissive_rule. intros Hsub [H1 H2].
  destruct (Qlt_le_dec (start sub) e) as [Hlt|Hge]; [now left|].
  destruct (Qlt_le_dec s (end_ sub)) as [Hlt|Hge']; [right; now left|].
  right; right. split; lra.
Qed.

(** A span that covers the scene and more meets the permissive rule
    without being inside the scene. *)
Lemma permissive_not_contained s e :
  let sub := mkSubtitle (s - 1) (e + 1) "" in
  permissive_rule s e sub /\ ~ contained s e sub.
Proof.
  unfold permissive_rule, contained. simpl. split.
  - right; right. split; lra.
  - intros [H _]. lra.
Qed.

Lemma fuse_scene_dialogue {Face} vision_results ocr_results
      (face_results : list (@FaceItem Face)) subtitles scene_ s e fs :
  start_time scene_ = Some s -> end_time scene_ = Some e ->
  fuse_scene vision_results ocr_results face_results subtitles scene_ = Ok fs ->
  dialogue (scene fs) = Some (_get_dialogue_in_range subtitles s e).
Proof.
  intros Hs He. unfold fuse_scene. rewrite Hs, He. simpl.
  intros H. apply bind_Ok in H as (v & _ & H). injection H as <-.
  reflexivity.
Qed.

(** C3, and where the code departs from it.  For a scene [[s,e)]:
    - the dialogue-only path ([_add_dialogue_to_scene]) selects exactly
      the subtitles that meet the permissive intersection rule and joins
      their texts with spaces in input order (and counts them), as the
      claim says;
    - the fusion path ([_get_dialogue_in_range]) does not: it selects
      exactly the subtitles that lie inside the scene, [s <= sub.start]
      and [sub.end <= e], joined the same way;
    - so for the scene from 0 to 8 and the single subtitle from 5 to 10
      with the text "x", which starts in the scene and meets the rule,
      the dialogue-only path gives the dialogue "x" and the fusion path,
      [_get_dialogue_in_range] as well as the scene that
      [fuse_scene] builds, gives the empty dialogue. *)
Theorem fusion_dialogue_divergence :
  (forall subtitles scene_ s e,
      start_time scene_ = Some s -> end_time scene_ = Some e ->
      exists scene',
        HighlightSelector._add_dialogue_to_scene scene_ subtitles = Ok scene'
        /\ dialogue scene' = Some (dialogue_of (permissive_rule s e) subtitles)
        /\ subtitle_count scene'
           = Some (length (filter (permissive_rule s e) subtitles)))
  /\ (forall subtitles s e,
         _get_dialogue_in_range subtitles s e
         = dialogue_of (contained s e) subtitles)
  /\ (let sub := mkSubtitle 5 10 "x" in
      permissive_rule 0 8 sub
      /\ dialogue_of (permissive_rule 0 8) [sub] = "x"%string
      /\ (exists scene',
             HighlightSelector._add_dialogue_to_scene scenario_scene1 [sub]
             = Ok scene'
             /\ dialogue scene' = Some "x"%string)
      /\ _get_dialogue_in_range [sub] 0 8 = ""%string
      /\ exists fs,
           fuse_scene (Face := unit) [] [] [] [sub] scenario_scene1 = Ok fs
           /\ dialogue (scene fs) = Some ""%string).
Proof.
  split; [|split; [exact get_dialogue_in_range_spec|]].
  - intros subtitles scene_ s e Hs He.
    unfold HighlightSelector._add_dialogue_to_scene. rewrite Hs, He. simpl.
    eexists. split; [reflexivity|]. simpl.
    rewrite SelectorProofs.overlapping_filter. split; reflexivity.
  - simpl. split; [left; split; [discriminate | reflexivity]|].
    split; [vm_compute; reflexivity|].
    split; [eexists; split; vm_compute; reflexivity|].
    split; [vm_compute; reflexivity|].
    eexists. split; vm_compute; reflexivity.
Qed.

Lemma fusion_duration_score_spec d :
  MultimodalFusion.duration_score d == Spec.duration_score 5 d.
Proof.
  unfold MultimodalFusion.duration_score, Spec.duration_score.
  destruct (decide (5 <= d /\ d <= 15)) as [[H1 H2]|Hn].
  - apply Qle_bool_iff in H1, H2. now rewrite H1, H2.
  - destruct (Qle_bool 5 d) eqn:E1; simpl.
    + destruct (Qle_bool d 15) eqn:E2; simpl.
      * apply Qle_bool_iff in E1, E2. tauto.
      * apply Qle_bool_iff in E1. apply Qle_bool_false in E2.
        destruct (decide (d < 5)) as [H|H]; [lra|].
        assert (E : Qlt_bool d 5 = false) by (apply Qlt_bool_false; lra).
        rewrite E. apply py_max_Qmax.
    + apply Qle_bool_false in E1.
      destruct (decide (d < 5)) as [H|H]; [|lra].
      apply Qlt_bool_iff in H. now rewrite H.
Qed.

(** C6 (multimodal score).  For a fused scene of positive duration the
    score is the unrounded weighted sum of the specification: dialogue
    density over 10 characters per second (weight 0.3), motion (0.25),
    faces (0.2), OCR texts (0.15) and the duration component with the
    5-15 second breakpoints and falloff 5 (0.1). *)
Theorem multimodal_score_formula {Face} (fs : @FusedScene Face) d :
  duration (scene fs) = Some d -> 0 < d ->
  (exists v,
      _calculate_highlight_score fs = Ok v
      /\ v == multimodal_score
                (String.length (default ""%string (dialogue (scene fs))))
                (default 0 (motion_score
                              (default (mkVisual None None None) (visual fs))))
                (length (default [] (faces fs)))
                (length (default [] (texts (default (mkOcr None) (ocr fs)))))
                d)
  /\ (forall d', MultimodalFusion.duration_score d' == Spec.duration_score 5 d').
Proof.
  intros Hd Hpos. split; [|exact fusion_duration_score_spec].
  unfold _calculate_highlight_score, multimodal_score, py_div.
  rewrite Hd. simpl.
  assert (E : Qeq_bool d 0 = false).
  { destruct (Qeq_bool d 0) eqn:E; [|reflexivity].
    apply Qeq_bool_iff in E. lra. }
  rewrite E. simpl. eexists. split; [reflexivity|].
  rewrite fusion_duration_score_spec, !py_min_Qmin. ring.
Qed.

Lemma multimodal_score_formula_witness :
  exists v,
    _calculate_highlight_score
      (mkFusedScene scenario_scene1 None None (Some [tt; tt])) = Ok v
    /\ v == multimodal_score 80 0 2 0 8.
Proof.
  exact (proj1 (multimodal_score_formula
                  (mkFusedScene scenario_scene1 None None (Some [tt; tt]))
                  8 eq_refl eq_refl)).
Defined.

End FusionProofs.

(** ** core/keyframe_extractor.py: duplicate removal *)

Module KeyframeProofs.
Import KeyframeExtractor Spec.

Lemma dedup_loop_acc keyframes unique_frames seen_hashes :
  dedup_loop keyframes unique_frames seen_hashes
  = unique_frames ++ dedup_loop keyframes [] seen_hashes.
Proof.
  revert unique_frames seen_hashes.
  induction keyframes as [|kf rest IH]; intros acc seen; simpl.
  - now rewrite app_nil_r.
  - destruct (negb (truthy (image_hash kf)) || not_in (image_hash kf) seen).
    + rewrite (IH (acc ++ [kf])), (IH [kf]). now rewrite <- app_assoc.
    + apply IH.
Qed.

(** One step of the loop, on the frames kept from here on. *)
Lemma dedup_loop_cons kf rest seen_hashes :
  dedup_loop (kf :: rest) [] seen_hashes
  = match image_hash kf with
    | Some (String a h) =>
        if decide (String a h ∈ seen_hashes)
        then dedup_loop rest [] seen_hashes
        else kf :: dedup_loop rest [] ({[String a h]} ∪ seen_hashes)
    | _ => kf :: dedup_loop rest [] seen_hashes
    end.
Proof.
  simpl. destruct (image_hash kf) as [[|a h]|]; simpl;
    try (rewrite (dedup_loop_acc rest [kf]); reflexivity).
  destruct (decide (String a h ∈ seen_hashes)) as [Hin|Hin].
  - rewrite bool_decide_eq_false_2 by tauto. reflexivity.
  - rewrite bool_decide_eq_true_2 by exact Hin.
    rewrite (dedup_loop_acc rest [kf]). reflexivity.
Qed.

Lemma remove_duplicates_eq keyframes similarity_threshold :
  remove_duplicates keyframes similarity_threshold = dedup_loop keyframes [] ∅.
Proof. destruct keyframes; reflexivity. Qed.

Lemma dedup_loop_sublist keyframes seen_hashes :
  dedup_loop keyframes [] seen_hashes `sublist_of` keyframes.
Proof.
  revert seen_hashes. induction keyframes as [|kf rest IH]; intros seen.
  - constructor.
  - rewrite dedup_loop_cons.
    destruct (image_hash kf) as [[|a h]|]; try (apply sublist_skip, IH).
    destruct (decide (String a h ∈ seen)).
    + apply sublist_cons, IH.
    + apply sublist_skip, IH.
Qed.

(** Of the keyframes with a given non-empty hash, the loop keeps the
    first one, unless the hash was seen before. *)
Lemma dedup_loop_first h keyframes seen_hashes :
  h <> ""%string ->
  filter (fun kf => image_hash kf = Some h) (dedup_loop keyframes [] seen_hashes)
  = if decide (h ∈ seen_hashes) then []
    else take 1 (filter (fun kf => image_hash kf = Some h) keyframes).
Proof.
  intros Hh. revert seen_hashes.
  induction keyframes as [|kf rest IH]; intros seen.
  - simpl. now destruct (decide (h ∈ seen)).
  - rewrite dedup_loop_cons, (filter_cons _ kf rest).
    destruct (image_hash kf) as [[|a h']|] eqn:E;
      repeat case_decide; rewrite ?filter_cons, ?E, ?IH;
      repeat case_decide; simplify_eq; try reflexivity; set_solver.
Qed.

(** The hashes of the kept keyframes that have one are pairwise
    different, and none of them was seen before. *)
Lemma dedup_loop_NoDup keyframes seen_hashes :
  NoDup (map image_hash
             (filter (fun kf => truthy (image_hash kf) = true)
                     (dedup_loop keyframes [] seen_hashes)))
  /\ forall h, Some h ∈ map image_hash
                        (filter (fun kf => truthy (image_hash kf) = true)
                                (dedup_loop keyframes [] seen_hashes)) ->
               h ∉ seen_hashes.
Proof.
  revert seen_hashes. induction keyframes as [|kf rest IH]; intros seen.
  - simpl. split; [constructor|]. intros h Hin. now apply elem_of_nil in Hin.
  - rewrite dedup_loop_cons.
    destruct (image_hash kf) as [[|a h']|] eqn:E.
    + rewrite filter_cons, E. simpl. apply IH.
    + destruct (decide (String a h' ∈ seen)) as [Hin|Hin]; [apply IH|].
      rewrite filter_cons, E. simpl. rewrite E.
      destruct (IH ({[String a h']} ∪ seen)) as [Hnd Hfresh].
      split.
      * constructor; [|exact Hnd].
        intros Hdup. apply (Hfresh _ Hdup). set_solver.
      * intros h Hh. apply elem_of_cons in Hh as [[= ->]|Hh]; [exact Hin|].
        specialize (Hfresh _ Hh). set_solver.
    + rewrite filter_cons, E. simpl. apply IH.
Qed.

(** Keyframes without a hash pass through the loop. *)
Lemma dedup_loop_hashless keyframes seen_hashes :
  filter (fun kf => truthy (image_hash kf) = false)
         (dedup_loop keyframes [] seen_hashes)
  = filter (fun kf => truthy (image_hash kf) = false) keyframes.
Proof.
  revert seen_hashes. induction keyframes as [|kf rest IH]; intros seen.
  - reflexivity.
  - rewrite dedup_loop_cons, (filter_cons _ kf rest).
    destruct (image_hash kf) as [[|a h']|] eqn:E; simpl.
    + rewrite filter_cons, E. simpl. now rewrite IH.
    + destruct (decide (String a h' ∈ seen)); [apply IH|].
      rewrite filter_cons, E. simpl. apply IH.
    + rewrite filter_cons, E. simpl. now rewrite IH.
Qed.

(** Keyframes without a hash do not change what happens to the others. *)
Lemma dedup_loop_hashed keyframes seen_hashes :
  filter (fun kf => truthy (image_hash kf) = true)
         (dedup_loop keyframes [] seen_hashes)
  = dedup_loop (filter (fun kf => truthy (image_hash kf) = true) keyframes)
               [] seen_hashes.
Proof.
  revert seen_hashes. induction keyframes as [|kf rest IH]; intros seen.
  - reflexivity.
  - rewrite dedup_loop_cons, (filter_cons _ kf rest).
    destruct (truthy (image_hash kf)) eqn:T.
    + rewrite decide_True by reflexivity. rewrite dedup_loop_cons.
      destruct (image_hash kf) as [[|a h']|] eqn:E; try discriminate T.
      destruct (decide (String a h' ∈ seen)); [apply IH|].
      rewrite filter_cons, decide_True by (now rewrite E). now rewrite IH.
    + rewrite decide_False by discriminate.
      destruct (image_hash kf) as [[|a h']|] eqn:E; try discriminate T;
        rewrite filter_cons, decide_False by (rewrite E, T; discriminate);
        apply IH.
Qed.

(** C8 (deduplication by exact hash).  The result keeps the input order;
    of the keyframes carrying a given hash value it keeps exactly the
    first and drops every later one; so no two kept keyframes that have a
    hash share it, and of two keyframes with the same hash only the first
    survives.  The similarity threshold plays no part: the result is the
    same for every value of it. *)
Theorem remove_duplicates_exact keyframes similarity_threshold :
  remove_duplicates keyframes similarity_threshold `sublist_of` keyframes
  /\ (forall h, h <> ""%string ->
        filter (fun kf => image_hash kf = Some h)
               (remove_duplicates keyframes similarity_threshold)
        = take 1 (filter (fun kf => image_hash kf = Some h) keyframes))
  /\ NoDup (map image_hash
                (filter (fun kf => truthy (image_hash kf) = true)
                        (remove_duplicates keyframes similarity_threshold)))
  /\ (forall kf1 kf2,
        truthy (image_hash kf1) = true -> image_hash kf2 = image_hash kf1 ->
        remove_duplicates [kf1; kf2] similarity_threshold = [kf1])
  /\ (forall threshold',
        remove_duplicates keyframes threshold'
        = remove_duplicates keyframes similarity_threshold).
Proof.
  rewrite !remove_duplicates_eq.
  split; [apply dedup_loop_sublist|].
  split; [intros h Hh; rewrite (dedup_loop_first h) by exact Hh;
          rewrite decide_False by set_solver; reflexivity|].
  split; [apply dedup_loop_NoDup|].
  split; [|intros t'; now rewrite remove_duplicates_eq].
  intros kf1 kf2 Ht Heq. rewrite remove_duplicates_eq, dedup_loop_cons.
  destruct (image_hash kf1) as [[|a h]|]; try discriminate Ht.
  rewrite decide_False by set_solver.
  rewrite dedup_loop_cons, Heq.
  rewrite decide_True by set_solver. reflexivity.
Qed.

(** C10 (keyframes without a hash).  The keyframes whose ['image_hash']
    is missing or empty are all kept, however many they are, and they do
    not influence the others: the kept keyframes that have a hash are
    those kept when the hash-less keyframes are taken out of the input
    first. *)
Theorem remove_duplicates_keeps_hashless keyframes similarity_threshold :
  filter (fun kf => truthy (image_hash kf) = false)
         (remove_duplicates keyframes similarity_threshold)
  = filter (fun kf => truthy (image_hash kf) = false) keyframes
  /\ (forall kf, kf ∈ keyframes -> truthy (image_hash kf) = false ->
                 kf ∈ remove_duplicates keyframes similarity_threshold)
  /\ filter (fun kf => truthy (image_hash kf) = true)
            (remove_duplicates keyframes similarity_threshold)
     = remove_duplicates
         (filter (fun kf => truthy (image_hash kf) = true) keyframes)
         similarity_threshold.
Proof.
  rewrite !remove_duplicates_eq.
  split; [apply dedup_loop_hashless|].
  split; [|apply dedup_loop_hashed].
  intros kf Hin Hk.
  assert (H : kf ∈ filter (fun kf => truthy (image_hash kf) = false) keyframes)
    by (apply list_elem_of_filter; auto).
  rewrite <- (dedup_loop_hashless keyframes ∅) in H.
  now apply list_elem_of_filter in H.
Qed.

(** ** core/keyframe_extractor.py: sampling a scene *)

Lemma interval_of_mode self :
  (mode self = "low"%string -> interval_of self == 3)
  /\ (mode self = "medium"%string -> interval_of self == 2)
  /\ (mode self = "high"%string -> interval_of self == 1)
  /\ (mode self ∉ ["low"; "medium"; "high"]%string -> interval_of self == 2).
Proof.
  unfold interval_of. repeat split; try (intros ->; reflexivity).
  intros Hm. unfold mode_configs.
  rewrite !lookup_insert_ne, lookup_empty; [reflexivity|..];
    intros Heq; apply Hm; rewrite <- Heq; set_solver.
Qed.

Lemma Qnat_S (n : nat) : Qnat (S n) == Qnat n + 1.
Proof.
  unfold Qnat. rewrite Nat2Z.inj_succ, <- Z.add_1_r, inject_Z_plus. reflexivity.
Qed.

(** The [while] loop produces [start_time + k * interval] for
    [k = 0, 1, ...] while the offset is below the duration and there is
    room. *)
Lemma sample_loop_spec scene st d i :
  start_time scene = Some st ->
  forall room c,
  exists l,
    sample_loop room scene d i c = Ok l
    /\ (length l <= room)%nat
    /\ (forall k t, l !! k = Some t ->
                    t == st + (c + Qnat k * i) /\ c + Qnat k * i < d)
    /\ (length l = room \/ d <= c + Qnat (length l) * i).
Proof.
  intros Hst. induction room as [|room IH]; intros c; simpl.
  - exists []. split; [reflexivity|]. split; [reflexivity|].
    split; [intros k t Hk; discriminate Hk | now left].
  - destruct (Qlt_bool c d) eqn:E.
    + apply Qlt_bool_iff in E. rewrite Hst. simpl.
      destruct (IH (c + i)) as (l & -> & Hlen & Hk & Hend). simpl.
      eexists. split; [reflexivity|]. simpl.
      split; [lia|]. split.
      * intros [|k] t Hl; simpl in Hl.
        -- injection Hl as <-. change (Qnat 0) with 0. split; lra.
        -- destruct (Hk k t Hl) as [H1 H2]. rewrite Qnat_S. split; lra.
      * destruct Hend as [->|Hend]; [now left | right].
        rewrite Qnat_S. lra.
    + apply Qlt_bool_false in E.
      exists []. split; [reflexivity|]. split; [simpl; lia|].
      split; [intros k t Hk; discriminate Hk|].
      right. simpl. change (Qnat 0) with 0. lra.
Qed.

Lemma imap_Forall2 {A B} (f : nat -> A -> B) (R : B -> A -> Prop) (l : list A) :
  (forall i x, R (f i x) x) -> Forall2 R (imap f l) l.
Proof.
  revert f. induction l as [|x l IH]; intros f Hf; simpl; constructor; auto.
  apply IH. intros i y. apply Hf.
Qed.

Lemma Forall2_map_eq {A B C} (g : B -> C) (h : A -> C) (l' : list B) (l : list A) :
  Forall2 (fun b a => g b = h a) l' l -> map g l' = map h l.
Proof. induction 1; simpl; congruence. Qed.

Lemma sorted_by_length {A} (key : A -> Q) reverse (l : list A) :
  length (sorted_by key reverse l) = length l.
Proof. apply Permutation_length, sorted_by_perm. Qed.

Section ExtractionProofs.
Context {Frame : Type}.
Variable cap : Z -> option Frame.
Variable quality : Frame -> Q.
Variable hash : Frame -> string.

Lemma sample_times_spec self scene st en d :
  start_time scene = Some st -> end_time scene = Some en ->
  exists stepped,
    (length stepped <= max_frames_per_scene self)%nat
    /\ (forall k t, stepped !! k = Some t ->
          t == st + Qnat k * interval_of self
          /\ Qnat k * interval_of self < d)
    /\ (length stepped = max_frames_per_scene self
        \/ d <= Qnat (length stepped) * interval_of self)
    /\ sample_times self scene d
       = Ok (if (length stepped <? max_frames_per_scene self)%nat
             then take (max_frames_per_scene self) [st; st + d / 2; en - 0.1]
             else stepped).
Proof.
  intros Hst Hen.
  destruct (sample_loop_spec scene st d (interval_of self) Hst
              (max_frames_per_scene self) 0) as (l & Hl & Hlen & Hk & Hend).
  exists l. split; [exact Hlen|]. split; [|split].
  - intros k t Hkt. destruct (Hk k t Hkt) as [H1 H2]. split; lra.
  - destruct Hend as [Hend|Hend]; [now left | right]. lra.
  - unfold sample_times. rewrite Hl. simpl.
    destruct (length l <? max_frames_per_scene self)%nat; [|reflexivity].
    rewrite Hst, Hen. reflexivity.
Qed.

Lemma extract_from_scene_eq self scene fps d sf ef times :
  duration scene = Some d ->
  start_frame scene = Some sf -> end_frame scene = Some ef ->
  sample_times self scene d = Ok times ->
  exists keyframes,
    _extract_from_scene cap quality hash self scene fps = Ok keyframes
    /\ Forall2 (built_from hash) keyframes
         (sorted_by cand_time false
            (take (max_frames_per_scene self)
                  (sorted_by cand_quality_score true
                             (read_candidates cap quality fps times))))
    /\ (forall k kf, keyframes !! k = Some kf -> keyframe_index kf = k).
Proof.
  intros Hd Hsf Hef Htimes. unfold _extract_from_scene.
  rewrite Hsf, Hef, Hd. simpl. rewrite Htimes. simpl.
  rewrite (list_sort_sorted_by cand_quality_score)
    by (apply Forall_forall; reflexivity).
  simpl.
  rewrite (list_sort_sorted_by cand_time)
    by (apply Forall_forall; reflexivity).
  simpl. eexists. split; [reflexivity|]. split.
  - apply imap_Forall2. intros i c. repeat split.
  - intros k kf Hk. rewrite list_lookup_imap in Hk.
    destruct (_ !! k); simpl in Hk; [|discriminate].
    now injection Hk as <-.
Qed.

End ExtractionProofs.

End KeyframeProofs.

(** * Further properties of the code *)

(** ** Rounding *)

Lemma round_half_even_bounds (q : Q) (a b : Z) :
  inject_Z a <= q -> q <= inject_Z b ->
  (a <= round_half_even q <= b)%Z.
Proof.
  intros Ha Hb. unfold round_half_even.
  pose proof (Qfloor_le q) as Hf. pose proof (Qlt_floor q) as Hf'.
  assert (Haf : (a <= Qfloor q)%Z).
  { rewrite <- (Qfloor_Z a). now apply Qfloor_resp_le. }
  assert (Hfb : (Qfloor q <= b)%Z).
  { rewrite <- (Qfloor_Z b). now apply Qfloor_resp_le. }
  destruct (Qcompare (q - inject_Z (Qfloor q)) (1 # 2)) eqn:E.
  - destruct (Z.even (Qfloor q)); [lia|].
    apply Qeq_alt in E.
    destruct (Z.eq_dec (Qfloor q) b) as [Heq|Hne]; [|lia].
    rewrite Heq in E. lra.
  - lia.
  - apply Qgt_alt in E.
    destruct (Z.eq_dec (Qfloor q) b) as [Heq|Hne]; [|lia].
    rewrite Heq in E. lra.
Qed.

(** Rounding to [n] decimals keeps a number between two integers that
    bound it. *)
Lemma py_round_range (q : Q) (n : nat) (lo hi : Z) :
  inject_Z lo <= q -> q <= inject_Z hi ->
  inject_Z lo <= py_round q n /\ py_round q n <= inject_Z hi.
Proof.
  intros Hlo Hhi. unfold py_round.
  set (S := (10 ^ Z.of_nat n)%Z).
  assert (HS : (0 < S)%Z) by (apply Z.pow_pos_nonneg; lia).
  assert (HSQ : 0 < inject_Z S) by (rewrite Zlt_Qlt in HS; exact HS).
  destruct (round_half_even_bounds (q * inject_Z S) (lo * S) (hi * S)) as [H1 H2].
  - rewrite inject_Z_mult. apply Qmult_le_compat_r; lra.
  - rewrite inject_Z_mult. apply Qmult_le_compat_r; lra.
  - rewrite Zle_Qle, inject_Z_mult in H1, H2. split.
    + apply Qle_shift_div_l; assumption.
    + apply Qle_shift_div_r; assumption.
Qed.

Lemma Qdiv_nonneg (a b : Q) : 0 <= a -> 0 < b -> 0 <= a / b.
Proof.
  intros Ha Hb. apply Qle_shift_div_l; [exact Hb | lra].
Qed.

Lemma Qnat_nonneg (n : nat) : 0 <= Qnat n.
Proof.
  unfold Qnat. change 0 with (inject_Z 0). rewrite <- Zle_Qle. lia.
Qed.

Lemma py_min_range (x hi : Q) : 0 <= x -> 0 <= hi ->
  0 <= py_min x hi /\ py_min x hi <= hi.
Proof. intros Hx Hhi. unfold py_min. Qcases; split; lra. Qed.

(** ** core/highlight_selector.py *)

Module SelectorFacts.
Import HighlightSelector Spec Vocabulary SelectorProofs.

Lemma duration_score_range d :
  0 <= d ->
  0 <= HighlightSelector.duration_score d
  /\ HighlightSelector.duration_score d <= 100.
Proof.
  intros Hd. unfold HighlightSelector.duration_score, py_max.
  assert (E5 : d / 5 * 100 == d * 20) by field.
  Qcases; simpl; Qcases; rewrite ?E5; split; lra.
Qed.

Lemma dialogue_score_range (len : nat) (d : Q) :
  let dialogue_score :=
    if (0 <? len)%nat then
      py_min ((if Qlt_bool 0 d then Qnat len / d else 0) / 8 * 100) 100
    else 0 in
  0 <= dialogue_score /\ dialogue_score <= 100.
Proof.
  simpl. destruct (0 <? len)%nat; [|split; lra].
  apply py_min_range; [|lra].
  assert (Hden : 0 <= (if Qlt_bool 0 d then Qnat len / d else 0)).
  { destruct (Qlt_bool 0 d) eqn:E; [|lra].
    apply Qlt_bool_iff in E. apply Qdiv_nonneg; [apply Qnat_nonneg | exact E]. }
  set (den := if Qlt_bool 0 d then _ else 0) in *.
  assert (E8 : den / 8 * 100 == den * (25 # 2)) by field.
  rewrite E8. lra.
Qed.

Lemma subtitle_score_range (n : nat) :
  let subtitle_score :=
    if (0 <? n)%nat then py_min (Qnat n * 20) 100 else 0 in
  0 <= subtitle_score /\ subtitle_score <= 100.
Proof.
  simpl. destruct (0 <? n)%nat; [|split; lra].
  apply py_min_range; [|lra]. pose proof (Qnat_nonneg n). lra.
Qed.

(** X1.  The dialogue-only score of a scene whose duration is not
    negative lies between 0 and 100, as the docstring of
    [_calculate_highlight_score] announces. *)
Theorem dialogue_only_score_range scene d :
  duration scene = Some d -> 0 <= d ->
  exists v, _calculate_highlight_score scene = Ok v /\ 0 <= v /\ v <= 100.
Proof.
  intros Hd Hpos. unfold _calculate_highlight_score. rewrite Hd. simpl.
  eexists. split; [reflexivity|].
  destruct (duration_score_range d Hpos) as [D1 D2].
  destruct (dialogue_score_range
              (String.length (default ""%string (dialogue scene))) d)
    as [S1 S2].
  destruct (subtitle_score_range (default 0%nat (subtitle_count scene)))
    as [T1 T2].
  apply (py_round_range _ 2 0 100).
  - change (inject_Z 0) with 0. lra.
  - change (inject_Z 100) with 100. lra.
Qed.

Lemma dialogue_only_score_range_witness :
  exists v, _calculate_highlight_score scenario_scene1 = Ok v
            /\ 0 <= v /\ v <= 100.
Proof.
  apply (dialogue_only_score_range scenario_scene1 8 eq_refl). discriminate.
Defined.

Lemma greedy_Raise t l :
  Forall enriched l ->
  forall sel T e,
    greedy t l sel T = Raise e ->
    e = KeyError "id" /\ exists s, s ∈ l /\ id s = None.
Proof.
  induction 1 as [|s l Hs _ IH]; intros sel T e H; simpl in H; [discriminate|].
  destruct Hs as ([st Hst] & [en Hen] & [d Hd] & [v Hv]).
  rewrite Hd in H. simpl in H.
  assert (Hrest : forall sel' T', greedy t l sel' T' = Raise e ->
            e = KeyError "id" /\ exists s', s' ∈ s :: l /\ id s' = None).
  { intros sel' T' H'. destruct (IH _ _ _ H') as (-> & s' & Hin & Hid).
    split; [reflexivity|]. exists s'. split; [now right | exact Hid]. }
  destruct (Qle_bool (T + d) t).
  - unfold debug_fields in H. rewrite Hst, Hen, Hv in H.
    destruct (id s) as [i|] eqn:Hid; simpl in H.
    + destruct (Qle_bool (t * 0.95) (T + d)); [discriminate | eauto].
    + injection H as <-. split; [reflexivity|].
      exists s. split; [now left | exact Hid].
  - simpl in H. destruct (Qle_bool (t * 0.95) T); [discriminate | eauto].
Qed.

(** X2.  The enrichment errors are caught, but the arguments of the
    debug message of an accepted scene are not: the only exception
    [select_highlights] lets out is [KeyError('id')], and only when an
    input scene with its time keys has no ['id'].  A single such scene
    that fits the target is enough. *)
Theorem select_highlights_raises_only_for_id scenes subtitles target_duration :
  (forall e,
      select_highlights scenes subtitles target_duration = Raise e ->
      e = KeyError "id"
      /\ exists s0, s0 ∈ scenes /\ id s0 = None /\ timed s0)
  /\ (forall s d,
        timed s -> duration s = Some d -> id s = None ->
        d <= target_duration ->
        select_highlights [s] subtitles target_duration
        = Raise (KeyError "id")).
Proof.
  split.
  - intros e H. rewrite select_highlights_eq in H.
    destruct (greedy target_duration (scan_order scenes subtitles) [] 0)
      as [st|e'] eqn:Eg; [discriminate|].
    injection H as ->.
    apply greedy_Raise in Eg as (-> & s & Hin & Hid);
      [|apply scan_order_enriched].
    split; [reflexivity|].
    unfold scan_order in Hin. rewrite sorted_by_perm in Hin.
    pose proof (enrich_all_from subtitles scenes) as Hfrom.
    rewrite Forall_forall in Hfrom.
    destruct (Hfrom _ Hin) as (s0 & Hin0 & He).
    apply enrich_inv in He as ((Hst & Hen & Hd & _) & (E1 & E2 & E3) & Eid).
    exists s0. split; [exact Hin0|]. split; [congruence|].
    unfold timed. rewrite <- E1, <- E2, <- E3. auto.
  - intros s d (Hst & Hen & Hd) Hdur Hid Hfit.
    destruct (enrich_is_Ok subtitles s Hst Hen Hd) as [s' He].
    pose proof (enrich_inv _ _ _ He) as (([st' Hst'] & [en' Hen'] & _ & [v Hv])
                                         & (_ & _ & E3) & Eid).
    rewrite select_highlights_eq. unfold scan_order.
    rewrite (enrich_all_cons_Ok _ _ _ _ He). simpl.
    rewrite E3, Hdur. simpl.
    assert (E : Qle_bool (0 + d) target_duration = true)
      by (apply Qle_bool_iff; lra).
    rewrite E. unfold debug_fields. rewrite Eid, Hid. reflexivity.
Qed.

Lemma select_highlights_raises_only_for_id_witness :
  select_highlights
    [mkScene None None (Some 0) (Some 4) (Some 4) None None None None None None]
    scenario_subtitles 8
  = Raise (KeyError "id").
Proof.
  apply (proj2 (select_highlights_raises_only_for_id [] scenario_subtitles 8)
           _ 4); try reflexivity.
  - repeat split; eexists; reflexivity.
  - discriminate.
Defined.

(** ** Annotations already present on the input *)

Section SortMap.
Context {A : Type} (g : A -> A) (key : A -> Q).
Hypothesis key_g : forall x, key (g x) = key x.

Lemma insert_keyed_map reverse (p : Q * A) (l : list (Q * A)) :
  insert_keyed reverse (p.1, g p.2) (map (fun q => (q.1, g q.2)) l)
  = map (fun q => (q.1, g q.2)) (insert_keyed reverse p l).
Proof.
  induction l as [|y l IH]; simpl; [reflexivity|].
  destruct (goes_before reverse p.1 y.1); simpl; [reflexivity|].
  now rewrite IH.
Qed.

Lemma sorted_by_map reverse (l : list A) :
  sorted_by key reverse (map g l) = map g (sorted_by key reverse l).
Proof.
  unfold sorted_by.
  assert (H : sort_keyed reverse (map (fun x => (key x, x)) (map g l))
              = map (fun q => (q.1, g q.2))
                    (sort_keyed reverse (map (fun x => (key x, x)) l))).
  { induction l as [|x l IH]; simpl; [reflexivity|].
    rewrite IH, key_g. apply (insert_keyed_map reverse (key x, x)). }
  rewrite H. clear H.
  induction (sort_keyed reverse (map (fun x => (key x, x)) l)) as [|q l' IH];
    simpl; [reflexivity|]. now rewrite IH.
Qed.
End SortMap.

Lemma enrich_strip subtitles s :
  enrich subtitles (strip_annotations s)
  = match enrich subtitles s with
    | Ok s' => Ok (drop_selected_id s')
    | Raise e => Raise e
    end.
Proof.
  unfold enrich, _add_dialogue_to_scene, _calculate_highlight_score. simpl.
  destruct (start_time s); simpl; [|reflexivity].
  destruct (end_time s); simpl; [|reflexivity].
  destruct (duration s); reflexivity.
Qed.

Lemma enrich_all_strip subtitles scenes :
  enrich_all subtitles (map strip_annotations scenes)
  = map drop_selected_id (enrich_all subtitles scenes).
Proof.
  induction scenes as [|s scenes IH]; simpl; [reflexivity|].
  rewrite enrich_strip.
  destruct (enrich subtitles s); simpl; now rewrite IH.
Qed.

Lemma greedy_drop_selected_id t l :
  forall sel T,
    greedy t (map drop_selected_id l) (map drop_selected_id sel) T
    = match greedy t l sel T with
      | Ok st => Ok (map drop_selected_id st.1, st.2)
      | Raise e => Raise e
      end.
Proof.
  induction l as [|s l IH]; intros sel T; simpl; [reflexivity|].
  destruct (duration s) as [d|]; simpl; [|reflexivity].
  destruct (Qle_bool (T + d) t); simpl.
  - change (debug_fields (drop_selected_id s)) with (debug_fields s).
    destruct (debug_fields s) as [[]|]; simpl; [|reflexivity].
    destruct (Qle_bool (t * 0.95) (T + d)).
    + cbn [fst snd]. now rewrite List.map_app.
    + cbn [fst snd].
      replace (map drop_selected_id sel ++ [drop_selected_id s])
        with (map drop_selected_id (sel ++ [s]))
        by (now rewrite List.map_app).
      apply IH.
  - destruct (Qle_bool (t * 0.95) T); [reflexivity | apply IH].
Qed.

Lemma assign_selected_ids_drop (l : list Scene) :
  assign_selected_ids (map drop_selected_id l) = assign_selected_ids l.
Proof.
  unfold assign_selected_ids.
  enough (H : forall g : nat -> Z,
             imap (fun i scene => set_selected_id scene (g i))
                  (map drop_selected_id l)
             = imap (fun i scene => set_selected_id scene (g i)) l)
    by apply (H (fun i => (Z.of_nat i + 1)%Z)).
  induction l as [|s l IH]; intros g; simpl; [reflexivity|].
  f_equal. apply (IH (fun i => g (S i))).
Qed.

(** X3.  The keys ['dialogue'], ['subtitle_count'], ['highlight_score']
    and ['selected_id'] that the input scenes may already carry have no
    influence: the selection is the one of the scenes without them. *)
Theorem select_highlights_ignores_annotations scenes subtitles target_duration :
  select_highlights (map strip_annotations scenes) subtitles target_duration
  = select_highlights scenes subtitles target_duration.
Proof.
  rewrite !select_highlights_eq. unfold scan_order.
  rewrite enrich_all_strip.
  rewrite (sorted_by_map drop_selected_id score_of) by reflexivity.
  rewrite (greedy_drop_selected_id _ _ []).
  destruct (greedy target_duration _ [] 0) as [[sel T]|e]; simpl; [|reflexivity].
  rewrite (sorted_by_map drop_selected_id start_of) by reflexivity.
  now rewrite assign_selected_ids_drop.
Qed.

(** ** What the selection is made of *)

Lemma enrich_strip_annotations subtitles s s' :
  enrich subtitles s = Ok s' -> strip_annotations s' = strip_annotations s.
Proof.
  unfold enrich. intros H.
  apply bind_Ok in H as (s1 & H1 & H).
  apply bind_Ok in H as (v & _ & H). injection H as <-.
  apply add_dialogue_inv in H1 as (st & en & _ & _ & ->). reflexivity.
Qed.

Lemma enrich_all_strip_sublist subtitles scenes :
  map strip_annotations (enrich_all subtitles scenes)
  `sublist_of` map strip_annotations scenes.
Proof.
  induction scenes as [|s scenes IH]; simpl; [constructor|].
  destruct (enrich subtitles s) as [s'|] eqn:E; simpl.
  - rewrite (enrich_strip_annotations _ _ _ E). now apply sublist_skip.
  - now apply sublist_cons.
Qed.


(** X4.  Every selected scene is an input scene, and no input scene is
    selected twice: without the keys the selection writes, the selected
    scenes form a sub-multiset of the input scenes. *)
Theorem selected_scenes_are_input_scenes scenes subtitles target_duration selected :
  select_highlights scenes subtitles target_duration = Ok selected ->
  map strip_annotations selected ⊆+ map strip_annotations scenes
  /\ (length selected <= length scenes)%nat.
Proof.
  intros H. apply select_highlights_inv in H as (acc & T & HS & ->).
  assert (Hsub : map strip_annotations
                     (assign_selected_ids (sorted_by start_of false acc))
                 ⊆+ map strip_annotations scenes).
  { rewrite map_assign_selected_ids by reflexivity.
    rewrite (map_perm _ _ _ (sorted_by_perm start_of false acc)).
    transitivity (map strip_annotations (scan_order scenes subtitles)).
    - apply sublist_submseteq.
      apply (fmap_sublist strip_annotations), (Scan_sublist _ _ _ _ _ HS).
    - unfold scan_order.
      rewrite (map_perm _ _ _ (sorted_by_perm score_of true _)).
      apply sublist_submseteq, enrich_all_strip_sublist. }
  split; [exact Hsub|].
  apply submseteq_length in Hsub. now rewrite !length_map in Hsub.
Qed.

Lemma selected_scenes_are_input_scenes_witness :
  exists selected,
    select_highlights [scenario_scene1; scenario_scene2] scenario_subtitles 8
    = Ok selected
    /\ map strip_annotations selected
       ⊆+ map strip_annotations [scenario_scene1; scenario_scene2].
Proof.
  eexists. split; [reflexivity|].
  exact (proj1 (selected_scenes_are_input_scenes
                  [scenario_scene1; scenario_scene2] scenario_subtitles 8 _
                  eq_refl)).
Defined.





(** ** Selection without subtitles *)

Lemma filter_all {A} (P : A -> Prop) `{!forall x, Decision (P x)} (l : list A) :
  Forall P l -> filter P l = l.
Proof.
  induction 1 as [|x l Hx _ IH]; [reflexivity|].
  rewrite filter_cons, decide_True by exact Hx. now rewrite IH.
Qed.

(** A stable sort leaves a list of equal keys as it is. *)
Lemma sorted_by_equal_keys {A} (key : A -> Q) reverse (l : list A) :
  (forall x y, x ∈ l -> y ∈ l -> key x == key y) ->
  sorted_by key reverse l = l.
Proof.
  intros Heq. destruct l as [|x0 l]; [reflexivity|].
  pose proof (sorted_by_stable key reverse (key x0) (x0 :: l)) as Hst.
  rewrite (filter_all _ (x0 :: l)) in Hst.
  - rewrite filter_all in Hst; [exact Hst|].
    apply Forall_forall. intros y Hy. rewrite sorted_by_perm in Hy.
    apply Qeq_bool_iff, Heq; [exact Hy | now left].
  - apply Forall_forall. intros y Hy.
    apply Qeq_bool_iff, Heq; [exact Hy | now left].
Qed.

End SelectorFacts.

(** ** core/multimodal_fusion.py *)

Lemma traverse_Ok_inv {A B} (f : A -> result B) (l : list A) (l' : list B) :
  traverse f l = Ok l' -> Forall2 (fun x y => f x = Ok y) l l'.
Proof.
  revert l'. induction l as [|x l IH]; intros l' H; simpl in H.
  - injection H as <-. constructor.
  - apply bind_Ok in H as (y & Hy & H).
    apply bind_Ok in H as (ys & Hys & H). injection H as <-.
    constructor; auto.
Qed.

Lemma traverse_Raise {A B} (f : A -> result B) (l : list A) :
  Exists (fun x => is_ok (f x) = false) l -> exists e, traverse f l = Raise e.
Proof.
  induction 1 as [x l Hx|x l _ IH]; simpl.
  - destruct (f x); [discriminate | simpl; eauto].
  - destruct (f x); simpl; [|eauto].
    destruct IH as [e ->]. simpl. eauto.
Qed.

Module FusionFacts.
Import MultimodalFusion Spec Vocabulary FusionProofs.

Section Fused.
Context {Face : Type}.
Implicit Types (face_results : list (@FaceItem Face)) (fs : @FusedScene Face).

Lemma fuse_scene_inv vision_results ocr_results face_results subtitles s fs :
  fuse_scene vision_results ocr_results face_results subtitles s = Ok fs ->
  exists st en v,
    start_time s = Some st /\ end_time s = Some en
    /\ fs = mkFusedScene
              (set_highlight_score
                 (set_dialogue s (_get_dialogue_in_range subtitles st en)) v)
              (Some (_merge_vision_data
                       (_get_data_in_range vision_timestamp vision_results st en)))
              (Some (_merge_ocr_data
                       (_get_data_in_range ocr_timestamp ocr_results st en)))
              (Some (_merge_face_data
                       (_get_data_in_range face_timestamp face_results st en))).
Proof.
  unfold fuse_scene. intros H.
  destruct (start_time s) as [st|]; [|discriminate].
  destruct (end_time s) as [en|]; [|discriminate]. simpl in H.
  apply bind_Ok in H as (v & _ & H). injection H as <-.
  exists st, en, v. auto.
Qed.

Lemma fuse_scene_timed vision_results ocr_results face_results subtitles s fs :
  fuse_scene vision_results ocr_results face_results subtitles s = Ok fs ->
  timed s.
Proof.
  unfold fuse_scene, _calculate_highlight_score, timed.
  destruct (start_time s); [|discriminate].
  destruct (end_time s); [|discriminate]. simpl.
  destruct (duration s); [eauto | discriminate].
Qed.

(** X7.  [fuse_multimodal_data] has no [try]: it returns one fused scene
    per input scene, in order, each with the input scene's own keys, its
    dialogue, and a score; and a single scene without its time keys makes
    the whole call raise. *)
Theorem fuse_multimodal_data_all_or_nothing
        scenes vision_results ocr_results face_results subtitles :
  (forall fused,
      fuse_multimodal_data scenes vision_results ocr_results face_results
                           subtitles = Ok fused ->
      Forall2 (fun s fs =>
                 strip_annotations (scene fs) = strip_annotations s
                 /\ selected_id (scene fs) = selected_id s
                 /\ subtitle_count (scene fs) = subtitle_count s
                 /\ is_Some (highlight_score (scene fs))
                 /\ exists st en,
                     start_time s = Some st /\ end_time s = Some en
                     /\ dialogue (scene fs)
                        = Some (_get_dialogue_in_range subtitles st en))
              scenes fused)
  /\ (Exists (fun s => ~ timed s) scenes ->
      exists e,
        fuse_multimodal_data scenes vision_results ocr_results face_results
                             subtitles = Raise e).
Proof.
  split.
  - intros fused H. apply traverse_Ok_inv in H.
    eapply Forall2_impl; [exact H|].
    intros s fs Hfs. simpl in Hfs.
    apply fuse_scene_inv in Hfs as (st & en & v & Hst & Hen & ->). simpl.
    repeat split; eauto.
  - intros Hex. apply traverse_Raise.
    eapply Exists_impl; [exact Hex|].
    intros s Hs. simpl.
    destruct (fuse_scene vision_results ocr_results face_results subtitles s)
      as [fs|] eqn:E; [|reflexivity].
    exfalso. apply Hs. exact (fuse_scene_timed _ _ _ _ _ _ E).
Qed.
End Fused.

Section Scores.
Context {Face : Type}.
Implicit Types (face_results : list (@FaceItem Face)) (fs : @FusedScene Face).

(** X8.  A scene of duration zero: the fusion divides by the duration
    before anything else and raises [ZeroDivisionError], for the scene and
    for every call of [fuse_multimodal_data] on a list that contains it,
    where the dialogue-only path guards the division and scores the
    scene. *)
Theorem zero_duration_scene_raises_in_fusion
        vision_results ocr_results face_results subtitles s d :
  is_Some (start_time s) -> is_Some (end_time s) ->
  duration s = Some d -> d == 0 ->
  fuse_scene vision_results ocr_results face_results subtitles s
  = Raise ZeroDivisionError
  /\ (forall scenes,
         s ∈ scenes ->
         exists e,
           fuse_multimodal_data scenes vision_results ocr_results face_results
                                subtitles = Raise e)
  /\ exists s' v,
      HighlightSelector.enrich subtitles s = Ok s'
      /\ highlight_score s' = Some v.
Proof.
  intros [st Hst] [en Hen] Hd Hzero.
  assert (Hraise : fuse_scene vision_results ocr_results face_results subtitles s
                   = Raise ZeroDivisionError).
  { unfold fuse_scene, _calculate_highlight_score, py_div.
    rewrite Hst, Hen. simpl. rewrite Hd. simpl.
    apply Qeq_bool_iff in Hzero. now rewrite Hzero. }
  split; [exact Hraise|]. split.
  - intros scenes Hin. apply traverse_Raise, Exists_exists.
    exists s. split; [exact Hin|]. now rewrite Hraise.
  - unfold HighlightSelector.enrich, HighlightSelector._add_dialogue_to_scene,
      HighlightSelector._calculate_highlight_score.
    rewrite Hst, Hen. simpl. rewrite Hd. simpl. eauto.
Qed.

Lemma fusion_duration_score_range d :
  0 <= d ->
  0 <= MultimodalFusion.duration_score d
  /\ MultimodalFusion.duration_score d <= 100.
Proof.
  intros Hd. unfold MultimodalFusion.duration_score, py_max.
  assert (E5 : d / 5 * 100 == d * 20) by field.
  Qcases; simpl; Qcases; rewrite ?E5; split; lra.
Qed.

(** X9.  For a fused scene of positive duration whose motion score lies
    between 0 and 1, the multimodal score lies between 0 and 100. *)
Theorem multimodal_score_range fs d :
  duration (scene fs) = Some d -> 0 < d ->
  0 <= default 0 (motion_score (default (mkVisual None None None) (visual fs))) ->
  default 0 (motion_score (default (mkVisual None None None) (visual fs))) <= 1 ->
  exists v, _calculate_highlight_score fs = Ok v /\ 0 <= v /\ v <= 100.
Proof.
  intros Hd Hpos Hm0 Hm1.
  unfold _calculate_highlight_score, py_div. rewrite Hd. simpl.
  assert (E : Qeq_bool d 0 = false).
  { destruct (Qeq_bool d 0) eqn:E; [|reflexivity].
    apply Qeq_bool_iff in E. lra. }
  rewrite E. simpl. eexists. split; [reflexivity|].
  set (m := default 0 _) in *.
  set (len := String.length _).
  set (nf := length (default [] (faces fs))).
  set (no := length (default [] _)).
  destruct (fusion_duration_score_range d) as [D1 D2]; [lra|].
  assert (Hden : 0 <= Qnat len / d / 10 * 100).
  { assert (E10 : Qnat len / d / 10 * 100 == Qnat len / d * 10) by (field; lra).
    rewrite E10. pose proof (Qdiv_nonneg (Qnat len) d (Qnat_nonneg len) Hpos).
    lra. }
  destruct (py_min_range (Qnat len / d / 10 * 100) 100 Hden) as [A1 A2]; [lra|].
  destruct (py_min_range (Qnat nf * 30) 100) as [B1 B2];
    [pose proof (Qnat_nonneg nf); lra | lra |].
  destruct (py_min_range (Qnat no * 20) 100) as [C1 C2];
    [pose proof (Qnat_nonneg no); lra | lra |].
  split; lra.
Qed.

End Scores.

Lemma zero_duration_scene_raises_in_fusion_witness :
  fuse_scene [] [] (@nil (@FaceItem unit)) scenario_subtitles
             (mkScene (Some 3%Z) None (Some 5) (Some 5) (Some 0) None None
                      None None None None)
  = Raise ZeroDivisionError.
Proof.
  refine (proj1 (zero_duration_scene_raises_in_fusion [] [] [] scenario_subtitles
                   (mkScene (Some 3%Z) None (Some 5) (Some 5) (Some 0) None None
                            None None None None) 0 _ _ eq_refl _));
    try reflexivity; eexists; reflexivity.
Defined.

Lemma multimodal_score_range_witness :
  exists v,
    _calculate_highlight_score
      (mkFusedScene scenario_scene1 (Some (mkVisual None None (Some 0.5))) None
                    (Some [tt; tt]))
    = Ok v /\ 0 <= v /\ v <= 100.
Proof.
  apply (multimodal_score_range
           (mkFusedScene scenario_scene1 (Some (mkVisual None None (Some 0.5)))
                         None (Some [tt; tt])) 8 eq_refl);
    [reflexivity | discriminate | discriminate].
Defined.

(** X10.  The merged OCR texts are the texts of the matched items
    without repetition: each text that occurs is listed once, nothing
    else is, so the count that enters the score is the number of distinct
    texts. *)
Theorem merge_ocr_data_distinct_texts (ocr_data : list OcrItem) :
  exists unique_texts,
    _merge_ocr_data ocr_data = mkOcr (Some unique_texts)
    /\ NoDup unique_texts
    /\ (forall t, t ∈ unique_texts <-> t ∈ all_ocr_texts ocr_data)
    /\ (length unique_texts <= length (all_ocr_texts ocr_data))%nat
    /\ (NoDup (all_ocr_texts ocr_data) ->
        length unique_texts = length (all_ocr_texts ocr_data)).
Proof.
  unfold _merge_ocr_data. fold (all_ocr_texts ocr_data).
  set (l := all_ocr_texts ocr_data).
  eexists. split; [reflexivity|].
  assert (Hnd : NoDup (elements (list_to_set l : gset string)))
    by apply NoDup_elements.
  assert (Hin : forall t, t ∈ elements (list_to_set l : gset string) <-> t ∈ l).
  { intros t. rewrite elem_of_elements. apply elem_of_list_to_set. }
  split; [exact Hnd|]. split; [exact Hin|]. split.
  - apply submseteq_length, NoDup_submseteq; [exact Hnd|].
    intros t. apply Hin.
  - intros Hl. apply Permutation_length, NoDup_Permutation; assumption.
Qed.

(** X11.  A subtitle that starts in one scene and ends in the next one:
    the fusion path takes it for neither of the two scenes, the
    dialogue-only path takes it for both. *)
Theorem subtitle_across_a_boundary (subtitles : list Subtitle) sub a b c :
  sub ∈ subtitles ->
  a <= start sub -> start sub < b -> b < end_ sub -> end_ sub <= c ->
  (sub ∉ filter (fun x => inside a b x = true) subtitles
   /\ sub ∉ filter (fun x => inside b c x = true) subtitles)
  /\ (sub ∈ filter (fun x => HighlightSelector.overlaps a b x = true) subtitles
      /\ sub ∈ filter (fun x => HighlightSelector.overlaps b c x = true)
                      subtitles)
  /\ _get_dialogue_in_range [sub] a b = ""%string
  /\ _get_dialogue_in_range [sub] b c = ""%string.
Proof.
  intros Hin H1 H2 H3 H4.
  assert (I1 : inside a b sub = false).
  { unfold inside. apply andb_false_iff. right. apply Qle_bool_false. lra. }
  assert (I2 : inside b c sub = false).
  { unfold inside. apply andb_false_iff. left. apply Qle_bool_false. lra. }
  assert (O1 : HighlightSelector.overlaps a b sub = true).
  { apply SelectorProofs.overlaps_iff. left. split; lra. }
  assert (O2 : HighlightSelector.overlaps b c sub = true).
  { apply SelectorProofs.overlaps_iff. right. left. split; lra. }
  split; [|split; [|split]].
  - split; intros H; apply list_elem_of_filter in H as [H _]; congruence.
  - split; apply list_elem_of_filter; auto.
  - unfold _get_dialogue_in_range. rewrite filter_cons, decide_False by congruence.
    reflexivity.
  - unfold _get_dialogue_in_range. rewrite filter_cons, decide_False by congruence.
    reflexivity.
Qed.

Lemma subtitle_across_a_boundary_witness :
  _get_dialogue_in_range [mkSubtitle 6 10 "x"] 0 8 = ""%string.
Proof.
  refine (proj1 (proj2 (proj2 (subtitle_across_a_boundary
                                 [mkSubtitle 6 10 "x"] (mkSubtitle 6 10 "x")
                                 0 8 20 _ _ _ _ _))));
    try (apply list_elem_of_here); simpl; try reflexivity; discriminate.
Defined.

Section Faces.
Context {Face : Type}.

Lemma elem_of_merge_face_data (face_data : list (@FaceItem Face)) (f : Face) :
  f ∈ _merge_face_data face_data
  <-> exists item, item ∈ face_data /\ f ∈ default [] (item_faces item).
Proof.
  unfold _merge_face_data. induction face_data as [|x l IH]; simpl.
  - split; [intros H; now apply elem_of_nil in H|].
    intros (item & H & _). now apply elem_of_nil in H.
  - rewrite elem_of_app, IH. split.
    + intros [H|(item & Hi & Hf)].
      * exists x. split; [now left | exact H].
      * exists item. split; [now right | exact Hf].
    + intros (item & Hi & Hf). apply elem_of_cons in Hi as [->|Hi]; eauto.
Qed.

(** X12.  The faces of a fused scene are those of the face items stamped
    within the scene, both ends included, as many times as they occur; so
    an item stamped on the boundary of two scenes gives its faces to
    both. *)
Theorem fused_faces_closed_interval
        vision_results ocr_results (face_results : list (@FaceItem Face))
        subtitles s fs :
  fuse_scene vision_results ocr_results face_results subtitles s = Ok fs ->
  exists st en all_faces,
    start_time s = Some st /\ end_time s = Some en
    /\ faces fs = Some all_faces
    /\ (forall f,
           f ∈ all_faces
           <-> exists item,
               item ∈ face_results
               /\ st <= face_timestamp item /\ face_timestamp item <= en
               /\ f ∈ default [] (item_faces item))
    /\ length all_faces
       = sum_list (map (fun item => length (default [] (item_faces item)))
                       (_get_data_in_range face_timestamp face_results st en)).
Proof.
  intros H. apply fuse_scene_inv in H as (st & en & v & Hst & Hen & ->).
  exists st, en. eexists. split; [exact Hst|]. split; [exact Hen|].
  split; [reflexivity|]. split.
  - intros f. rewrite elem_of_merge_face_data. unfold _get_data_in_range.
    split.
    + intros (item & Hi & Hf). apply list_elem_of_filter in Hi as [Hr Hi].
      apply andb_true_iff in Hr as [R1 R2]. apply Qle_bool_iff in R1, R2.
      exists item. auto.
    + intros (item & Hi & R1 & R2 & Hf). exists item. split; [|exact Hf].
      apply list_elem_of_filter. split; [|exact Hi].
      apply andb_true_iff. split; now apply Qle_bool_iff.
  - unfold _merge_face_data.
    induction (_get_data_in_range face_timestamp face_results st en)
      as [|x l IH]; simpl; [reflexivity|].
    now rewrite length_app, IH.
Qed.
End Faces.

Lemma fused_faces_closed_interval_witness :
  exists fs,
    fuse_scene [] [] [mkFaceItem 8 (Some [tt])] scenario_subtitles scenario_scene1
    = Ok fs
    /\ faces fs = Some [tt].
Proof.
  eexists. split; [reflexivity|].
  destruct (fused_faces_closed_interval [] [] [mkFaceItem 8 (Some [tt])]
              scenario_subtitles scenario_scene1 _ eq_refl)
    as (st & en & all_faces & _ & _ & _ & _ & _).
  reflexivity.
Defined.

End FusionFacts.

(** ** core/keyframe_extractor.py: duplicate removal, again *)

Module KeyframeFacts.
Import KeyframeExtractor KeyframePipeline FrameMeasures Spec Vocabulary Samples
       KeyframeProofs.

Lemma dedup_loop_distinct keyframes seen_hashes :
  NoDup (hashes_of keyframes) ->
  (forall h, Some h ∈ hashes_of keyframes -> h ∉ seen_hashes) ->
  dedup_loop keyframes [] seen_hashes = keyframes.
Proof.
  unfold hashes_of. revert seen_hashes.
  induction keyframes as [|kf rest IH]; intros seen Hnd Hfresh.
  - reflexivity.
  - rewrite dedup_loop_cons. rewrite filter_cons in Hnd, Hfresh.
    destruct (image_hash kf) as [[|a h]|] eqn:E; simpl in Hnd, Hfresh.
    + f_equal. apply IH; assumption.
    + rewrite E in Hnd, Hfresh. apply NoDup_cons in Hnd as [Hnotin Hnd].
      rewrite decide_False.
      * f_equal. apply IH; [exact Hnd|].
        intros h2 Hh2 Hu. apply elem_of_union in Hu as [Hu|Hu].
        -- apply elem_of_singleton in Hu. subst h2. contradiction.
        -- apply (Hfresh h2); [now right | exact Hu].
      * apply Hfresh. now left.
    + f_equal. apply IH; assumption.
Qed.

(** X13.  Removing duplicates twice is removing them once, and a list
    whose non-empty hashes are pairwise different is returned as it is. *)
Theorem remove_duplicates_idempotent keyframes t t' :
  remove_duplicates (remove_duplicates keyframes t) t'
  = remove_duplicates keyframes t
  /\ (NoDup (hashes_of keyframes) -> remove_duplicates keyframes t = keyframes).
Proof.
  rewrite !remove_duplicates_eq. split.
  - destruct (dedup_loop_NoDup keyframes ∅) as [Hnd Hfresh].
    now apply dedup_loop_distinct.
  - intros Hnd. apply dedup_loop_distinct; [exact Hnd|].
    intros h _. apply not_elem_of_empty.
Qed.

Lemma dedup_loop_app l1 l2 seen_hashes :
  exists seen', dedup_loop (l1 ++ l2) [] seen_hashes
                = dedup_loop l1 [] seen_hashes ++ dedup_loop l2 [] seen'.
Proof.
  revert seen_hashes. induction l1 as [|kf rest IH]; intros seen.
  - exists seen. reflexivity.
  - change ((kf :: rest) ++ l2) with (kf :: (rest ++ l2)).
    rewrite (dedup_loop_cons kf (rest ++ l2)), (dedup_loop_cons kf rest).
    destruct (image_hash kf) as [[|a h]|].
    + destruct (IH seen) as [seen' ->]. now exists seen'.
    + destruct (decide (String a h ∈ seen)).
      * apply IH.
      * destruct (IH ({[String a h]} ∪ seen)) as [seen' ->]. now exists seen'.
    + destruct (IH seen) as [seen' ->]. now exists seen'.
Qed.

(** X14.  The removal works front to back: what is kept of a list does
    not change when more keyframes are appended to it, and the keyframes
    kept of the appended part are among the appended ones, in order. *)
Theorem remove_duplicates_incremental l1 l2 t :
  exists kept2,
    remove_duplicates (l1 ++ l2) t = remove_duplicates l1 t ++ kept2
    /\ kept2 `sublist_of` l2.
Proof.
  rewrite !remove_duplicates_eq.
  destruct (dedup_loop_app l1 l2 ∅) as [seen' ->].
  eexists. split; [reflexivity | apply dedup_loop_sublist].
Qed.

(** ** core/keyframe_extractor.py: [extract] *)

Section Extracting.
Context {Frame : Type}.
Variable cap : Z -> option Frame.
Variable quality : Frame -> Q.
Variable hash : Frame -> string.
Variable fps : Q.

Lemma extract_loop_outcome self cb total scenes : forall i acc rep,
  snd (extract_loop cap quality hash fps self cb total i scenes acc rep)
  = (per_scene ← traverse (fun scene =>
                             _extract_from_scene cap quality hash self scene fps)
                          scenes;
     Ok (acc ++ concat per_scene)).
Proof.
  induction scenes as [|scene rest IH]; intros i acc rep; simpl.
  - now rewrite app_nil_r.
  - destruct (_extract_from_scene cap quality hash self scene fps)
      as [kfs|e]; simpl; [|reflexivity].
    rewrite IH. destruct (traverse _ rest); simpl; [|reflexivity].
    now rewrite app_assoc.
Qed.

Lemma extract_loop_reported self total scenes : forall i acc rep,
  exists k,
    (k <= length scenes)%nat
    /\ fst (extract_loop cap quality hash fps self true total i scenes acc rep)
       = rep ++ progress_values total i k
    /\ (is_ok (snd (extract_loop cap quality hash fps self true total i
                                 scenes acc rep)) = true ->
        k = length scenes).
Proof.
  induction scenes as [|scene rest IH]; intros i acc rep; simpl.
  - exists 0%nat. rewrite app_nil_r. auto.
  - destruct (_extract_from_scene cap quality hash self scene fps)
      as [kfs|e]; simpl.
    + destruct (IH (S i) (acc ++ kfs)
                   (rep ++ [Qnat (i + 1) / Qnat total * 100]))
        as (k & Hk & Hfst & Hok).
      exists (S k). split; [lia|]. split.
      * rewrite Hfst, <- app_assoc. reflexivity.
      * intros H. now rewrite (Hok H).
    + exists 0%nat. rewrite app_nil_r. split; [lia|]. split; [reflexivity|].
      discriminate.
Qed.

Lemma extract_loop_silent self total scenes : forall i acc rep,
  fst (extract_loop cap quality hash fps self false total i scenes acc rep) = rep.
Proof.
  induction scenes as [|scene rest IH]; intros i acc rep; simpl; [reflexivity|].
  destruct (_extract_from_scene cap quality hash self scene fps); simpl;
    [apply IH | reflexivity].
Qed.

(** X15.  When the video opens, [extract] returns the keyframes of the
    scenes one scene after the other, in the order of the scenes; if the
    processing of a scene raises, the keyframes of the scenes before it
    are lost and the call raises [KeyframeExtractionError] for the first
    such scene. *)
Theorem extract_all_or_nothing self scenes progress_callback :
  outcome (extract cap quality hash true fps self scenes progress_callback)
  = match traverse (fun scene =>
                      _extract_from_scene cap quality hash self scene fps)
                   scenes with
    | Ok per_scene => Extracted (concat per_scene)
    | Raise e => KeyframeExtractionError (SceneRaised e)
    end.
Proof.
  unfold extract.
  rewrite extract_loop_outcome.
  destruct (traverse _ scenes); reflexivity.
Qed.

Lemma progress_values_lookup total first count i p :
  progress_values total first count !! i = Some p ->
  (i < count)%nat /\ p = Qnat (first + i + 1) / Qnat total * 100.
Proof.
  unfold progress_values. rewrite list_lookup_fmap.
  destruct (seq first count !! i) as [j|] eqn:E; simpl; [|discriminate].
  apply lookup_seq in E as [-> Hlt]. intros [= <-]. auto.
Qed.

Lemma Qnat_lt (a b : nat) : (a < b)%nat -> Qnat a < Qnat b.
Proof. intros H. unfold Qnat. rewrite <- Zlt_Qlt. lia. Qed.

Lemma Qnat_le (a b : nat) : (a <= b)%nat -> Qnat a <= Qnat b.
Proof. intros H. unfold Qnat. rewrite <- Zle_Qle. lia. Qed.

Lemma progress_lt total (a b : nat) :
  (0 < total)%nat -> (a < b)%nat ->
  Qnat a / Qnat total * 100 < Qnat b / Qnat total * 100.
Proof.
  intros Ht Hab. apply Qnat_lt in Ht, Hab. change (Qnat 0) with 0 in Ht.
  apply Qmult_lt_compat_r; [reflexivity|].
  unfold Qdiv. apply Qmult_lt_compat_r; [|exact Hab].
  apply Qinv_lt_0_compat. exact Ht.
Qed.

Lemma progress_values_sorted total first count :
  (0 < total)%nat -> StronglySorted Qlt (progress_values total first count).
Proof.
  intros Ht. unfold progress_values.
  apply (StronglySorted_map (fun i => Qnat (i + 1) / Qnat total * 100) Qlt).
  revert first. induction count as [|count IH]; intros first; simpl;
    constructor; [apply IH|].
  apply Forall_forall. intros j Hj. apply elem_of_seq in Hj.
  apply progress_lt; [exact Ht | lia].
Qed.

Lemma progress_values_range total first count :
  (first + count <= total)%nat ->
  Forall (fun p => 0 < p /\ p <= 100) (progress_values total first count).
Proof.
  intros Hle. apply Forall_forall. intros p Hp.
  apply list_elem_of_lookup in Hp as [i Hp].
  apply progress_values_lookup in Hp as [Hi ->].
  assert (Ht : (0 < total)%nat) by lia.
  split.
  - assert (E : 0 == Qnat 0 / Qnat total * 100) by (now change (Qnat 0) with 0).
    rewrite E. apply progress_lt; [exact Ht | lia].
  - assert (E : 100 == Qnat total / Qnat total * 100).
    { apply Qnat_lt in Ht. change (Qnat 0) with 0 in Ht. field. lra. }
    apply Qle_trans with (Qnat total / Qnat total * 100);
      [|apply Qle_lteq; right; symmetry; exact E].
    assert (Hc : (first + i + 1 <= total)%nat) by lia.
    apply Nat.lt_eq_cases in Hc as [Hc| ->]; [|apply Qle_refl].
    apply Qlt_le_weak, progress_lt; [exact Ht | exact Hc].
Qed.

(** X17.  The values passed to [progress_callback] are
    [(i + 1) / len(scenes) * 100] for the scenes processed, one per
    scene and in order: they grow strictly, lie above 0 and at most at
    100, a call that returns has reported every scene, and its last
    report is 100. *)
Theorem extract_progress_reports opened self scenes :
  let run := extract cap quality hash opened fps self scenes true in
  exists k,
    (k <= length scenes)%nat
    /\ reported run = progress_values (length scenes) 0 k
    /\ StronglySorted Qlt (reported run)
    /\ Forall (fun p => 0 < p /\ p <= 100) (reported run)
    /\ ((exists keyframes, outcome run = Extracted keyframes) ->
        k = length scenes
        /\ (scenes <> [] ->
            exists p, last (reported run) = Some p /\ p == 100)).
Proof.
  intros run. subst run. unfold extract. destruct opened.
  - destruct (extract_loop_reported self (length scenes) scenes 0 [] [])
      as (k & Hk & Hfst & Hok).
    simpl in Hfst.
    set (run := extract_loop cap quality hash fps self true (length scenes)
                             0 scenes [] []) in *.
    assert (Hrep : reported (match snd run with
                             | Ok all_keyframes =>
                                 mkRun (fst run) true (Extracted all_keyframes)
                             | Raise e =>
                                 mkRun (fst run) false
                                       (KeyframeExtractionError (SceneRaised e))
                             end) = progress_values (length scenes) 0 k).
    { destruct (snd run); exact Hfst. }
    exists k. rewrite Hrep.
    split; [exact Hk|]. split; [reflexivity|].
    destruct scenes as [|scene rest] eqn:Escenes.
    { simpl in Hk. assert (k = 0%nat) as -> by lia.
      split; [constructor|]. split; [constructor|].
      intros _. split; [reflexivity|]. intros Hne. now destruct Hne. }
    rewrite <- Escenes in *.
    assert (Hpos : (0 < length scenes)%nat) by (rewrite Escenes; simpl; lia).
    split; [now apply progress_values_sorted|].
    split; [apply progress_values_range; lia|].
    intros [keyframes Hout].
    assert (Hk' : k = length scenes).
    { apply Hok. destruct (snd run); [reflexivity | discriminate Hout]. }
    split; [exact Hk'|]. intros _. subst k.
    exists (Qnat (length scenes) / Qnat (length scenes) * 100). split.
    + unfold progress_values.
      destruct (length scenes) as [|n]; [lia|].
      rewrite seq_S, List.map_app. cbn [map]. rewrite last_snoc.
      replace (0 + n + 1)%nat with (S n) by lia. reflexivity.
    + apply Qnat_lt in Hpos. change (Qnat 0) with 0 in Hpos. field. lra.
  - simpl. exists 0%nat. split; [lia|]. split; [reflexivity|].
    split; [constructor|]. split; [constructor|].
    intros [? [=]].
Qed.

Lemma extract_from_scene_inv self scene keyframes :
  _extract_from_scene cap quality hash self scene fps = Ok keyframes ->
  exists d times,
    duration scene = Some d
    /\ sample_times self scene d = Ok times
    /\ keyframes
       = imap (fun idx c =>
                 mkKeyframe (scene_id_of scene)
                            (match index scene with
                             | Some i => Some i
                             | None => scene_id_of scene
                             end)
                            idx (cand_time c) (cand_frame_number c)
                            (cand_quality_score c)
                            (Some (hash (cand_frame c))))
              (sorted_by cand_time false
                 (take (max_frames_per_scene self)
                       (sorted_by cand_quality_score true
                                  (read_candidates cap quality fps times)))).
Proof.
  unfold _extract_from_scene, scene_id_of.
  destruct (start_frame scene); simpl; [|discriminate].
  destruct (end_frame scene); simpl; [|discriminate].
  destruct (duration scene) as [d|]; simpl; [|discriminate].
  destruct (sample_times self scene d) as [times|] eqn:Et; simpl; [|discriminate].
  rewrite (list_sort_sorted_by cand_quality_score)
    by (apply Forall_forall; reflexivity).
  simpl.
  rewrite (list_sort_sorted_by cand_time)
    by (apply Forall_forall; reflexivity).
  simpl. intros [= <-]. eauto.
Qed.

(** Every candidate is the frame read at one of the sample times. *)
Lemma read_candidates_spec times :
  Forall (fun c => cand_time c ∈ times
                   /\ cand_frame_number c = py_int (cand_time c * fps)
                   /\ cap (cand_frame_number c) = Some (cand_frame c)
                   /\ cand_quality_score c = quality (cand_frame c))
         (read_candidates cap quality fps times).
Proof.
  induction times as [|t rest IH]; simpl; [constructor|].
  assert (IH' : Forall (fun c => cand_time c ∈ t :: rest
                   /\ cand_frame_number c = py_int (cand_time c * fps)
                   /\ cap (cand_frame_number c) = Some (cand_frame c)
                   /\ cand_quality_score c = quality (cand_frame c))
                  (read_candidates cap quality fps rest)).
  { eapply Forall_impl; [exact IH|]. intros c (H1 & H2). split; [now right | exact H2]. }
  destruct (cap (py_int (t * fps))) as [frame|] eqn:E; [|exact IH'].
  constructor; [|exact IH']. simpl. repeat split; [now left | exact E].
Qed.

Lemma read_candidates_length times :
  (length (read_candidates cap quality fps times) <= length times)%nat.
Proof.
  induction times as [|t rest IH]; simpl; [lia|].
  destruct (cap (py_int (t * fps))); simpl; lia.
Qed.

(** What [_extract_from_scene] guarantees of each keyframe of a scene. *)
Lemma extract_from_scene_each self scene keyframes :
  _extract_from_scene cap quality hash self scene fps = Ok keyframes ->
  (length keyframes <= max_frames_per_scene self)%nat
  /\ exists d times,
       duration scene = Some d /\ sample_times self scene d = Ok times
       /\ Forall (fun kf =>
                    scene_id kf = scene_id_of scene
                    /\ (keyframe_index kf < max_frames_per_scene self)%nat
                    /\ time kf ∈ times
                    /\ frame_number kf = py_int (time kf * fps)
                    /\ exists frame,
                         cap (frame_number kf) = Some frame
                         /\ quality_score kf = quality frame
                         /\ image_hash kf = Some (hash frame))
                  keyframes.
Proof.
  intros H. apply extract_from_scene_inv in H as (d & times & Hd & Ht & ->).
  set (kept := sorted_by cand_time false _).
  assert (Hlen : (length kept <= max_frames_per_scene self)%nat).
  { subst kept. rewrite sorted_by_length. apply firstn_le_length. }
  split; [now rewrite length_imap|].
  exists d, times. split; [exact Hd|]. split; [exact Ht|].
  apply Forall_forall. intros kf Hkf.
  apply list_elem_of_lookup in Hkf as [k Hk].
  rewrite list_lookup_imap in Hk.
  destruct (kept !! k) as [c|] eqn:Ec; simpl in Hk; [|discriminate].
  injection Hk as <-. simpl.
  assert (Hc : c ∈ read_candidates cap quality fps times).
  { assert (Hin : c ∈ kept) by (apply list_elem_of_lookup; eauto).
    subst kept. rewrite sorted_by_perm in Hin.
    apply elem_of_take in Hin as (j & Hj & _).
    assert (Hin : c ∈ sorted_by cand_quality_score true
                           (read_candidates cap quality fps times))
      by (apply list_elem_of_lookup; eauto).
    now rewrite sorted_by_perm in Hin. }
  pose proof (read_candidates_spec times) as Hspec.
  rewrite Forall_forall in Hspec.
  destruct (Hspec c Hc) as (H1 & H2 & H3 & H4).
  split; [reflexivity|]. split.
  { apply lookup_lt_Some in Ec. lia. }
  split; [exact H1|]. split; [exact H2|].
  exists (cand_frame c). auto.
Qed.

End Extracting.

(** ** Sampling *)

Lemma interval_of_range self : 1 <= interval_of self /\ interval_of self <= 3.
Proof.
  destruct (interval_of_mode self) as (Hl & Hm & Hh & Ho).
  destruct (decide (mode self = "low"%string)) as [E|E1];
    [rewrite (Hl E); split; discriminate|].
  destruct (decide (mode self = "medium"%string)) as [E|E2];
    [rewrite (Hm E); split; discriminate|].
  destruct (decide (mode self = "high"%string)) as [E|E3];
    [rewrite (Hh E); split; discriminate|].
  rewrite Ho; [split; discriminate|]. set_solver.
Qed.

Lemma Qnat_mult_le (a b : nat) (i : Q) :
  0 <= i -> (a <= b)%nat -> Qnat a * i <= Qnat b * i.
Proof.
  intros Hi Hab. apply Qmult_le_compat_r; [|exact Hi].
  unfold Qnat. rewrite <- Zle_Qle. lia.
Qed.

(** X20.  Which of the two sampling strategies a scene gets depends on
    its duration alone: if the duration exceeds
    [(max_frames_per_scene - 1) * interval], the sample times are the
    [max_frames_per_scene] stepped ones; otherwise they are the start,
    the middle and the end minus 0.1, cut to [max_frames_per_scene] -
    so that such a scene never has more than three sample times,
    however large [max_frames_per_scene] is. *)
Theorem sampling_strategy self scene st en d :
  start_time scene = Some st -> end_time scene = Some en ->
  (Qnat (max_frames_per_scene self - 1) * interval_of self < d ->
   exists times,
     sample_times self scene d = Ok times
     /\ length times = max_frames_per_scene self
     /\ forall k t, times !! k = Some t ->
                    t == st + Qnat k * interval_of self)
  /\ ((0 < max_frames_per_scene self)%nat ->
      d <= Qnat (max_frames_per_scene self - 1) * interval_of self ->
      sample_times self scene d
      = Ok (take (max_frames_per_scene self) [st; st + d / 2; en - 0.1])
      /\ (length (take (max_frames_per_scene self)
                       [st; (st + d / 2)%Q; (en - 0.1)%Q]) <= 3)%nat).
Proof.
  intros Hst Hen.
  destruct (sample_times_spec self scene st en d Hst Hen)
    as (stepped & Hlen & Hk & Hend & ->).
  destruct (interval_of_range self) as [Hi _].
  assert (Hi0 : 0 <= interval_of self) by lra.
  split.
  - intros Hd.
    assert (Hfull : length stepped = max_frames_per_scene self).
    { destruct Hend as [Hend|Hend]; [exact Hend|].
      destruct (decide (length stepped = max_frames_per_scene self))
        as [E|E]; [exact E|].
      assert (Hle : (length stepped <= max_frames_per_scene self - 1)%nat) by lia.
      pose proof (Qnat_mult_le _ _ _ Hi0 Hle). lra. }
    exists stepped.
    rewrite Hfull, Nat.ltb_irrefl. split; [reflexivity|].
    split; [reflexivity|].
    intros k t Hkt. apply (Hk k t Hkt).
  - intros Hm Hd.
    assert (Hshort : (length stepped < max_frames_per_scene self)%nat).
    { destruct (decide (length stepped = max_frames_per_scene self))
        as [E|E]; [|lia].
      destruct (lookup_lt_is_Some_2 stepped (max_frames_per_scene self - 1))
        as [t Ht]; [lia|].
      destruct (Hk _ _ Ht) as [_ Hlt]. lra. }
    apply Nat.ltb_lt in Hshort. rewrite Hshort.
    split; [reflexivity|]. rewrite length_take. simpl. lia.
Qed.

Lemma sampling_strategy_witness :
  sample_times sample_extractor sample_scene1 4
  = Ok (take 3 [10; 10 + 4 / 2; 14 - 0.1])
  /\ exists times,
       sample_times sample_extractor sample_scene2 9 = Ok times
       /\ length times = 3%nat.
Proof.
  split.
  - refine (proj1 (proj2 (sampling_strategy sample_extractor sample_scene1
                                            10 14 4 eq_refl eq_refl) _ _));
      [simpl; lia | discriminate].
  - destruct (proj1 (sampling_strategy sample_extractor sample_scene2
                                       14 23 9 eq_refl eq_refl))
      as (times & H & Hlen & _); [reflexivity|].
    exists times. split; [exact H | exact Hlen].
Defined.

(** ** From the selection to the keyframes *)

(** X23.  [extract] on the scenes that [select_highlights] returns, as
    the main window calls them one after the other: the keyframes come
    in one group per selected scene, in the order of the selection, and
    every keyframe of the i-th group carries the scene number i, the
    ['selected_id'], whatever the scene's own ['id'] is. *)
Theorem keyframes_of_selected_scenes {Frame} (cap : Z -> option Frame)
        quality hash opened fps self scenes subtitles target_duration
        selected progress_callback keyframes :
  HighlightSelector.select_highlights scenes subtitles target_duration
  = Ok selected ->
  outcome (extract cap quality hash opened fps self selected progress_callback)
  = Extracted keyframes ->
  exists per_scene,
    keyframes = concat per_scene
    /\ length per_scene = length selected
    /\ forall i group, per_scene !! i = Some group ->
         (length group <= max_frames_per_scene self)%nat
         /\ Forall (fun kf => scene_id kf = Some (Z.of_nat i + 1)%Z) group.
Proof.
  intros Hsel Hout.
  apply SelectorProofs.select_highlights_inv in Hsel as (acc & T & _ & Hsel).
  unfold extract in Hout. destruct opened; [|discriminate].
  pose proof (extract_loop_outcome cap quality hash fps self progress_callback
                (length selected) selected 0 [] []) as Hloop.
  destruct (snd _) as [all|e]; [|discriminate].
  simpl in Hout. injection Hout as <-.
  destruct (traverse _ selected) as [per_scene|] eqn:Et; [|discriminate].
  simpl in Hloop. injection Hloop as ->.
  apply traverse_Ok_inv in Et.
  exists per_scene. split; [reflexivity|].
  split; [symmetry; exact (Forall2_length _ _ _ Et)|].
  intros i group Hi.
  destruct (Forall2_lookup_r _ _ _ _ _ Et Hi) as (scene & Hscene & Hex).
  rewrite Hsel in Hscene.
  apply SelectorProofs.assign_selected_ids_lookup in Hscene as (s' & _ & ->).
  destruct (extract_from_scene_each _ _ _ _ _ _ _ Hex)
    as (Hlen & d & times & _ & _ & Hall).
  split; [exact Hlen|].
  eapply Forall_impl; [exact Hall|].
  intros kf (Hid & _). rewrite Hid.
  unfold scene_id_of, py_or. simpl.
  destruct (Z.of_nat i + 1)%Z eqn:E; [lia | reflexivity | reflexivity].
Qed.

Lemma keyframes_of_selected_scenes_witness :
  exists selected keyframes per_scene,
    HighlightSelector.select_highlights [sample_scene2; sample_scene1] [] 600
    = Ok selected
    /\ outcome (extract sample_cap sample_quality
                        (fun frame => image_hash_of_gray (sample_gray frame))
                        true 25 sample_extractor selected false)
       = Extracted keyframes
    /\ keyframes = concat per_scene
    /\ length per_scene = length selected.
Proof.
  eexists. eexists.
  destruct (keyframes_of_selected_scenes
              sample_cap sample_quality
              (fun frame => image_hash_of_gray (sample_gray frame))
              true 25 sample_extractor [sample_scene2; sample_scene1] [] 600
              _ false _ eq_refl eq_refl)
    as (per_scene & Hcat & Hlen & _).
  exists per_scene.
  split; [reflexivity|]. split; [reflexivity|].
  split; [exact Hcat | exact Hlen].
Defined.

(** ** The tail of [_evaluate_frame_quality] *)

(** X24.  The quality score lies between 0 and 1 when the measurements
    are in their ranges: a variance and a standard deviation are not
    negative, and the brightness and the saturation of 8-bit images lie
    between 0 and 255. *)
Theorem quality_score_range m :
  0 <= sharpness m -> 0 <= contrast m ->
  0 <= brightness m -> brightness m <= 255 ->
  0 <= saturation m -> saturation m <= 255 ->
  0 <= quality_of m /\ quality_of m <= 1.
Proof.
  intros Hs Hc Hb0 Hb1 Hsat0 Hsat1. unfold quality_of.
  destruct (py_min_range (sharpness m / 1000) 1.0) as [S0 S1];
    [apply Qdiv_nonneg; [exact Hs | reflexivity] | discriminate|].
  destruct (py_min_range (contrast m / 80) 1.0) as [C0 C1];
    [apply Qdiv_nonneg; [exact Hc | reflexivity] | discriminate|].
  set (ss := py_min (sharpness m / 1000) 1.0) in *.
  set (cs := py_min (contrast m / 80) 1.0) in *.
  assert (Hab : 0 <= Qabs (brightness m - 127.5)
                /\ Qabs (brightness m - 127.5) <= 127.5).
  { split; [apply Qabs_nonneg|]. apply Qabs_Qle_condition. split; lra. }
  set (ab := Qabs (brightness m - 127.5)) in *.
  assert (E1 : ab / 127.5 == ab * (2 # 255)) by field.
  assert (E2 : saturation m / 255.0 == saturation m * (1 # 255)) by field.
  apply (py_round_range _ 3 0 1); change (inject_Z 0) with 0;
    change (inject_Z 1) with 1; rewrite E1, E2; lra.
Qed.

Lemma quality_score_range_witness :
  0 <= quality_of (mkMeasurements 500 40 127.5 128)
  /\ quality_of (mkMeasurements 500 40 127.5 128) <= 1.
Proof.
  apply (quality_score_range (mkMeasurements 500 40 127.5 128));
    discriminate.
Defined.

(** ** The tail of [_calculate_image_hash] *)

Lemma zeros_length k s : String.length (zeros k s) = (k + String.length s)%nat.
Proof. induction k as [|k IH]; simpl; [reflexivity | now rewrite IH]. Qed.

Lemma to_N_zeros k s :
  HexString.Raw.to_N (zeros k s) 0%N = HexString.Raw.to_N s 0%N.
Proof. induction k as [|k IH]; simpl; [reflexivity | exact IH]. Qed.

Lemma format_016x_round_trip n : int_base16 (format_016x n) = n.
Proof.
  unfold int_base16, format_016x. rewrite to_N_zeros.
  destruct n as [|p]; [reflexivity|].
  unfold format_x. now rewrite HexString.Raw.to_N_of_pos.
Qed.

Lemma of_pos_length k : forall p rest,
  (Pos.size_nat p <= 4 * k)%nat ->
  (String.length (HexString.Raw.of_pos p rest) <= k + String.length rest)%nat.
Proof.
  induction k as [|k IH]; intros p rest H.
  - destruct p; simpl in H; lia.
  - do 4 try destruct p as [p|p|]; simpl in H; simpl; try lia;
      (eapply Nat.le_trans; [apply IH; lia | simpl; lia]).
Qed.

Lemma size_nat_bound p : forall k,
  (Npos p < 2 ^ N.of_nat k)%N -> (Pos.size_nat p <= k)%nat.
Proof.
  induction p as [p IH|p IH|]; intros [|k] H; simpl;
    try (simpl in H; lia);
    rewrite Nat2N.inj_succ, N.pow_succ_r' in H.
  - apply le_n_S, IH. lia.
  - apply le_n_S, IH. lia.
Qed.

Lemma format_016x_length n :
  (n < 2 ^ 64)%N -> String.length (format_016x n) = 16%nat.
Proof.
  intros H. unfold format_016x. rewrite zeros_length.
  assert (Hd : (String.length (format_x n) <= 16)%nat); [|lia].
  destruct n as [|p]; [simpl; lia|]. unfold format_x.
  eapply Nat.le_trans; [apply (of_pos_length 16)|simpl; lia].
  apply (size_nat_bound p 64). exact H.
Qed.

Lemma int_base2_acc bits : forall acc,
  foldl (fun acc (b : bool) => (2 * acc + (if b then 1 else 0))%N) acc bits
  = (acc * 2 ^ N.of_nat (length bits) + int_base2 bits)%N.
Proof.
  unfold int_base2.
  induction bits as [|b bits IH]; intros acc; simpl foldl.
  - simpl. lia.
  - rewrite (IH (2 * acc + _)%N), (IH (2 * 0 + _)%N).
    simpl length. rewrite Nat2N.inj_succ, N.pow_succ_r'. lia.
Qed.

Lemma int_base2_cons (b : bool) bits :
  int_base2 (b :: bits)
  = ((if b then 1 else 0) * 2 ^ N.of_nat (length bits) + int_base2 bits)%N.
Proof.
  unfold int_base2 at 1. simpl foldl. rewrite int_base2_acc.
  destruct b; reflexivity.
Qed.

Lemma int_base2_lt bits : (int_base2 bits < 2 ^ N.of_nat (length bits))%N.
Proof.
  induction bits as [|b bits IH]; [reflexivity|].
  rewrite int_base2_cons. simpl length.
  rewrite Nat2N.inj_succ, N.pow_succ_r'. destruct b; lia.
Qed.

Lemma int_base2_inj bits1 : forall bits2,
  length bits1 = length bits2 -> int_base2 bits1 = int_base2 bits2 ->
  bits1 = bits2.
Proof.
  induction bits1 as [|b1 bits1 IH]; intros [|b2 bits2] Hlen H;
    try discriminate Hlen; [reflexivity|].
  injection Hlen as Hlen. rewrite !int_base2_cons, <- Hlen in H.
  pose proof (int_base2_lt bits1) as H1.
  pose proof (int_base2_lt bits2) as H2. rewrite <- Hlen in H2.
  destruct b1, b2; try (f_equal; apply IH; [exact Hlen | lia]); lia.
Qed.

Lemma hash_bits_length gray : length (hash_bits gray) = length gray.
Proof. unfold hash_bits. apply length_map. Qed.

Lemma image_hash_length gray :
  length gray = 64%nat -> String.length (image_hash_of_gray gray) = 16%nat.
Proof.
  intros Hlen. unfold image_hash_of_gray. apply format_016x_length.
  pose proof (int_base2_lt (hash_bits gray)) as H.
  now rewrite hash_bits_length, Hlen in H.
Qed.

(** X25.  The hash of an 8x8 image is a string of exactly 16
    characters, and read back as a hexadecimal number it is the number
    whose 64 binary digits say, pixel by pixel, whether the pixel is
    brighter than the mean. *)
Theorem image_hash_format gray :
  length gray = 64%nat ->
  String.length (image_hash_of_gray gray) = 16%nat
  /\ int_base16 (image_hash_of_gray gray) = int_base2 (hash_bits gray).
Proof.
  intros Hlen. split; [now apply image_hash_length|].
  apply format_016x_round_trip.
Qed.

Lemma image_hash_format_witness :
  String.length (image_hash_of_gray (sample_gray 5)) = 16%nat
  /\ int_base16 (image_hash_of_gray (sample_gray 5))
     = int_base2 (hash_bits (sample_gray 5)).
Proof. apply (image_hash_format (sample_gray 5)). reflexivity. Defined.

(** X26.  Two images of the same size have the same hash exactly when
    the same pixels are brighter than the mean in both: nothing is lost
    between the bit pattern and the string. *)
Theorem image_hash_equality gray1 gray2 :
  length gray1 = length gray2 ->
  (image_hash_of_gray gray1 = image_hash_of_gray gray2
   <-> hash_bits gray1 = hash_bits gray2).
Proof.
  intros Hlen. unfold image_hash_of_gray. split; [|now intros ->].
  intros H. apply int_base2_inj; [now rewrite !hash_bits_length|].
  now rewrite <- (format_016x_round_trip (int_base2 (hash_bits gray1))), H,
    format_016x_round_trip.
Qed.

Lemma image_hash_equality_witness :
  image_hash_of_gray (sample_gray 5) = image_hash_of_gray (sample_gray 6)
  <-> hash_bits (sample_gray 5) = hash_bits (sample_gray 6).
Proof.
  apply (image_hash_equality (sample_gray 5) (sample_gray 6)). reflexivity.
Defined.

Lemma Qsum_shift c gray :
  Qsum (map inject_Z (map (Z.add c) gray))
  == Qnat (length gray) * inject_Z c + Qsum (map inject_Z gray).
Proof.
  induction gray as [|p gray IH]; simpl.
  - change (Qnat 0) with 0. unfold Qsum. simpl. lra.
  - change (Qsum (?x :: ?l)) with (x + Qsum l).
    rewrite IH, inject_Z_plus.
    change (Qnat (S (length gray))) with (Qnat (S (length gray))).
    rewrite Qnat_S. lra.
Qed.

Lemma gray_mean_shift c gray :
  gray <> [] -> gray_mean (map (Z.add c) gray) == inject_Z c + gray_mean gray.
Proof.
  intros Hne. unfold gray_mean. rewrite Qsum_shift, length_map.
  assert (Hn : 0 < Qnat (length gray)).
  { destruct gray; [contradiction|]. apply (Qnat_lt 0). simpl. lia. }
  field. lra.
Qed.

Lemma Qlt_bool_ext a b a' b' :
  (a < b <-> a' < b') -> Qlt_bool a b = Qlt_bool a' b'.
Proof.
  intros H. apply eq_true_iff_eq. now rewrite !Qlt_bool_iff.
Qed.

(** X27.  The hash does not see a change of brightness: adding the same
    amount to every pixel leaves it as it is. *)
Theorem image_hash_ignores_brightness_shift c gray :
  image_hash_of_gray (map (Z.add c) gray) = image_hash_of_gray gray.
Proof.
  unfold image_hash_of_gray. f_equal. f_equal.
  destruct gray as [|p0 gray0] eqn:E; [reflexivity|]. rewrite <- E.
  assert (Hne : gray <> []) by (rewrite E; discriminate).
  unfold hash_bits. rewrite List.map_map.
  apply map_ext. intros p. apply Qlt_bool_ext.
  rewrite (gray_mean_shift c gray Hne), inject_Z_plus. split; lra.
Qed.

Lemma Qsum_flat c gray :
  Forall (eq c) gray ->
  Qsum (map inject_Z gray) == Qnat (length gray) * inject_Z c.
Proof.
  induction 1 as [|p gray <- _ IH]; simpl.
  - change (Qnat 0) with 0. unfold Qsum. simpl. lra.
  - change (Qsum (?x :: ?l)) with (x + Qsum l).
    rewrite IH, Qnat_S. lra.
Qed.

(** X28.  All frames of one flat colour have the same hash, sixteen
    zeros, whatever the colour: no pixel is brighter than the mean. *)
Theorem flat_frames_share_one_hash c gray :
  gray <> [] -> Forall (eq c) gray ->
  image_hash_of_gray gray = "0000000000000000"%string.
Proof.
  intros Hne Hflat.
  assert (Hbits : hash_bits gray = repeat false (length gray)).
  { unfold hash_bits.
    assert (Hmean : gray_mean gray == inject_Z c).
    { unfold gray_mean. rewrite (Qsum_flat c gray Hflat).
      assert (Hn : 0 < Qnat (length gray)).
      { destruct gray; [contradiction|]. apply (Qnat_lt 0). simpl. lia. }
      field. lra. }
    generalize (gray_mean gray) Hmean. intros avg Havg. clear Hne Hmean.
    induction Hflat as [|p gray <- _ IH]; [reflexivity|].
    simpl. f_equal; [|exact IH].
    apply Qlt_bool_false. lra. }
  assert (Hzero : forall k, int_base2 (repeat false k) = 0%N).
  { induction k as [|k IH]; [reflexivity|].
    simpl repeat. rewrite int_base2_cons, IH. lia. }
  unfold image_hash_of_gray. rewrite Hbits, Hzero. reflexivity.
Qed.

Lemma flat_frames_share_one_hash_witness :
  image_hash_of_gray (repeat 200%Z 64) = "0000000000000000"%string.
Proof.
  apply (flat_frames_share_one_hash 200%Z (repeat 200%Z 64));
    [discriminate | repeat constructor].
Defined.

(** ** Extraction followed by duplicate removal *)

(** X29.  [remove_duplicates] on what [extract] returns, with the image
    hash of the code: the keyframes kept are among the extracted ones,
    in order, no two of them have the same hash, and every extracted
    keyframe has its hash on one of the kept ones. *)
Theorem deduplicated_extraction {Frame} (cap : Z -> option Frame) quality
        (gray_of : Frame -> list Z) opened fps self scenes progress_callback
        keyframes similarity_threshold :
  (forall frame, length (gray_of frame) = 64%nat) ->
  outcome (extract cap quality (fun frame => image_hash_of_gray (gray_of frame))
                   opened fps self scenes progress_callback)
  = Extracted keyframes ->
  remove_duplicates keyframes similarity_threshold `sublist_of` keyframes
  /\ NoDup (map image_hash (remove_duplicates keyframes similarity_threshold))
  /\ Forall (fun kf =>
               exists kf', kf' ∈ remove_duplicates keyframes similarity_threshold
                           /\ image_hash kf' = image_hash kf)
            keyframes.
Proof.
  intros Hgray Hout.
  assert (Hall : Forall (fun kf => truthy (image_hash kf) = true) keyframes).
  { unfold extract in Hout. destruct opened; [|discriminate].
    pose proof (extract_loop_outcome cap quality
                  (fun frame => image_hash_of_gray (gray_of frame)) fps self
                  progress_callback (length scenes) scenes 0 [] []) as Hloop.
    destruct (snd _) as [all|e]; [|discriminate].
    simpl in Hout. injection Hout as <-.
    destruct (traverse _ scenes) as [per_scene|] eqn:Et; [|discriminate].
    simpl in Hloop. injection Hloop as ->.
    apply traverse_Ok_inv in Et.
    induction Et as [|scene kfs scenes per_scene Hs _ IH]; simpl;
      [constructor|].
    apply Forall_app. split; [|exact IH].
    destruct (extract_from_scene_each _ _ _ _ _ _ _ Hs)
      as (_ & d & times & _ & _ & Hkfs).
    eapply Forall_impl; [exact Hkfs|].
    intros kf (_ & _ & _ & _ & frame & _ & _ & ->).
    destruct (image_hash_of_gray (gray_of frame)) eqn:E; [|reflexivity].
    pose proof (image_hash_length (gray_of frame) (Hgray frame)) as Hl.
    rewrite E in Hl. discriminate Hl. }
  rewrite remove_duplicates_eq.
  pose proof (dedup_loop_sublist keyframes ∅) as Hsub.
  split; [exact Hsub|].
  assert (Hkept : Forall (fun kf => truthy (image_hash kf) = true)
                         (dedup_loop keyframes [] ∅)).
  { apply Forall_forall. intros kf Hkf. rewrite Forall_forall in Hall.
    apply Hall. eapply elem_of_sublist; eauto. }
  split.
  - destruct (dedup_loop_NoDup keyframes ∅) as [Hnd _].
    rewrite SelectorFacts.filter_all in Hnd; assumption.
  - apply Forall_forall. intros kf Hkf.
    rewrite Forall_forall in Hall. pose proof (Hall kf Hkf) as Ht.
    destruct (image_hash kf) as [[|a h]|] eqn:E; try discriminate Ht.
    pose proof (dedup_loop_first (String a h) keyframes ∅) as Hfirst.
    rewrite decide_False in Hfirst by set_solver.
    assert (Hin : kf ∈ filter (fun kf => image_hash kf = Some (String a h))
                              keyframes)
      by (apply list_elem_of_filter; auto).
    destruct (filter (fun kf => image_hash kf = Some (String a h)) keyframes)
      as [|kf0 others] eqn:Ef; [now apply elem_of_nil in Hin|].
    simpl in Hfirst.
    assert (H0 : kf0 ∈ filter (fun kf => image_hash kf = Some (String a h))
                              (dedup_loop keyframes [] ∅))
      by (rewrite Hfirst; [now left | discriminate]).
    apply list_elem_of_filter in H0 as [H0 H1]. eauto.
Qed.

Lemma deduplicated_extraction_witness :
  exists keyframes,
    outcome (extract sample_cap sample_quality
                     (fun frame => image_hash_of_gray (sample_gray frame))
                     true 25 sample_extractor [sample_scene1; sample_scene2]
                     false)
    = Extracted keyframes
    /\ NoDup (map image_hash (remove_duplicates keyframes 0.9)).
Proof.
  eexists. split; [reflexivity|].
  refine (proj1 (proj2 (deduplicated_extraction
                          sample_cap sample_quality sample_gray true 25
                          sample_extractor [sample_scene1; sample_scene2]
                          false _ 0.9 _ eq_refl))).
  intros frame. reflexivity.
Defined.

End KeyframeFacts.

(** * Properties of the code on floats *)

(** ** Rounding to binary64 *)

Module Binary64Facts.
Import Binary64.

Lemma pow2_pos e : 0 < pow2 e.
Proof. apply Qpower_0_lt. reflexivity. Qed.

Lemma pow2_add a b : pow2 (a + b) == pow2 a * pow2 b.
Proof. apply Qpower_plus. discriminate. Qed.

Lemma pow2_le a b : (a <= b)%Z -> pow2 a <= pow2 b.
Proof. intros H. apply Qpower_le_compat_l; [exact H | discriminate]. Qed.

Lemma pow2_lt a b : (a < b)%Z -> pow2 a < pow2 b.
Proof. intros H. apply Qpower_lt_compat_l; [exact H | reflexivity]. Qed.

Lemma pow2_lt_inv a b : pow2 a < pow2 b -> (a < b)%Z.
Proof. intros H. apply (Qpower_lt_compat_l_inv 2); [exact H | reflexivity]. Qed.

Lemma pow2_Z n : (0 <= n)%Z -> pow2 n == inject_Z (2 ^ n).
Proof. intros H. unfold pow2. now rewrite Zpower_Qpower. Qed.

(** Division by a power of two is multiplication by the opposite power. *)
Lemma div_pow2 q e : q / pow2 e == q * pow2 (- e).
Proof.
  unfold Qdiv. apply Qmult_comp; [reflexivity|].
  unfold pow2. now rewrite Qpower_opp.
Qed.

Lemma ilog2_spec q : 0 < q -> pow2 (ilog2 q) <= q /\ q < pow2 (ilog2 q + 1).
Proof.
  intros Hq. unfold ilog2.
  destruct q as [n d]. simpl Qnum. simpl Qden.
  assert (Hn : (0 < n)%Z).
  { unfold Qlt in Hq. simpl in Hq. lia. }
  set (a := Z.log2 n). set (b := Z.log2 (Z.pos d)).
  destruct (Z.log2_spec n Hn) as [Ha1 Ha2]. fold a in Ha1, Ha2.
  destruct (Z.log2_spec (Z.pos d) eq_refl) as [Hb1 Hb2]. fold b in Hb1, Hb2.
  assert (Ha0 : (0 <= a)%Z) by apply Z.log2_nonneg.
  assert (Hb0 : (0 <= b)%Z) by apply Z.log2_nonneg.
  assert (Eq : (n # d) * inject_Z (Z.pos d) == inject_Z n).
  { unfold Qeq, inject_Z. simpl. lia. }
  assert (Hd : 0 < inject_Z (Z.pos d)) by reflexivity.
  assert (Hpa : pow2 a <= inject_Z n).
  { rewrite pow2_Z by exact Ha0. now rewrite <- Zle_Qle. }
  assert (Hpa' : inject_Z n < pow2 (a + 1)).
  { rewrite pow2_Z by lia. now rewrite <- Zlt_Qlt. }
  assert (Hpb : pow2 b <= inject_Z (Z.pos d)).
  { rewrite pow2_Z by exact Hb0. now rewrite <- Zle_Qle. }
  assert (Hpb' : inject_Z (Z.pos d) < pow2 (b + 1)).
  { rewrite pow2_Z by lia. now rewrite <- Zlt_Qlt. }
  (* the two outer bounds *)
  assert (Hup : (n # d) < pow2 (a - b + 1)).
  { apply Qmult_lt_r with (z := pow2 b); [apply pow2_pos|].
    rewrite <- pow2_add. replace (a - b + 1 + b)%Z with (a + 1)%Z by lia.
    eapply Qle_lt_trans; [|exact Hpa'].
    rewrite <- Eq. apply Qmult_le_l; [exact Hq | exact Hpb]. }
  assert (Hlo : pow2 (a - b - 1) <= (n # d)).
  { apply Qmult_le_r with (z := pow2 (b + 1)); [apply pow2_pos|].
    rewrite <- pow2_add. replace (a - b - 1 + (b + 1))%Z with a by lia.
    eapply Qle_trans; [exact Hpa|].
    rewrite <- Eq. apply Qmult_le_l; [exact Hq|]. now apply Qlt_le_weak. }
  destruct (Qle_bool (pow2 (a - b)) (n # d)) eqn:E.
  - apply Qle_bool_iff in E. split; [exact E | exact Hup].
  - apply Qle_bool_false in E. split; [exact Hlo|].
    now replace (a - b - 1 + 1)%Z with (a - b)%Z by lia.
Qed.

(** *** Nearest integer *)

Lemma round_half_even_close q :
  q - (1 # 2) <= inject_Z (round_half_even q)
  /\ inject_Z (round_half_even q) <= q + (1 # 2).
Proof.
  unfold round_half_even.
  pose proof (Qfloor_le q) as Hf. pose proof (Qlt_floor q) as Hf'.
  rewrite inject_Z_plus in Hf'. change (inject_Z 1) with 1 in Hf'.
  destruct (Qcompare (q - inject_Z (Qfloor q)) (1 # 2)) eqn:E.
  - apply Qeq_alt in E.
    destruct (Z.even (Qfloor q)); [|rewrite inject_Z_plus];
      change (inject_Z 1) with 1; split; lra.
  - apply Qlt_alt in E. split; lra.
  - apply Qgt_alt in E. rewrite inject_Z_plus. change (inject_Z 1) with 1.
    split; lra.
Qed.

Lemma round_half_even_Z z : round_half_even (inject_Z z) = z.
Proof.
  pose proof (round_half_even_bounds (inject_Z z) z z) as H.
  assert (Hz : inject_Z z <= inject_Z z) by apply Qle_refl.
  specialize (H Hz Hz). lia.
Qed.

Lemma round_half_even_mono x y :
  x <= y -> (round_half_even x <= round_half_even y)%Z.
Proof.
  intros Hxy.
  destruct (Z.le_gt_cases (round_half_even x) (round_half_even y)) as [H|H];
    [exact H|].
  exfalso.
  destruct (round_half_even_close x) as [_ Hx].
  destruct (round_half_even_close y) as [Hy _].
  assert (H1 : inject_Z (round_half_even y) + 1 <= inject_Z (round_half_even x)).
  { change 1 with (inject_Z 1). rewrite <- inject_Z_plus, <- Zle_Qle. lia. }
  assert (Exy : x == y) by lra.
  rewrite (round_half_even_proper _ _ Exy) in H. lia.
Qed.

(** *** Rounding to binary64 *)

Lemma ilog2_mono p q : 0 < p -> p <= q -> (ilog2 p <= ilog2 q)%Z.
Proof.
  intros Hp Hpq.
  destruct (ilog2_spec p Hp) as [H1 _].
  destruct (ilog2_spec q) as [_ H2]; [lra|].
  assert (H : pow2 (ilog2 p) < pow2 (ilog2 q + 1)) by lra.
  apply pow2_lt_inv in H. lia.
Qed.

(** The scaled value lies below [2^53], and at or above [2^52] unless
    the number is subnormal. *)
Lemma scaled_range q :
  0 < q ->
  0 < q / pow2 (ulp_exponent q)
  /\ q / pow2 (ulp_exponent q) < inject_Z (2 ^ 53)
  /\ ((-1074 < ulp_exponent q)%Z ->
      inject_Z (2 ^ 52) <= q / pow2 (ulp_exponent q)).
Proof.
  intros Hq. destruct (ilog2_spec q Hq) as [H1 H2].
  pose proof (pow2_pos (ulp_exponent q)) as He.
  unfold ulp_exponent in *. set (k := ilog2 q) in *.
  set (e := Z.max (k - 52) (-1074)) in *.
  split; [|split].
  - apply Qlt_shift_div_l; [exact He | lra].
  - apply Qlt_shift_div_r; [exact He|].
    rewrite <- (pow2_Z 53) by lia. rewrite <- pow2_add.
    eapply Qlt_le_trans; [exact H2|]. apply pow2_le. lia.
  - intros Hn. apply Qle_shift_div_l; [exact He|].
    rewrite <- (pow2_Z 52) by lia. rewrite <- pow2_add.
    eapply Qle_trans; [|exact H1]. apply pow2_le. lia.
Qed.

Lemma round_pos_nonneg q : 0 < q -> 0 <= round_pos q.
Proof.
  intros Hq. unfold round_pos.
  destruct (scaled_range q Hq) as (H0 & H1 & _).
  apply Qmult_le_0_compat; [|apply Qlt_le_weak, pow2_pos].
  change 0 with (inject_Z 0). rewrite <- Zle_Qle.
  apply (round_half_even_bounds _ 0 (2 ^ 53));
    [change (inject_Z 0) with 0|]; lra.
Qed.

Lemma round_pos_mono p q : 0 < p -> p <= q -> round_pos p <= round_pos q.
Proof.
  intros Hp Hpq. assert (Hq : 0 < q) by lra.
  destruct (scaled_range p Hp) as (Hp0 & Hp1 & _).
  destruct (scaled_range q Hq) as (Hq0 & Hq1 & Hq2).
  assert (He : (ulp_exponent p <= ulp_exponent q)%Z).
  { unfold ulp_exponent. pose proof (ilog2_mono p q Hp Hpq). lia. }
  assert (Hmin : (-1074 <= ulp_exponent p)%Z) by (unfold ulp_exponent; lia).
  unfold round_pos.
  set (e1 := ulp_exponent p) in *. set (e2 := ulp_exponent q) in *.
  pose proof (pow2_pos e1) as He1. pose proof (pow2_pos e2) as He2.
  apply Zle_lt_or_eq in He as [He|He].
  - (* different binades *)
    assert (Hmp : inject_Z (round_half_even (p / pow2 e1)) <= inject_Z (2 ^ 53)).
    { rewrite <- Zle_Qle.
      apply (round_half_even_bounds _ 0 (2 ^ 53));
        [change (inject_Z 0) with 0|]; lra. }
    assert (Hmq : inject_Z (2 ^ 52) <= inject_Z (round_half_even (q / pow2 e2))).
    { rewrite <- Zle_Qle.
      apply (round_half_even_bounds _ (2 ^ 52) (2 ^ 53)); [apply Hq2; lia | lra]. }
    apply Qle_trans with (inject_Z (2 ^ 53) * pow2 e1).
    { apply Qmult_le_compat_r; [exact Hmp | lra]. }
    apply Qle_trans with (inject_Z (2 ^ 52) * pow2 e2).
    { rewrite <- (pow2_Z 53), <- (pow2_Z 52) by lia. rewrite <- !pow2_add.
      apply pow2_le. lia. }
    apply Qmult_le_compat_r; [exact Hmq | lra].
  - rewrite <- He. apply Qmult_le_compat_r; [|lra].
    rewrite <- Zle_Qle. apply round_half_even_mono.
    apply Qmult_le_compat_r; [exact Hpq|].
    apply Qlt_le_weak, Qinv_lt_0_compat, He1.
Qed.

Lemma Qnum_pos q : 0 < q <-> (0 < Qnum q)%Z.
Proof. unfold Qlt. simpl. lia. Qed.

Lemma Qnum_neg q : q < 0 <-> (Qnum q < 0)%Z.
Proof. unfold Qlt. simpl. lia. Qed.

Lemma Qnum_zero q : q == 0 <-> Qnum q = 0%Z.
Proof. unfold Qeq. simpl. lia. Qed.

Lemma b64_pos q : 0 < q -> b64 q == round_pos (Qred q).
Proof.
  intros Hq. unfold b64. rewrite <- (Qred_correct q) in Hq.
  apply Qnum_pos in Hq.
  destruct (Qnum (Qred q)); try lia. apply Qred_correct.
Qed.

Lemma b64_neg q : q < 0 -> b64 q == - round_pos (- Qred q).
Proof.
  intros Hq. unfold b64. rewrite <- (Qred_correct q) in Hq.
  apply Qnum_neg in Hq.
  destruct (Qnum (Qred q)); try lia. apply Qred_correct.
Qed.

Lemma b64_zero q : q == 0 -> b64 q == 0.
Proof.
  intros Hq. unfold b64. rewrite <- (Qred_correct q) in Hq.
  apply Qnum_zero in Hq. now rewrite Hq.
Qed.

#[global] Instance b64_proper : Proper (Qeq ==> eq) b64.
Proof. intros p q H. unfold b64. now rewrite (Qred_complete _ _ H). Qed.

#[global] Instance b64_proper_Qeq : Proper (Qeq ==> Qeq) b64.
Proof. intros p q H. now rewrite (b64_proper _ _ H). Qed.

Lemma b64_nonneg q : 0 <= q -> 0 <= b64 q.
Proof.
  intros Hq. apply Qle_lteq in Hq as [Hq|Hq].
  - rewrite (b64_pos q Hq). apply round_pos_nonneg. now rewrite Qred_correct.
  - rewrite (b64_zero q); [apply Qle_refl | now symmetry].
Qed.

Lemma b64_nonpos q : q <= 0 -> b64 q <= 0.
Proof.
  intros Hq. apply Qle_lteq in Hq as [Hq|Hq].
  - rewrite (b64_neg q Hq).
    assert (H : 0 <= round_pos (- Qred q)).
    { apply round_pos_nonneg. rewrite Qred_correct. lra. }
    lra.
  - rewrite (b64_zero q Hq). apply Qle_refl.
Qed.

(** Rounding is monotone. *)
Theorem b64_mono p q : p <= q -> b64 p <= b64 q.
Proof.
  intros Hpq.
  destruct (Qlt_le_dec 0 p) as [Hp|Hp].
  - rewrite (b64_pos p Hp), (b64_pos q) by lra.
    apply round_pos_mono; rewrite !Qred_correct; assumption.
  - destruct (Qlt_le_dec q 0) as [Hq|Hq].
    + rewrite (b64_neg q Hq), (b64_neg p) by lra.
      apply Qopp_le_compat.
      apply round_pos_mono; rewrite !Qred_correct; lra.
    + apply Qle_trans with 0; [now apply b64_nonpos | now apply b64_nonneg].
Qed.

Lemma round_pos_fixed m e :
  (0 < m <= 2 ^ 53)%Z -> (-1074 <= e)%Z ->
  forall q, q == inject_Z m * pow2 e -> round_pos q == q.
Proof.
  intros Hm He q Eq.
  assert (Hq : 0 < q).
  { rewrite Eq. apply Qmult_lt_0_compat; [|apply pow2_pos].
    change 0 with (inject_Z 0). rewrite <- Zlt_Qlt. lia. }
  destruct (ilog2_spec q Hq) as [H1 H2].
  unfold round_pos.
  assert (Hk : (ilog2 q <= e + 53)%Z).
  { assert (H : pow2 (ilog2 q) < pow2 (e + 54)).
    { eapply Qle_lt_trans; [exact H1|]. rewrite Eq.
      replace (e + 54)%Z with (54 + e)%Z by lia. rewrite pow2_add.
      apply Qmult_lt_compat_r; [apply pow2_pos|].
      rewrite (pow2_Z 54) by lia. rewrite <- Zlt_Qlt. lia. }
    apply pow2_lt_inv in H. lia. }
  assert (Hint : exists z, q / pow2 (ulp_exponent q) == inject_Z z).
  { unfold ulp_exponent.
    destruct (Z.le_gt_cases (Z.max (ilog2 q - 52) (-1074)) e) as [Hle|Hgt].
    - set (E := Z.max (ilog2 q - 52) (-1074)) in *.
      exists (m * 2 ^ (e - E))%Z.
      rewrite div_pow2, Eq, <- Qmult_assoc, <- pow2_add.
      rewrite inject_Z_mult, <- pow2_Z by lia.
      apply Qmult_comp; [reflexivity|]. apply Qpower_comp; [reflexivity | lia].
    - (* only for m = 2^53 *)
      assert (Hke : ilog2 q = (e + 53)%Z) by lia.
      assert (Hm53 : m = (2 ^ 53)%Z).
      { assert (H : pow2 (e + 53) <= inject_Z m * pow2 e).
        { rewrite <- Eq, <- Hke. exact H1. }
        replace (e + 53)%Z with (53 + e)%Z in H by lia.
        rewrite pow2_add in H.
        apply Qmult_le_r in H; [|apply pow2_pos].
        rewrite (pow2_Z 53) in H by lia. rewrite <- Zle_Qle in H. lia. }
      exists (2 ^ 52)%Z.
      replace (Z.max (ilog2 q - 52) (-1074)) with (e + 1)%Z by lia.
      clear H1 H2 Hk Hgt Hke.
      rewrite div_pow2, Eq, Hm53, <- Qmult_assoc, <- pow2_add.
      replace (e + - (e + 1))%Z with (-1)%Z by lia. reflexivity. }
  destruct Hint as [z Hz].
  rewrite (round_half_even_proper _ _ Hz), round_half_even_Z, <- Hz.
  field. apply Qnot_eq_sym, Qlt_not_eq, pow2_pos.
Qed.

(** Integers of at most 53 bits scaled by a power of two, down to the
    smallest subnormal, are binary64 numbers. *)
Lemma binary64_scaled m e :
  (- 2 ^ 53 <= m <= 2 ^ 53)%Z -> (-1074 <= e)%Z ->
  binary64 (inject_Z m * pow2 e).
Proof.
  intros Hm He. unfold binary64.
  set (q := inject_Z m * pow2 e).
  destruct (Z.lt_trichotomy m 0) as [Hneg|[Hz|Hpos]].
  - assert (Hq : q < 0).
    { assert (H : 0 < inject_Z (- m) * pow2 e).
      { apply Qmult_lt_0_compat; [|apply pow2_pos].
        change 0 with (inject_Z 0). rewrite <- Zlt_Qlt. lia. }
      rewrite inject_Z_opp in H. unfold q.
      assert (E : - inject_Z m * pow2 e == - (inject_Z m * pow2 e)) by ring.
      rewrite E in H. lra. }
    rewrite (b64_neg q Hq).
    rewrite (round_pos_fixed (- m) e); [rewrite Qred_correct; ring | lia | lia |].
    rewrite Qred_correct. unfold q. rewrite inject_Z_opp. ring.
  - assert (E : q == 0) by (unfold q; rewrite Hz; ring).
    rewrite (b64_zero q E). now symmetry.
  - assert (Hq : 0 < q).
    { unfold q. apply Qmult_lt_0_compat; [|apply pow2_pos].
      change 0 with (inject_Z 0). rewrite <- Zlt_Qlt. exact Hpos. }
    rewrite (b64_pos q Hq).
    rewrite (round_pos_fixed m e); [apply Qred_correct | lia | lia |].
    apply Qred_correct.
Qed.

Lemma binary64_Z n : (- 2 ^ 53 <= n <= 2 ^ 53)%Z -> binary64 (inject_Z n).
Proof.
  intros Hn. unfold binary64.
  assert (E : inject_Z n == inject_Z n * pow2 0) by (unfold pow2; simpl; ring).
  rewrite E at 2. rewrite (b64_proper _ _ E).
  apply (binary64_scaled n 0); [exact Hn | lia].
Qed.

Lemma round_pos_shape q :
  0 < q ->
  exists m e, round_pos q = inject_Z m * pow2 e
              /\ (0 <= m <= 2 ^ 53)%Z /\ (-1074 <= e)%Z.
Proof.
  intros Hq. unfold round_pos. eexists _, _. split; [reflexivity|].
  destruct (scaled_range q Hq) as (H0 & H1 & _).
  split; [|unfold ulp_exponent; lia].
  apply (round_half_even_bounds _ 0 (2 ^ 53));
    [change (inject_Z 0) with 0|]; lra.
Qed.

(** What rounding returns is a binary64 number. *)
Theorem binary64_b64 q : binary64 (b64 q).
Proof.
  unfold binary64.
  destruct (Q_dec q 0) as [[Hq|Hq]|Hq].
  - destruct (round_pos_shape (- Qred q)) as (m & e & E & Hm & He).
    { rewrite Qred_correct. lra. }
    assert (E' : b64 q == inject_Z (- m) * pow2 e).
    { rewrite (b64_neg q Hq), E, inject_Z_opp. ring. }
    rewrite (b64_proper _ _ E'), E'.
    apply binary64_scaled; [lia | exact He].
  - destruct (round_pos_shape (Qred q)) as (m & e & E & Hm & He).
    { now rewrite Qred_correct. }
    assert (E' : b64 q == inject_Z m * pow2 e).
    { now rewrite (b64_pos q Hq), E. }
    rewrite (b64_proper _ _ E'), E'.
    apply binary64_scaled; [lia | exact He].
  - rewrite (b64_proper _ _ (b64_zero q Hq)). rewrite (b64_zero q Hq).
    now apply b64_zero.
Qed.

Lemma b64_le_binary64 q x : binary64 x -> q <= x -> b64 q <= x.
Proof. unfold binary64. intros Hx H. rewrite <- Hx. now apply b64_mono. Qed.

Lemma b64_ge_binary64 q x : binary64 x -> x <= q -> x <= b64 q.
Proof. unfold binary64. intros Hx H. rewrite <- Hx. now apply b64_mono. Qed.

Lemma add_0_l x : binary64 x -> add 0 x == x.
Proof.
  unfold binary64. intros Hx. unfold add.
  assert (E : 0 + x == x) by ring.
  now rewrite (b64_proper _ _ E).
Qed.
(** ** The rounding agrees with the floats of the kernel

    Sums, products, differences and quotients computed by [Binary64]
    are those of the kernel's binary64 arithmetic, down to the
    subnormal numbers and their ties. *)

Example b64_agrees_with_kernel_floats :
  float_value (1 / 10)%float == b64 0.1
  /\ float_value (1 / 10 + 2 / 10)%float == b64 0.1 ⊕ b64 0.2
  /\ float_value (83 / 10 * (95 / 100))%float == b64 8.3 ⊗ b64 0.95
  /\ float_value (22 / 10 + 16 / 10 + 12 / 10 + 6 / 10)%float
     == b64 2.2 ⊕ b64 1.6 ⊕ b64 1.2 ⊕ b64 0.6
  /\ float_value (9025 / 100 * (3 / 10))%float == b64 90.25 ⊗ b64 0.3
  /\ float_value (21401 / 10 - 1 / 10)%float == b64 2140.1 ⊖ b64 0.1
  /\ float_value (6012 / 100 * 25)%float == b64 60.12 ⊗ 25
  /\ float_value (7 / 10 * 30)%float == b64 0.7 ⊗ 30
  /\ float_value (1 / 3)%float == 1 ⊘ 3
  /\ float_value (0x1p-1074 / 2)%float == pow2 (-1074) ⊘ 2
  /\ float_value (0x3p-1074 / 2)%float == (3 * pow2 (-1074)) ⊘ 2.
Proof. vm_compute. repeat split. Qed.

End Binary64Facts.

(** ** core/highlight_selector.py on floats *)

Module Selector64Proofs.
Import Binary64.
Import HighlightSelector Spec HighlightSelector64 Spec64 Samples64 Binary64Facts.

Lemma calculate_is_Ok64 scene d :
  duration scene = Some d -> exists v, _calculate_highlight_score scene = Ok v.
Proof.
  intros H. unfold _calculate_highlight_score. rewrite H. simpl. eauto.
Qed.

Lemma enrich_inv64 subtitles scene scene' :
  enrich subtitles scene = Ok scene' ->
  enriched scene' /\ same_span scene' scene /\ id scene' = id scene.
Proof.
  unfold enrich. intros H.
  apply bind_Ok in H as (s1 & H1 & H).
  apply bind_Ok in H as (v & H2 & H). injection H as <-.
  apply SelectorProofs.add_dialogue_inv in H1 as (s & e & Hs & He & ->).
  unfold _calculate_highlight_score in H2.
  apply bind_Ok in H2 as (d & Hd & _).
  simpl in Hd. destruct (duration scene) as [d'|] eqn:Ed; [|discriminate].
  unfold enriched, same_span. simpl. rewrite Hs, He, Ed.
  repeat split; eauto.
Qed.

Lemma enrich_all_enriched64 subtitles scenes :
  Forall enriched (enrich_all subtitles scenes).
Proof.
  induction scenes as [|scene rest IH]; simpl; [constructor|].
  destruct (enrich subtitles scene) as [scene'|] eqn:E; [|exact IH].
  constructor; [|exact IH]. now apply enrich_inv64 in E.
Qed.

Lemma enrich_all_from64 subtitles scenes :
  Forall (fun s => exists s0, s0 ∈ scenes /\ enrich subtitles s0 = Ok s)
         (enrich_all subtitles scenes).
Proof.
  induction scenes as [|scene rest IH]; simpl; [constructor|].
  assert (IH' : Forall (fun s => exists s0, s0 ∈ scene :: rest
                                      /\ enrich subtitles s0 = Ok s)
                       (enrich_all subtitles rest)).
  { eapply Forall_impl; [exact IH|].
    intros s (s0 & Hin & Hs). exists s0. split; [now right | exact Hs]. }
  destruct (enrich subtitles scene) as [scene'|] eqn:E; [|exact IH'].
  constructor; [|exact IH'].
  exists scene. split; [now left | exact E].
Qed.

Lemma enrich_all_starts64 subtitles scenes :
  map start_of (enrich_all subtitles scenes) `sublist_of` map start_of scenes.
Proof.
  induction scenes as [|scene rest IH]; simpl; [constructor|].
  destruct (enrich subtitles scene) as [scene'|] eqn:E.
  - apply enrich_inv64 in E as (_ & (Hs & _) & _).
    simpl. unfold start_of at 1 3. rewrite Hs. now apply sublist_skip.
  - now apply sublist_cons.
Qed.

(** *** The scan *)

Lemma Scan_sublist64 t l T acc T' : Scan t l T acc T' -> acc `sublist_of` l.
Proof.
  induction 1.
  - constructor.
  - apply sublist_skip, sublist_nil_l.
  - now apply sublist_skip.
  - now apply sublist_cons.
  - apply sublist_nil_l.
Qed.

(** The total at the end of the scan is the binary64 sum of the accepted
    durations, taken in the order of acceptance. *)
Lemma Scan_total t l T acc T' :
  Scan t l T acc T' -> T' = foldl add T (map duration_of acc).
Proof. induction 1; simpl; auto. Qed.

Lemma Scan_budget64 t l T acc T' :
  Scan t l T acc T' -> T <= t \/ acc <> [] -> T' <= t.
Proof.
  induction 1; intros Hb.
  - destruct Hb as [Hb|Hb]; [exact Hb | congruence].
  - assumption.
  - apply IHScan. now left.
  - apply IHScan. destruct Hb as [Hb|Hb]; [lra | now right].
  - destruct Hb as [Hb|Hb]; [exact Hb | congruence].
Qed.

Lemma Scan_each_fits64 t l T acc T' :
  Scan t l T acc T' -> 0 <= T ->
  Forall (fun s => binary64 (duration_of s) /\ 0 <= duration_of s) l ->
  Forall (fun s => duration_of s <= t) acc.
Proof.
  induction 1; intros HT Hl; try apply Forall_cons in Hl as [[Hb Hs] Hl].
  - constructor.
  - constructor; [|constructor].
    eapply Qle_trans; [|eassumption].
    apply b64_ge_binary64; [exact Hb | lra].
  - constructor.
    + eapply Qle_trans; [|eassumption].
      apply b64_ge_binary64; [exact Hb | lra].
    + apply IHScan; [|exact Hl]. apply b64_nonneg. lra.
  - now apply IHScan.
  - constructor.
Qed.

Lemma Scan_deterministic64 t l T acc1 T1 acc2 T2 :
  Scan t l T acc1 T1 -> Scan t l T acc2 T2 -> acc1 = acc2 /\ T1 = T2.
Proof.
  intros H1. revert acc2 T2.
  induction H1 as [| | ? ? ? ? ? ? ? ? IH | ? ? ? ? ? ? ? ? IH |];
    intros acc2 T2 H2; inversion H2; subst;
    try (exfalso; lra); auto;
    match goal with
    | H : Scan _ _ _ _ _ |- _ => destruct (IH _ _ H) as [-> ->]; auto
    end.
Qed.

Lemma greedy_Scan64 t l :
  Forall enriched l ->
  forall sel T sel' T',
    greedy t l sel T = Ok (sel', T') ->
    exists acc, sel' = sel ++ acc /\ Scan t l T acc T'.
Proof.
  induction 1 as [|s l Hs _ IH]; intros sel T sel' T' H; simpl in H.
  - injection H as <- <-. exists []. split; [now rewrite app_nil_r | constructor].
  - destruct Hs as (_ & _ & [d Hd] & _).
    assert (Hdur : duration_of s = d) by (unfold duration_of; now rewrite Hd).
    rewrite Hd in H. simpl in H.
    destruct (Qle_bool (T ⊕ d) t) eqn:Efit.
    + apply Qle_bool_iff in Efit.
      destruct (debug_fields s) as [[]|]; [|discriminate]. simpl in H.
      destruct (Qle_bool (t ⊗ b64 0.95) (T ⊕ d)) eqn:Estop.
      * apply Qle_bool_iff in Estop. injection H as <- <-.
        exists [s]. split; [reflexivity|]. rewrite <- Hdur in *.
        now constructor.
      * apply Qle_bool_false in Estop.
        apply IH in H as (acc & -> & HS).
        exists (s :: acc). split; [now rewrite <- app_assoc|].
        rewrite <- Hdur in *. now constructor.
    + apply Qle_bool_false in Efit. simpl in H.
      destruct (Qle_bool (t ⊗ b64 0.95) T) eqn:Estop.
      * apply Qle_bool_iff in Estop. injection H as <- <-.
        exists []. split; [now rewrite app_nil_r|].
        rewrite <- Hdur in *. now constructor.
      * apply Qle_bool_false in Estop.
        apply IH in H as (acc & -> & HS).
        exists acc. split; [reflexivity|].
        rewrite <- Hdur in *. now constructor.
Qed.

Lemma greedy_is_Ok64 t l :
  Forall enriched l -> Forall (fun s => is_Some (id s)) l ->
  forall sel T, exists st, greedy t l sel T = Ok st.
Proof.
  induction 1 as [|s l Hs _ IH]; intros Hid sel T; simpl; [eauto|].
  apply Forall_cons in Hid as [Hi Hid].
  rewrite (SelectorProofs.debug_fields_Ok s Hs Hi).
  destruct Hs as (_ & _ & [d Hd] & _). rewrite Hd. simpl.
  destruct (Qle_bool (T ⊕ d) t); simpl;
    match goal with |- context [if ?c then _ else _] => destruct c end;
    eauto.
Qed.

Lemma greedy_none_fit64 t l :
  Forall enriched l ->
  Forall (fun s => binary64 (duration_of s) /\ t < duration_of s) l ->
  exists T, greedy t l [] 0 = Ok ([], T).
Proof.
  induction 1 as [|s l Hs _ IH]; intros Hl; simpl; [eauto|].
  apply Forall_cons in Hl as [[Hb Hbig] Hl].
  destruct Hs as (_ & _ & [d Hd] & _).
  unfold duration_of in Hbig, Hb. rewrite Hd in *. simpl in *.
  assert (E : Qle_bool (0 ⊕ d) t = false).
  { apply Qle_bool_false. rewrite (add_0_l d Hb). exact Hbig. }
  rewrite E. simpl.
  destruct (Qle_bool (t ⊗ b64 0.95) 0); [eauto | now apply IH].
Qed.

(** *** The selection as a whole *)

Lemma scan_order_enriched64 scenes subtitles :
  Forall enriched (scan_order scenes subtitles).
Proof.
  unfold scan_order. rewrite sorted_by_perm. apply enrich_all_enriched64.
Qed.

Lemma select_highlights_eq64 scenes subtitles target :
  select_highlights scenes subtitles target
  = (st ← greedy target (scan_order scenes subtitles) [] 0;
     Ok (assign_selected_ids (sorted_by start_of false st.1))).
Proof.
  unfold select_highlights, scan_order.
  assert (Hgen : forall E, Forall enriched E ->
            select_enriched E target
            = (st ← greedy target (sorted_by score_of true E) [] 0;
               Ok (assign_selected_ids (sorted_by start_of false st.1)))).
  { intros E HE. destruct E as [|s E]; [reflexivity|].
    unfold select_enriched.
    rewrite (list_sort_sorted_by score_of).
    2:{ eapply Forall_impl; [exact HE|].
        intros x (_ & _ & _ & [v Hv]). unfold score_of. now rewrite Hv. }
    simpl.
    destruct (greedy target (sorted_by score_of true (s :: E)) [] 0)
      as [[sel T]|e] eqn:Eg; [|reflexivity].
    simpl.
    rewrite (list_sort_sorted_by start_of); [reflexivity|].
    apply greedy_Scan64 in Eg as (acc & -> & HS).
    2:{ rewrite sorted_by_perm. exact HE. }
    simpl. apply Scan_sublist64 in HS.
    assert (Hacc : Forall enriched acc).
    { apply Forall_forall. intros x Hx.
      eapply elem_of_sublist in Hx; [|exact HS].
      rewrite sorted_by_perm in Hx.
      rewrite Forall_forall in HE. now apply HE. }
    eapply Forall_impl; [exact Hacc|].
    intros x ([v Hv] & _). unfold start_of. now rewrite Hv. }
  destruct scenes as [|s scenes]; [reflexivity|].
  apply Hgen, enrich_all_enriched64.
Qed.

Lemma select_highlights_inv64 scenes subtitles target selected :
  select_highlights scenes subtitles target = Ok selected ->
  exists accepted total,
    Scan target (scan_order scenes subtitles) 0 accepted total
    /\ selected = assign_selected_ids (sorted_by start_of false accepted).
Proof.
  rewrite select_highlights_eq64. intros H.
  apply bind_Ok in H as ([sel T] & Hg & H). injection H as <-.
  apply greedy_Scan64 in Hg as (acc & -> & HS); [|apply scan_order_enriched64].
  eauto.
Qed.

Lemma scan_order_from scenes subtitles s :
  s ∈ scan_order scenes subtitles ->
  exists s0, s0 ∈ scenes /\ enrich subtitles s0 = Ok s.
Proof.
  intros Hs. unfold scan_order in Hs. rewrite sorted_by_perm in Hs.
  pose proof (enrich_all_from64 subtitles scenes) as Hfrom.
  rewrite Forall_forall in Hfrom. exact (Hfrom _ Hs).
Qed.

Lemma selected_from64 scenes subtitles target selected s :
  select_highlights scenes subtitles target = Ok selected ->
  s ∈ selected ->
  exists s0 s' v,
    s0 ∈ scenes /\ enrich subtitles s0 = Ok s' /\ s = set_selected_id s' v.
Proof.
  intros H Hs.
  apply select_highlights_inv64 in H as (acc & T & HS & ->).
  apply SelectorProofs.elem_of_assign_selected_ids in Hs as (s' & v & Hs' & ->).
  rewrite sorted_by_perm in Hs'.
  eapply elem_of_sublist in Hs'; [|exact (Scan_sublist64 _ _ _ _ _ HS)].
  destruct (scan_order_from _ _ _ Hs') as (s0 & Hin & He).
  exists s0, s', v. auto.
Qed.

Lemma scan_order_durations (P : Q -> Prop) scenes subtitles :
  (forall s0 d, s0 ∈ scenes -> duration s0 = Some d -> P d) ->
  Forall (fun s => P (duration_of s)) (scan_order scenes subtitles).
Proof.
  intros HP. apply Forall_forall. intros s Hs.
  destruct (scan_order_from _ _ _ Hs) as (s0 & Hin & He).
  apply enrich_inv64 in He as ((_ & _ & [d Hd] & _) & (_ & _ & Hdur) & _).
  unfold duration_of. rewrite Hd. simpl.
  apply (HP s0 d Hin). now rewrite <- Hdur.
Qed.

Lemma select_highlights_none_fit64 scenes subtitles target :
  (forall s0 d, s0 ∈ scenes -> duration s0 = Some d ->
                binary64 d /\ target < d) ->
  select_highlights scenes subtitles target = Ok [].
Proof.
  intros Hbig. rewrite select_highlights_eq64.
  destruct (greedy_none_fit64 target (scan_order scenes subtitles)) as [T HT].
  - apply scan_order_enriched64.
  - apply (scan_order_durations (fun d => binary64 d /\ target < d)), Hbig.
  - rewrite HT. reflexivity.
Qed.

Lemma select_highlights_is_Ok64 scenes subtitles target :
  (forall s0, s0 ∈ scenes -> is_Some (id s0)) ->
  exists selected, select_highlights scenes subtitles target = Ok selected.
Proof.
  intros Hid. rewrite select_highlights_eq64.
  destruct (greedy_is_Ok64 target (scan_order scenes subtitles)) with (sel := @nil Scene) (T := 0)
    as [st Hst].
  - apply scan_order_enriched64.
  - apply Forall_forall. intros s Hs.
    destruct (scan_order_from _ _ _ Hs) as (s0 & Hin & He).
    apply enrich_inv64 in He as (_ & _ & ->). now apply Hid.
  - rewrite Hst. simpl. eauto.
Qed.

(** C1 (budget invariant), as the code computes it.  Whatever the
    scenes, the subtitles and the target:
    - a returned selection is made of the scenes that the scan accepted,
      a sublist [accepted] of the scan order, put in chronological order
      and numbered; the total that the loop accumulates, the binary64
      sum of their durations in the order of the scan, is at most
      [target_duration], for a target that is not negative or as soon as
      something is selected;
    - every selected scene has the span of an input scene (start, end
      and duration unchanged: nothing is truncated), so that, the
      durations being non-negative floats, no selected scene is longer
      than the target on its own;
    - when no scene fits (every duration exceeds the target, or there is
      no scene at all) the function returns the empty list without
      raising;
    - and when every scene carries an ['id'] the function does return.
    The exact sum of the selected durations is not bounded by the
    target: see [selection_budget_counterexample]. *)
Theorem selection_budget scenes subtitles target_duration :
  (forall selected,
      select_highlights scenes subtitles target_duration = Ok selected ->
      (exists accepted,
          accepted `sublist_of` scan_order scenes subtitles
          /\ selected = assign_selected_ids (sorted_by start_of false accepted)
          /\ map duration_of selected ≡ₚ map duration_of accepted
          /\ (0 <= target_duration \/ selected <> [] ->
              running_total (map duration_of accepted) <= target_duration))
      /\ Forall (fun s => is_Some (duration s)
                          /\ exists s0, s0 ∈ scenes /\ same_span s s0) selected
      /\ ((forall s0 d, s0 ∈ scenes -> duration s0 = Some d ->
                        binary64 d /\ 0 <= d) ->
          Forall (fun s => duration_of s <= target_duration) selected))
  /\ ((forall s0 d, s0 ∈ scenes -> duration s0 = Some d ->
                    binary64 d /\ target_duration < d) ->
      select_highlights scenes subtitles target_duration = Ok [])
  /\ select_highlights [] subtitles target_duration = Ok []
  /\ ((forall s0, s0 ∈ scenes -> is_Some (id s0)) ->
      exists selected,
        select_highlights scenes subtitles target_duration = Ok selected).
Proof.
  split; [|split; [apply select_highlights_none_fit64
                  |split; [reflexivity | apply select_highlights_is_Ok64]]].
  intros selected Hsel.
  pose proof (fun s => selected_from64 _ _ _ _ s Hsel) as Hfrom.
  apply select_highlights_inv64 in Hsel as (acc & T & HS & ->).
  assert (Hdur : map duration_of (assign_selected_ids (sorted_by start_of false acc))
                 ≡ₚ map duration_of acc).
  { rewrite SelectorProofs.map_assign_selected_ids by reflexivity.
    apply map_perm, sorted_by_perm. }
  split; [|split].
  - exists acc. split; [exact (Scan_sublist64 _ _ _ _ _ HS)|].
    split; [reflexivity|]. split; [exact Hdur|].
    intros Hb. unfold running_total.
    rewrite <- (Scan_total _ _ _ _ _ HS).
    apply (Scan_budget64 _ _ _ _ _ HS).
    destruct Hb as [Hb|Hb]; [now left | right].
    intros ->. apply Hb. reflexivity.
  - apply Forall_forall. intros s Hs.
    destruct (Hfrom s Hs) as (s0 & s' & v & Hin & He & ->).
    apply enrich_inv64 in He as ((_ & _ & Hd & _) & Hspan & _).
    split; [exact Hd|]. exists s0. split; [exact Hin | exact Hspan].
  - intros Hpos.
    assert (Hfit : Forall (fun s => duration_of s <= target_duration) acc).
    { apply (Scan_each_fits64 _ _ _ _ _ HS); [apply Qle_refl|].
      apply (scan_order_durations (fun d => binary64 d /\ 0 <= d)), Hpos. }
    apply Forall_forall. intros s Hs.
    apply SelectorProofs.elem_of_assign_selected_ids in Hs as (s' & v & Hs' & ->).
    rewrite sorted_by_perm in Hs'.
    rewrite Forall_forall in Hfit. exact (Hfit _ Hs').
Qed.

Lemma chronological_starts64 scenes :
  chronological scenes -> StronglySorted Qlt (map start_of scenes).
Proof.
  intros [Hpos Hs]. apply (StronglySorted_map start_of Qlt).
  induction Hs as [|s l Hl IH Hs]; [constructor|].
  apply Forall_cons in Hpos as [Hp Hpos].
  constructor; [auto|].
  eapply Forall_impl; [exact Hs|].
  intros b Hb. simpl in Hb.
  destruct Hp as (st & en & d & Hst & Hen & _ & Hd & Hspan).
  unfold start_of, end_of in *. rewrite Hst. rewrite Hen in Hb. simpl in *.
  assert (Hlt : st < en).
  { destruct (Qlt_le_dec st en) as [H|H]; [exact H|].
    assert (H0 : en ⊖ st <= 0) by (apply b64_nonpos; lra). lra. }
  lra.
Qed.

Lemma selected_starts64 scenes subtitles target selected :
  select_highlights scenes subtitles target = Ok selected ->
  map start_of selected ⊆+ map start_of scenes.
Proof.
  intros H. apply select_highlights_inv64 in H as (acc & T & HS & ->).
  rewrite SelectorProofs.map_assign_selected_ids by reflexivity.
  rewrite (map_perm _ _ _ (sorted_by_perm start_of false acc)).
  transitivity (map start_of (scan_order scenes subtitles)).
  - apply sublist_submseteq.
    apply (fmap_sublist start_of), (Scan_sublist64 _ _ _ _ _ HS).
  - unfold scan_order.
    rewrite (map_perm _ _ _ (sorted_by_perm score_of true _)).
    apply sublist_submseteq, enrich_all_starts64.
Qed.

(** C2 (the selection algorithm), every test being the one the code
    makes on floats.
    - The scenes are scanned in the order given by a stable sort of the
      enriched scenes by descending ['highlight_score']: the scan order is
      a permutation of the enriched scenes, scores never increase along
      it, and scenes of equal score keep their original order.
    - The scan follows the rules of [Scan], which determine what is
      accepted: a scene is accepted exactly when the running total plus
      its duration is at most the target, a scene that would overflow is
      passed over and the scan goes on, and the scan stops once the
      running total has reached [target_duration * 0.95].
    - The result is the accepted scenes in ascending ['start_time'] order,
      numbered [1..N] by ['selected_id'] in that order.
    - If the input is chronological (non-overlapping, sorted by start time,
      positive durations) the start times of the result strictly increase.
    - The function returns whenever every scene carries an ['id']. *)
Theorem selection_algorithm scenes subtitles target_duration :
  (scan_order scenes subtitles ≡ₚ enrich_all subtitles scenes
   /\ StronglySorted (fun a b => score_of b <= score_of a)
                     (scan_order scenes subtitles)
   /\ forall k,
       filter (fun s => Qeq_bool (score_of s) k = true)
              (scan_order scenes subtitles)
       = filter (fun s => Qeq_bool (score_of s) k = true)
                (enrich_all subtitles scenes))
  /\ (forall selected,
         select_highlights scenes subtitles target_duration = Ok selected ->
         exists accepted total chrono,
           Scan target_duration (scan_order scenes subtitles) 0 accepted total
           /\ (forall accepted' total',
                 Scan target_duration (scan_order scenes subtitles) 0
                      accepted' total' ->
                 accepted' = accepted)
           /\ chrono ≡ₚ accepted
           /\ StronglySorted (fun a b => start_of a <= start_of b) chrono
           /\ selected
              = imap (fun i s => set_selected_id s (Z.of_nat i + 1)) chrono
           /\ (forall i s, selected !! i = Some s ->
                           selected_id s = Some (Z.of_nat i + 1)%Z)
           /\ StronglySorted (fun a b => start_of a <= start_of b) selected
           /\ (chronological scenes ->
               StronglySorted (fun a b => start_of a < start_of b) selected))
  /\ ((forall s0, s0 ∈ scenes -> is_Some (id s0)) ->
      exists selected,
        select_highlights scenes subtitles target_duration = Ok selected).
Proof.
  split; [|split; [|apply select_highlights_is_Ok64]].
  - unfold scan_order. split; [apply sorted_by_perm|].
    split; [apply (sorted_by_sorted score_of true)|].
    intros k. apply (sorted_by_stable score_of true k).
  - intros selected Hsel.
    pose proof (selected_starts64 _ _ _ _ Hsel) as Hstarts.
    apply select_highlights_inv64 in Hsel as (acc & T & HS & ->).
    exists acc, T, (sorted_by start_of false acc).
    assert (Hsorted : StronglySorted (fun a b => start_of a <= start_of b)
                        (assign_selected_ids (sorted_by start_of false acc))).
    { apply (StronglySorted_map start_of Qle).
      rewrite SelectorProofs.map_assign_selected_ids by reflexivity.
      apply (StronglySorted_map start_of Qle), (sorted_by_sorted start_of false). }
    split; [exact HS|].
    split; [intros acc' T' HS';
            exact (proj1 (Scan_deterministic64 _ _ _ _ _ _ _ HS' HS))|].
    split; [apply sorted_by_perm|].
    split; [apply (sorted_by_sorted start_of false)|].
    split; [reflexivity|]. split; [|split; [exact Hsorted|]].
    + intros i s Hi.
      apply SelectorProofs.assign_selected_ids_lookup in Hi as (s' & _ & ->).
      reflexivity.
    + intros Hchron. apply (StronglySorted_map start_of Qlt), strictly_sorted.
      * now apply (StronglySorted_map start_of Qle).
      * eapply StronglySorted_submseteq; [|exact Hstarts|].
        { intros a b Hab Hba. apply Hab. now symmetry. }
        eapply StronglySorted_weaken; [|apply chronological_starts64, Hchron].
        intros a b Hab Heq. rewrite Heq in Hab. exact (Qlt_irrefl _ Hab).
Qed.

(** *** The score *)

Lemma duration_score_spec64 d :
  HighlightSelector64.duration_score d == Spec64.duration_score 3 d.
Proof.
  unfold HighlightSelector64.duration_score, Spec64.duration_score.
  destruct (decide (5 <= d /\ d <= 15)) as [[H1 H2]|Hn].
  - apply Qle_bool_iff in H1, H2. now rewrite H1, H2.
  - destruct (Qle_bool 5 d) eqn:E1; simpl.
    + destruct (Qle_bool d 15) eqn:E2; simpl.
      * apply Qle_bool_iff in E1, E2. tauto.
      * apply Qle_bool_iff in E1. apply Qle_bool_false in E2.
        destruct (decide (d < 5)) as [H|H]; [lra|].
        assert (E : Qlt_bool d 5 = false) by (apply Qlt_bool_false; lra).
        rewrite E. apply py_max_Qmax.
    + apply Qle_bool_false in E1.
      destruct (decide (d < 5)) as [H|H]; [|lra].
      apply Qlt_bool_iff in H. now rewrite H.
Qed.

Lemma mul_comm a b : a ⊗ b = b ⊗ a.
Proof. unfold mul. apply b64_proper. ring. Qed.

Lemma mul_0_l a : 0 ⊗ a = 0.
Proof.
  unfold mul. assert (E : 0 * a == 0) by ring.
  now rewrite (b64_proper _ _ E).
Qed.

Lemma div_0_l a : 0 ⊘ a = 0.
Proof.
  unfold div. assert (E : 0 / a == 0) by (unfold Qdiv; ring).
  now rewrite (b64_proper _ _ E).
Qed.

#[global] Instance add_Proper : Proper (Qeq ==> Qeq ==> Qeq) add.
Proof. intros a a' Ha b b' Hb. unfold add. now rewrite Ha, Hb. Qed.

#[global] Instance sub_Proper : Proper (Qeq ==> Qeq ==> Qeq) sub.
Proof. intros a a' Ha b b' Hb. unfold sub. now rewrite Ha, Hb. Qed.

#[global] Instance mul_Proper : Proper (Qeq ==> Qeq ==> Qeq) mul.
Proof. intros a a' Ha b b' Hb. unfold mul. now rewrite Ha, Hb. Qed.

#[global] Instance div_Proper : Proper (Qeq ==> Qeq ==> Qeq) div.
Proof. intros a a' Ha b b' Hb. unfold div. now rewrite Ha, Hb. Qed.

Lemma binary64_mul a b : binary64 (a ⊗ b).
Proof. apply binary64_b64. Qed.

Lemma calculate_highlight_score_spec64 scene d :
  duration scene = Some d -> 0 < d ->
  _calculate_highlight_score scene
  = Ok (dialogue_only_score
          (String.length (default ""%string (dialogue scene)))
          (default 0%nat (subtitle_count scene)) d).
Proof.
  intros Hd Hpos.
  unfold _calculate_highlight_score, dialogue_only_score.
  rewrite Hd. simpl. f_equal. unfold round64. f_equal. apply py_round_proper.
  assert (Hlt : Qlt_bool 0 d = true) by now apply Qlt_bool_iff.
  rewrite Hlt.
  set (len := String.length (default ""%string (dialogue scene))).
  set (n := default 0%nat (subtitle_count scene)).
  assert (H1 : (if (0 <? len)%nat
                then py_min (Qnat len ⊘ d ⊘ 8 ⊗ 100) 100 else 0)
               == Qmin (Qnat len ⊘ d ⊘ 8 ⊗ 100) 100).
  { destruct len as [|len]; simpl.
    - change (Qnat 0) with 0. rewrite !div_0_l, mul_0_l.
      symmetry. apply Q.min_l. discriminate.
    - apply py_min_Qmin. }
  assert (H2 : (if (0 <? n)%nat then py_min (Qnat n * 20) 100 else 0)
               == Qmin (Qnat n * 20) 100).
  { destruct n as [|n]; simpl.
    - assert (E : Qnat 0 * 20 == 0) by (unfold Qnat; simpl; ring).
      rewrite E. symmetry. apply Q.min_l. lra.
    - apply py_min_Qmin. }
  rewrite (add_0_l _ (binary64_mul _ _)).
  rewrite H1, H2, duration_score_spec64.
  rewrite (mul_comm _ (b64 0.4)), !(mul_comm _ (b64 0.3)).
  reflexivity.
Qed.

(** C4 (dialogue-only score).  For a scene of positive duration the
    score is the weighted sum of the specification, each operation the
    one of Python's floats, rounded to 2 decimals; the duration
    component follows the 5-15 second breakpoints with falloff 3, and is
    100, 40, 85 and 55 at durations 10, 2, 20 and 30. *)
Theorem dialogue_score_formula scene d :
  duration scene = Some d -> 0 < d ->
  _calculate_highlight_score scene
  = Ok (dialogue_only_score
          (String.length (default ""%string (dialogue scene)))
          (default 0%nat (subtitle_count scene)) d)
  /\ (forall d', HighlightSelector64.duration_score d'
                 == Spec64.duration_score 3 d')
  /\ HighlightSelector64.duration_score 10 == 100
  /\ HighlightSelector64.duration_score 2 == 40
  /\ HighlightSelector64.duration_score 20 == 85
  /\ HighlightSelector64.duration_score 30 == 55.
Proof.
  intros Hd Hpos.
  split; [now apply calculate_highlight_score_spec64|].
  split; [exact duration_score_spec64 | repeat split; reflexivity].
Qed.

Lemma dialogue_score_formula_witness :
  _calculate_highlight_score scenario_scene1
  = Ok (dialogue_only_score 80 4 8).
Proof.
  exact (proj1 (dialogue_score_formula scenario_scene1 8 eq_refl eq_refl)).
Defined.

(** It is the binary64 sum that is rounded: a silent scene of 18.25
    seconds scores 27.07, where the exact sum, 27.075, would round to
    27.08. *)
Example score_rounds_the_binary_sum :
  _calculate_highlight_score (timed_scene 1 0 18.25) = Ok (b64 27.07)
  /\ HighlightSelector._calculate_highlight_score (timed_scene 1 0 18.25)
     = Ok 27.08.
Proof. split; vm_compute; reflexivity. Qed.

(** Against C1 as worded.  With scenes of 1.6, 0.6, 1.2 and 2.2 seconds
    and a target of 5.6 seconds all four scenes are selected, the
    running total [2.2 + 1.6 + 1.2 + 0.6] being 5.6 in binary64; their
    durations sum to more than the target, whether added exactly or one
    by one as floats in the order of the output.  And with a negative
    target the selection is empty, and its sum, 0, is above the
    target. *)
Lemma selection_budget_counterexample :
  (exists selected,
      select_highlights budget_scenes [] (b64 5.6) = Ok selected
      /\ length selected = 4%nat
      /\ ~ (Qsum (map duration_of selected) <= b64 5.6)
      /\ ~ (running_total (map duration_of selected) <= b64 5.6))
  /\ select_highlights [] [] (-1) = Ok []
  /\ ~ (Qsum (map duration_of []) <= -1).
Proof.
  split; [|split; [reflexivity | vm_compute; intros H; now apply H]].
  eexists. split; [vm_compute; reflexivity|].
  split; [reflexivity|]. split; vm_compute; intros H; now apply H.
Qed.

Lemma selection_budget_witness :
  exists selected accepted,
    select_highlights budget_scenes [] (b64 5.6) = Ok selected
    /\ selected = assign_selected_ids (sorted_by start_of false accepted)
    /\ running_total (map duration_of accepted) <= b64 5.6
    /\ Forall (fun s => duration_of s <= b64 5.6) selected.
Proof.
  destruct (selection_budget budget_scenes [] (b64 5.6))
    as (Hsel & _ & _ & Hret).
  destruct Hret as [selected Hs].
  { intros s0 Hin. repeat (apply elem_of_cons in Hin as [->|Hin]; [eexists; reflexivity|]).
    now apply elem_of_nil in Hin. }
  destruct (Hsel selected Hs) as ((accepted & _ & Heq & _ & Hsum) & _ & Hfit).
  exists selected, accepted. split; [exact Hs|]. split; [exact Heq|].
  split.
  - apply Hsum. left. discriminate.
  - apply Hfit. intros s0 d Hin Hd.
    repeat (apply elem_of_cons in Hin as [->|Hin];
            [injection Hd as <-; split; [vm_compute; reflexivity | discriminate]|]).
    now apply elem_of_nil in Hin.
Defined.

Lemma scenario_chronological : chronological [scenario_scene1; scenario_scene2].
Proof.
  split.
  - repeat constructor.
    + exists 0, 8, 8. repeat split; reflexivity.
    + exists 8, 20, 12. repeat split; reflexivity.
  - repeat constructor. discriminate.
Defined.

Lemma selection_algorithm_witness :
  exists selected,
    select_highlights [scenario_scene1; scenario_scene2] scenario_subtitles 20
    = Ok selected
    /\ StronglySorted (fun a b => start_of a < start_of b) selected.
Proof.
  destruct (selection_algorithm [scenario_scene1; scenario_scene2]
              scenario_subtitles 20) as (_ & Hsel & Hret).
  destruct Hret as [selected Hs].
  { apply SelectorProofs.scenario_scenes_elem; eexists; reflexivity. }
  exists selected. split; [exact Hs|].
  destruct (Hsel selected Hs)
    as (acc & T & chrono & _ & _ & _ & _ & _ & _ & _ & Hstrict).
  exact (Hstrict scenario_chronological).
Defined.

(** The tests of the scan are those of binary64: [8.3 * 0.95] is
    7.885000000000001, so that a first scene of 7.885 seconds does not
    stop the scan, and the scene of 0.4 seconds that follows is
    selected too. *)
Example scan_tests_are_binary64 :
  exists x y,
    select_highlights [timed_scene 1 0 7.885; timed_scene 2 8 0.4] []
                      (b64 8.3)
    = Ok [x; y]
    /\ b64 7.885 < b64 8.3 ⊗ b64 0.95.
Proof. eexists _, _. split; vm_compute; reflexivity. Qed.

Lemma enrich_without_subtitles scene s' :
  enrich [] scene = Ok s' ->
  dialogue s' = Some ""%string /\ subtitle_count s' = Some 0%nat
  /\ exists d, duration scene = Some d
               /\ highlight_score s'
                  = Some (round64 (HighlightSelector64.duration_score d
                                   ⊗ b64 0.3) 2).
Proof.
  unfold enrich, _add_dialogue_to_scene, _calculate_highlight_score.
  destruct (start_time scene); simpl; [|discriminate].
  destruct (end_time scene); simpl; [|discriminate].
  destruct (duration scene) as [d|]; simpl; [|discriminate].
  intros [= <-]. simpl. repeat split. exists d. split; [reflexivity|].
  f_equal. unfold round64. f_equal. apply py_round_proper.
  rewrite !mul_0_l. change (0 ⊕ 0) with 0.
  apply add_0_l, binary64_mul.
Qed.

(** X6.  With an empty subtitle list the score is the duration
    component alone, [round(duration_score * 0.3, 2)] (the dialogue is
    empty and no subtitle is counted); scenes of 5 to 15 seconds then
    all score 30, and are scanned in the order of the input. *)
Theorem selection_without_subtitles scenes :
  (forall scene s',
      scene ∈ scenes -> enrich [] scene = Ok s' ->
      dialogue s' = Some ""%string /\ subtitle_count s' = Some 0%nat
      /\ exists d, duration scene = Some d
                   /\ highlight_score s'
                      = Some (round64 (HighlightSelector64.duration_score d
                                       ⊗ b64 0.3) 2))
  /\ (Forall (fun s => exists d, duration s = Some d /\ 5 <= d /\ d <= 15)
             scenes ->
      scan_order scenes [] = enrich_all [] scenes
      /\ Forall (fun s => score_of s == 30) (enrich_all [] scenes)).
Proof.
  split; [intros scene s' _; apply enrich_without_subtitles|].
  intros Hdur.
  assert (Hscore : Forall (fun s => score_of s = round64 (100 ⊗ b64 0.3) 2)
                          (enrich_all [] scenes)).
  { pose proof (enrich_all_from64 [] scenes) as Hfrom.
    eapply Forall_impl; [exact Hfrom|].
    intros s (s0 & Hin & He). simpl.
    rewrite Forall_forall in Hdur. destruct (Hdur _ Hin) as (d & Hd & H5 & H15).
    apply enrich_without_subtitles in He as (_ & _ & d' & Hd' & Hs).
    unfold score_of. rewrite Hs. simpl.
    assert (d' = d) by congruence. subst d'.
    unfold HighlightSelector64.duration_score.
    apply Qle_bool_iff in H5, H15. rewrite H5, H15. reflexivity. }
  split.
  - unfold scan_order. apply SelectorFacts.sorted_by_equal_keys.
    intros x y Hx Hy. rewrite Forall_forall in Hscore.
    now rewrite (Hscore x Hx), (Hscore y Hy).
  - eapply Forall_impl; [exact Hscore|].
    intros s ->. reflexivity.
Qed.

Lemma selection_without_subtitles_witness :
  scan_order [scenario_scene1; scenario_scene2] []
  = enrich_all [] [scenario_scene1; scenario_scene2].
Proof.
  apply (proj2 (selection_without_subtitles [scenario_scene1; scenario_scene2])).
  repeat constructor.
  - exists 8. repeat split; discriminate.
  - exists 12. repeat split; discriminate.
Defined.
End Selector64Proofs.

(** ** core/keyframe_extractor.py on floats *)

Module Keyframe64Proofs.
Import Binary64.
Import KeyframeExtractor KeyframeExtractor64 SpecKeyframes Samples Samples64 Spec.
Import Binary64Facts Selector64Proofs KeyframeProofs.

Lemma interval_of_Z self :
  exists z, (1 <= z <= 3)%Z /\ interval_of self == inject_Z z.
Proof.
  destruct (interval_of_mode self) as (Hl & Hm & Hh & Ho).
  destruct (decide (mode self = "low"%string)) as [E|E1];
    [exists 3%Z; split; [lia | exact (Hl E)]|].
  destruct (decide (mode self = "medium"%string)) as [E|E2];
    [exists 2%Z; split; [lia | exact (Hm E)]|].
  destruct (decide (mode self = "high"%string)) as [E|E3];
    [exists 1%Z; split; [lia | exact (Hh E)]|].
  exists 2%Z. split; [lia|]. apply Ho. set_solver.
Qed.

Lemma step_offset_proper i i' k : i == i' -> step_offset i k = step_offset i' k.
Proof.
  intros Hi. induction k as [|k IH]; simpl; [reflexivity|].
  rewrite IH. unfold add. apply b64_proper. now rewrite Hi.
Qed.

(** As long as the offsets stay below [2^53] the additions are exact. *)
Lemma step_offset_exact self k :
  (Z.of_nat k * 3 <= 2 ^ 53)%Z ->
  step_offset (interval_of self) k == Qnat k * interval_of self.
Proof.
  destruct (interval_of_Z self) as (z & Hz & Ez).
  rewrite (step_offset_proper _ _ k Ez), Ez. clear Ez.
  induction k as [|k IH]; intros Hk.
  - simpl. change (Qnat 0) with 0. ring.
  - simpl. unfold add. rewrite IH by lia.
    assert (E : Qnat k * inject_Z z + inject_Z z
                == inject_Z (Z.of_nat (S k) * z)).
    { rewrite inject_Z_mult, Nat2Z.inj_succ. unfold Z.succ.
      rewrite inject_Z_plus. unfold Qnat. ring. }
    rewrite E.
    assert (Hb : binary64 (inject_Z (Z.of_nat (S k) * z)))
      by (apply binary64_Z; nia).
    unfold binary64 in Hb. rewrite Hb, inject_Z_mult. reflexivity.
Qed.

Lemma step_offset_nonneg i k : 0 <= i -> 0 <= step_offset i k.
Proof.
  intros Hi. induction k as [|k IH]; simpl; [apply Qle_refl|].
  apply b64_nonneg. lra.
Qed.

Lemma binary64_step_offset i k : binary64 (step_offset i k).
Proof.
  destruct k; simpl; [|apply binary64_b64]. unfold binary64. reflexivity.
Qed.

Lemma sample_loop_spec64 scene st d i :
  start_time scene = Some st ->
  forall room k0,
  exists l,
    sample_loop room scene d i (step_offset i k0) = Ok l
    /\ (length l <= room)%nat
    /\ (forall k t, l !! k = Some t ->
                    t = st ⊕ step_offset i (k0 + k)
                    /\ step_offset i (k0 + k) < d)
    /\ (length l = room \/ d <= step_offset i (k0 + length l)).
Proof.
  intros Hst. induction room as [|room IH]; intros k0; simpl.
  - exists []. split; [reflexivity|]. split; [reflexivity|].
    split; [intros k t Hk; discriminate Hk | now left].
  - destruct (Qlt_bool (step_offset i k0) d) eqn:E.
    + apply Qlt_bool_iff in E. rewrite Hst. simpl.
      destruct (IH (S k0)) as (l & Hl & Hlen & Hk & Hend).
      simpl in Hl. rewrite Hl. simpl.
      eexists. split; [reflexivity|]. simpl.
      split; [lia|]. split.
      * intros [|k] t Hkt; simpl in Hkt.
        -- injection Hkt as <-. rewrite Nat.add_0_r. split; [reflexivity | exact E].
        -- replace (k0 + S k)%nat with (S k0 + k)%nat by lia. now apply Hk.
      * destruct Hend as [->|Hend]; [now left | right].
        now replace (k0 + S (length l))%nat with (S k0 + length l)%nat by lia.
    + apply Qlt_bool_false in E.
      exists []. split; [reflexivity|]. split; [simpl; lia|].
      split; [intros k t Hk; discriminate Hk|].
      right. simpl. now rewrite Nat.add_0_r.
Qed.

Lemma sample_times_spec64 self scene st en d :
  start_time scene = Some st -> end_time scene = Some en ->
  exists stepped,
    (length stepped <= max_frames_per_scene self)%nat
    /\ (forall k t, stepped !! k = Some t ->
          t = st ⊕ step_offset (interval_of self) k
          /\ step_offset (interval_of self) k < d)
    /\ (length stepped = max_frames_per_scene self
        \/ d <= step_offset (interval_of self) (length stepped))
    /\ sample_times self scene d
       = Ok (if (length stepped <? max_frames_per_scene self)%nat
             then take (max_frames_per_scene self)
                       [st; st ⊕ d ⊘ 2; en ⊖ b64 0.1]
             else stepped).
Proof.
  intros Hst Hen.
  destruct (sample_loop_spec64 scene st d (interval_of self) Hst
              (max_frames_per_scene self) 0) as (l & Hl & Hlen & Hk & Hend).
  exists l. split; [exact Hlen|]. split; [exact Hk|]. split; [exact Hend|].
  unfold sample_times. simpl in Hl. rewrite Hl. simpl.
  destruct (length l <? max_frames_per_scene self)%nat; [|reflexivity].
  rewrite Hst, Hen. reflexivity.
Qed.

Section Reading.
Context {Frame : Type}.
Variable cap : Z -> option Frame.
Variable quality : Frame -> Q.
Variable hash : Frame -> string.
Variable fps : Q.

(** The candidates are the frames read at the sample times, one for
    each time whose frame can be read, in the order of the times. *)
Lemma read_candidates_spec64 times :
  map cand_time (read_candidates cap quality fps times)
  = filter (readable cap fps) times
  /\ Forall (read_at cap quality fps) (read_candidates cap quality fps times).
Proof.
  induction times as [|t rest [IH1 IH2]]; simpl; [split; [reflexivity | constructor]|].
  rewrite filter_cons.
  destruct (decide (readable cap fps t)) as [Hr|Hr]; unfold readable in Hr;
    destruct (cap (py_int (t ⊗ fps))) as [frame|] eqn:E.
  - simpl. rewrite IH1.
    split; [reflexivity|]. constructor; [|exact IH2].
    unfold read_at. simpl. auto.
  - now destruct Hr.
  - destruct Hr. eauto.
  - auto.
Qed.

Lemma extract_from_scene_inv64 self scene keyframes :
  _extract_from_scene cap quality hash fps self scene = Ok keyframes ->
  exists d times,
    duration scene = Some d
    /\ sample_times self scene d = Ok times
    /\ keyframes
       = imap (fun idx c =>
                 mkKeyframe (Vocabulary.scene_id_of scene)
                            (match index scene with
                             | Some i => Some i
                             | None => Vocabulary.scene_id_of scene
                             end)
                            idx (cand_time c) (cand_frame_number c)
                            (cand_quality_score c)
                            (Some (hash (cand_frame c))))
              (sorted_by cand_time false
                 (take (max_frames_per_scene self)
                       (sorted_by cand_quality_score true
                                  (read_candidates cap quality fps times)))).
Proof.
  unfold _extract_from_scene, Vocabulary.scene_id_of.
  destruct (start_frame scene); simpl; [|discriminate].
  destruct (end_frame scene); simpl; [|discriminate].
  destruct (duration scene) as [d|]; simpl; [|discriminate].
  destruct (sample_times self scene d) as [times|] eqn:Et; simpl; [|discriminate].
  rewrite (list_sort_sorted_by cand_quality_score)
    by (apply Forall_forall; reflexivity).
  simpl.
  rewrite (list_sort_sorted_by cand_time)
    by (apply Forall_forall; reflexivity).
  simpl. intros [= <-]. eauto.
Qed.

Lemma extract_from_scene_eq64 self scene d sf ef times :
  duration scene = Some d ->
  start_frame scene = Some sf -> end_frame scene = Some ef ->
  sample_times self scene d = Ok times ->
  exists keyframes,
    _extract_from_scene cap quality hash fps self scene = Ok keyframes
    /\ Forall2 (built_from hash) keyframes
         (sorted_by cand_time false
            (take (max_frames_per_scene self)
                  (sorted_by cand_quality_score true
                             (read_candidates cap quality fps times))))
    /\ (forall k kf, keyframes !! k = Some kf -> keyframe_index kf = k).
Proof.
  intros Hd Hsf Hef Htimes. unfold _extract_from_scene.
  rewrite Hsf, Hef, Hd. simpl. rewrite Htimes. simpl.
  rewrite (list_sort_sorted_by cand_quality_score)
    by (apply Forall_forall; reflexivity).
  simpl.
  rewrite (list_sort_sorted_by cand_time)
    by (apply Forall_forall; reflexivity).
  simpl. eexists. split; [reflexivity|]. split.
  - apply imap_Forall2. intros i c. repeat split.
  - intros k kf Hk. rewrite list_lookup_imap in Hk.
    destruct (_ !! k); simpl in Hk; [|discriminate].
    now injection Hk as <-.
Qed.

(** C7 (keyframe sampling of one scene), as the code does it.  For a
    scene with its keys:
    - the interval is 3, 2 and 1 seconds for the modes low, medium and
      high, and 2 seconds for any other mode;
    - the stepped candidates are [start_time + step] for the steps
      [0, interval, 2 * interval, ...] (exactly so up to [2^53]), as long
      as the step is below the scene's duration and fewer than
      [max_frames_per_scene] were produced: the stepping stops at the
      first step that reaches the duration, not at the first that
      exceeds it;
    - if fewer than [max_frames_per_scene] were produced, the candidate
      times are instead the start, the middle and the end minus 0.1,
      cut to [max_frames_per_scene];
    - the candidates are the frames that could be read at these times,
      at frame [int(time * fps)], in the order of the times, each with
      its quality score;
    - they are sorted by descending quality, the first
      [max_frames_per_scene] are kept and sorted by ascending time, and
      one keyframe is built from each, numbered in that order;
    - so the result has at most [max_frames_per_scene] keyframes, in
      chronological order. *)
Theorem scene_sampling self scene st en d sf ef :
  start_time scene = Some st -> end_time scene = Some en ->
  duration scene = Some d ->
  start_frame scene = Some sf -> end_frame scene = Some ef ->
  ((mode self = "low"%string -> interval_of self == 3)
   /\ (mode self = "medium"%string -> interval_of self == 2)
   /\ (mode self = "high"%string -> interval_of self == 1)
   /\ (mode self ∉ ["low"; "medium"; "high"]%string -> interval_of self == 2))
  /\ (forall k, (Z.of_nat k * 3 <= 2 ^ 53)%Z ->
                step_offset (interval_of self) k == Qnat k * interval_of self)
  /\ exists stepped times candidates kept keyframes,
      (length stepped <= max_frames_per_scene self)%nat
      /\ (forall k t, stepped !! k = Some t ->
            t = st ⊕ step_offset (interval_of self) k
            /\ step_offset (interval_of self) k < d)
      /\ (length stepped = max_frames_per_scene self
          \/ d <= step_offset (interval_of self) (length stepped))
      /\ times = (if (length stepped <? max_frames_per_scene self)%nat
                  then take (max_frames_per_scene self)
                            [st; st ⊕ d ⊘ 2; en ⊖ b64 0.1]
                  else stepped)
      /\ sample_times self scene d = Ok times
      /\ candidates = read_candidates cap quality fps times
      /\ map cand_time candidates = filter (readable cap fps) times
      /\ Forall (read_at cap quality fps) candidates
      /\ sorted_by cand_quality_score true candidates ≡ₚ candidates
      /\ StronglySorted
           (fun a b => cand_quality_score b <= cand_quality_score a)
           (sorted_by cand_quality_score true candidates)
      /\ kept = take (max_frames_per_scene self)
                     (sorted_by cand_quality_score true candidates)
      /\ _extract_from_scene cap quality hash fps self scene = Ok keyframes
      /\ Forall2 (built_from hash) keyframes (sorted_by cand_time false kept)
      /\ sorted_by cand_time false kept ≡ₚ kept
      /\ (forall k kf, keyframes !! k = Some kf -> keyframe_index kf = k)
      /\ (length keyframes <= max_frames_per_scene self)%nat
      /\ StronglySorted (fun a b => time a <= time b) keyframes.
Proof.
  intros Hst Hen Hd Hsf Hef. split; [apply interval_of_mode|].
  split; [apply step_offset_exact|].
  destruct (sample_times_spec64 self scene st en d Hst Hen)
    as (stepped & Hlen & Hk & Hend & Htimes).
  destruct (extract_from_scene_eq64 self scene d sf ef _ Hd Hsf Hef Htimes)
    as (keyframes & Hex & Hbuilt & Hidx).
  destruct (read_candidates_spec64
              (if (length stepped <? max_frames_per_scene self)%nat
               then take (max_frames_per_scene self)
                         [st; st ⊕ d ⊘ 2; en ⊖ b64 0.1]
               else stepped)) as [Hread1 Hread2].
  eexists stepped, _, _, _, keyframes.
  do 3 (split; [eassumption|]).
  split; [reflexivity|]. split; [exact Htimes|]. split; [reflexivity|].
  split; [exact Hread1|]. split; [exact Hread2|].
  split; [apply sorted_by_perm|].
  split; [apply (sorted_by_sorted cand_quality_score true)|].
  split; [reflexivity|].
  split; [exact Hex|]. split; [exact Hbuilt|].
  split; [apply sorted_by_perm|]. split; [exact Hidx|].
  split.
  - rewrite (Forall2_length _ _ _ Hbuilt), sorted_by_length.
    apply firstn_le_length.
  - apply (StronglySorted_map time Qle).
    rewrite (Forall2_map_eq time cand_time _ _
               (Forall2_impl _ _ _ _ Hbuilt (fun kf c H => proj1 H))).
    apply (StronglySorted_map cand_time Qle).
    apply (sorted_by_sorted cand_time false).
Qed.

End Reading.

(** Against C7 as worded.  A scene from 10 to 14 seconds lasts 4
    seconds; with the interval of 2 seconds and room for 3 frames the
    steps are 0, 2 and 4.  The step 4 does not exceed the duration, so
    that stepping until the step exceeds the duration samples 10, 12
    and 14; the code stops at the step 4, finds two samples only and
    falls back to 10, 12 and 13.9. *)
Lemma scene_sampling_counterexample :
  sample_times sample_extractor sample_scene1 4 = Ok [10; 12; 14 ⊖ b64 0.1]
  /\ sample_times_as_worded 3 10 14 4 2 = [10; 12; 14]
  /\ sample_times sample_extractor sample_scene1 4
     <> Ok (sample_times_as_worded 3 10 14 4 2).
Proof.
  split; [vm_compute; reflexivity|].
  split; [vm_compute; reflexivity | vm_compute; discriminate].
Qed.

Lemma scene_sampling_witness :
  exists keyframes,
    _extract_from_scene sample_cap sample_quality (fun _ => "h"%string) 25
                        sample_extractor sample_scene1
    = Ok keyframes
    /\ (length keyframes <= 3)%nat
    /\ StronglySorted (fun a b => time a <= time b) keyframes.
Proof.
  destruct (scene_sampling sample_cap sample_quality (fun _ => "h"%string) 25
              sample_extractor sample_scene1 10 14 4 250%Z 350%Z
              eq_refl eq_refl eq_refl eq_refl eq_refl)
    as (_ & _ & stepped & times & cands & kept & keyframes & H).
  exists keyframes.
  destruct H as (_ & _ & _ & _ & _ & _ & _ & _ & _ & _ & _ & Hex & _ & _ & _
                 & Hlen & Hsorted).
  split; [exact Hex|]. split; [exact Hlen | exact Hsorted].
Defined.

(** ** [extract] and [extract_custom] with their effects *)

Section Running.
Context {Frame : Type}.
Variable cap : Z -> option Frame.
Variable quality : Frame -> Q.
Variable hash : Frame -> string.
Variable fps : Q.

(** The loop leaves the capture as it found it, and its outcome is that
    of processing the scenes one after the other. *)
Lemma extract_loop_run self cb total scenes : forall i acc w,
  released (extract_loop cap quality hash fps self cb total i scenes acc w).1
  = released w
  /\ (extract_loop cap quality hash fps self cb total i scenes acc w).2
     = match traverse (_extract_from_scene cap quality hash fps self) scenes with
       | Ok per_scene => Returned (acc ++ concat per_scene)
       | Raise e => Raised (Builtin e)
       end.
Proof.
  induction scenes as [|scene rest IH]; intros i acc w; simpl.
  - rewrite app_nil_r. auto.
  - unfold bind, call.
    destruct (_extract_from_scene cap quality hash fps self scene)
      as [kfs|e]; simpl; [|auto].
    destruct cb; simpl.
    + destruct (IH (S i) (acc ++ kfs)
                   (mkWorld (released w)
                            (reported w ++ [Qnat (i + 1) ⊘ Qnat total ⊗ 100])))
        as [H1 H2].
      rewrite H1, H2. simpl. split; [reflexivity|].
      destruct (traverse _ rest); simpl; [|reflexivity].
      now rewrite app_assoc.
    + destruct (IH (S i) (acc ++ kfs) w) as [H1 H2].
      rewrite H1, H2. split; [reflexivity|].
      destruct (traverse _ rest); simpl; [|reflexivity].
      now rewrite app_assoc.
Qed.

(** What a run of [extract] amounts to. *)
Lemma extract_run opened self scenes cb w :
  let run := extract cap quality hash opened fps self scenes cb w in
  if opened then
    match traverse (_extract_from_scene cap quality hash fps self) scenes with
    | Ok per_scene =>
        released run.1 = true /\ run.2 = Returned (concat per_scene)
    | Raise e =>
        released run.1 = released w
        /\ run.2 = Raised (KeyframeExtractionError (Some (Builtin e)))
    end
  else
    released run.1 = released w
    /\ run.2 = Raised (KeyframeExtractionError
                         (Some (KeyframeExtractionError None))).
Proof.
  unfold extract, try_except, bind. destruct opened; simpl; [|auto].
  destruct (extract_loop_run self cb (length scenes) scenes 0 [] w) as [H1 H2].
  destruct (extract_loop cap quality hash fps self cb (length scenes) 0 scenes
                         [] w) as [w' r].
  simpl in H1, H2. subst r.
  destruct (traverse _ scenes); simpl; auto.
Qed.

(** X16.  A call of [extract] has executed [cap.release()] exactly when
    it returns keyframes: a call that raises leaves the capture
    unreleased, whether the video did not open or a scene failed, the
    handler re-raising without releasing.  [extract_custom], whose loop
    is inside [try ... finally], always releases it. *)
Theorem capture_released_only_on_success opened self scenes progress_callback
        time_points w :
  let run :=
    extract cap quality hash opened fps self scenes progress_callback initial in
  (released run.1 = true <-> exists keyframes, run.2 = Returned keyframes)
  /\ released (extract_custom cap quality hash fps time_points w).1 = true.
Proof.
  split.
  - pose proof (extract_run opened self scenes progress_callback initial) as H.
    simpl in H. destruct opened.
    + destruct (traverse _ scenes).
      * destruct H as [H1 H2]. split; eauto.
      * destruct H as [H1 H2]. rewrite H1, H2. simpl.
        split; [discriminate | intros [? [=]]].
    + destruct H as [H1 H2]. rewrite H1, H2. simpl.
      split; [discriminate | intros [? [=]]].
  - unfold extract_custom, try_finally.
    destruct (custom_loop _ _ _ _ _ _ _ _) as [w' r]. reflexivity.
Qed.

(** What [_extract_from_scene] guarantees of each keyframe of a scene. *)
Lemma extract_from_scene_each64 self scene keyframes :
  _extract_from_scene cap quality hash fps self scene = Ok keyframes ->
  (length keyframes <= max_frames_per_scene self)%nat
  /\ exists d times,
       duration scene = Some d /\ sample_times self scene d = Ok times
       /\ Forall (fun kf =>
                    scene_id kf = Vocabulary.scene_id_of scene
                    /\ (keyframe_index kf < max_frames_per_scene self)%nat
                    /\ time kf ∈ times
                    /\ frame_number kf = py_int (time kf ⊗ fps)
                    /\ exists frame,
                         cap (frame_number kf) = Some frame
                         /\ quality_score kf = quality frame
                         /\ image_hash kf = Some (hash frame))
                  keyframes.
Proof.
  intros H. apply extract_from_scene_inv64 in H as (d & times & Hd & Ht & ->).
  set (kept := sorted_by cand_time false _).
  assert (Hlen : (length kept <= max_frames_per_scene self)%nat).
  { subst kept. rewrite sorted_by_length. apply firstn_le_length. }
  split; [now rewrite length_imap|].
  exists d, times. split; [exact Hd|]. split; [exact Ht|].
  apply Forall_forall. intros kf Hkf.
  apply list_elem_of_lookup in Hkf as [k Hk].
  rewrite list_lookup_imap in Hk.
  destruct (kept !! k) as [c|] eqn:Ec; simpl in Hk; [|discriminate].
  injection Hk as <-. simpl.
  assert (Hc : c ∈ read_candidates cap quality fps times).
  { assert (Hin : c ∈ kept) by (apply list_elem_of_lookup; eauto).
    subst kept. rewrite sorted_by_perm in Hin.
    apply elem_of_take in Hin as (j & Hj & _).
    assert (Hin : c ∈ sorted_by cand_quality_score true
                           (read_candidates cap quality fps times))
      by (apply list_elem_of_lookup; eauto).
    now rewrite sorted_by_perm in Hin. }
  destruct (read_candidates_spec64 cap quality fps times) as [Htimes Hspec].
  rewrite Forall_forall in Hspec.
  destruct (Hspec c Hc) as (H2 & H3 & H4).
  split; [reflexivity|]. split.
  { apply lookup_lt_Some in Ec. lia. }
  split.
  { assert (Hin : cand_time c ∈ map cand_time (read_candidates cap quality fps times))
      by (apply list_elem_of_fmap; eauto).
    rewrite Htimes in Hin. now apply list_elem_of_filter in Hin as [_ Hin]. }
  split; [exact H2|].
  exists (cand_frame c). auto.
Qed.

(** X18.  The keyframes that [extract] returns are those of the scenes,
    one group per scene, in the order of the scenes.  A group has at
    most [max_frames_per_scene] keyframes; each of them carries the
    scene's number ([selected_id], or [id] when that is absent or 0), an
    index below [max_frames_per_scene], the frame number
    [int(time * fps)] of its time, and the quality and the hash of the
    frame read at that frame number. *)
Theorem extracted_keyframes_integrity opened self scenes progress_callback
        keyframes :
  (extract cap quality hash opened fps self scenes progress_callback initial).2
  = Returned keyframes ->
  exists per_scene,
    keyframes = concat per_scene
    /\ Forall2 (fun scene group =>
         (length group <= max_frames_per_scene self)%nat
         /\ Forall (fun kf =>
              scene_id kf = Vocabulary.scene_id_of scene
              /\ (keyframe_index kf < max_frames_per_scene self)%nat
              /\ frame_number kf = py_int (time kf ⊗ fps)
              /\ exists frame,
                   cap (frame_number kf) = Some frame
                   /\ quality_score kf = quality frame
                   /\ image_hash kf = Some (hash frame)) group)
         scenes per_scene.
Proof.
  pose proof (extract_run opened self scenes progress_callback initial) as H.
  simpl in H. intros Hrun. destruct opened.
  - destruct (traverse _ scenes) as [per_scene|e] eqn:Et.
    + destruct H as [_ H]. rewrite H in Hrun. injection Hrun as <-.
      exists per_scene. split; [reflexivity|].
      apply traverse_Ok_inv in Et.
      eapply Forall2_impl; [exact Et|].
      intros scene group Hs. simpl in Hs.
      destruct (extract_from_scene_each64 _ _ _ Hs)
        as (Hlen & d & times & _ & _ & Hall).
      split; [exact Hlen|].
      eapply Forall_impl; [exact Hall|].
      intros kf (H1 & H2 & _ & H3 & H4). auto.
    + destruct H as [_ H]. rewrite H in Hrun. discriminate.
  - destruct H as [_ H]. rewrite H in Hrun. discriminate.
Qed.

Lemma custom_loop_run time_points : forall idx acc w,
  exists l,
    custom_loop cap quality hash fps idx time_points acc w
    = (w, Returned (acc ++ l))
    /\ map time l = filter (readable cap fps) time_points
    /\ StronglySorted (fun a b => (keyframe_index a < keyframe_index b)%nat) l
    /\ Forall (fun kf =>
                 (exists j, keyframe_index kf = (idx + j)%nat
                            /\ time_points !! j = Some (time kf))
                 /\ scene_id kf = None
                 /\ frame_number kf = py_int (time kf ⊗ fps)
                 /\ exists frame,
                      cap (frame_number kf) = Some frame
                      /\ quality_score kf = quality frame
                      /\ image_hash kf = Some (hash frame)) l.
Proof.
  induction time_points as [|t rest IH]; intros idx acc w; simpl.
  - exists []. rewrite app_nil_r. repeat split; constructor.
  - rewrite filter_cons.
    destruct (decide (readable cap fps t)) as [Hr|Hr]; unfold readable in Hr;
      destruct (cap (py_int (t ⊗ fps))) as [frame|] eqn:E;
      try (now destruct Hr); try (destruct Hr; now eauto).
    + destruct (IH (S idx)
                   (acc ++ [mkKeyframe None None idx t (py_int (t ⊗ fps))
                                       (quality frame) (Some (hash frame))]) w)
        as (l & Hl & Htimes & Hsorted & Hall).
      eexists (_ :: l). rewrite Hl, <- app_assoc. split; [reflexivity|].
      split; [simpl; now rewrite Htimes|].
      split.
      * constructor; [exact Hsorted|].
        eapply Forall_impl; [exact Hall|].
        intros kf ((j & Hj & _) & _). simpl. lia.
      * constructor.
        -- simpl. split; [exists 0%nat; split; [lia | reflexivity]|].
           repeat split. eauto.
        -- eapply Forall_impl; [exact Hall|].
           intros kf ((j & Hj & Hlk) & H). split; [|exact H].
           exists (S j). split; [lia | exact Hlk].
    + destruct (IH (S idx) acc w) as (l & Hl & Htimes & Hsorted & Hall).
      exists l. split; [exact Hl|]. split; [exact Htimes|].
      split; [exact Hsorted|].
      eapply Forall_impl; [exact Hall|].
      intros kf ((j & Hj & Hlk) & H). split; [|exact H].
      exists (S j). split; [lia | exact Hlk].
Qed.

(** X19.  [extract_custom] returns, having released the capture and
    reported no progress: one keyframe for every time point whose frame
    can be read, in the order of the time points.  A keyframe's index is
    the position of its time in [time_points], not its position in the
    result, so that an unreadable time point leaves a gap in the
    numbering; it has no scene number, and its frame number, quality
    and hash are those of the frame at [int(time * fps)]. *)
Theorem extract_custom_keeps_positions time_points w :
  exists keyframes,
    extract_custom cap quality hash fps time_points w
    = (mkWorld true (reported w), Returned keyframes)
    /\ map time keyframes = filter (readable cap fps) time_points
    /\ StronglySorted (fun a b => (keyframe_index a < keyframe_index b)%nat)
                      keyframes
    /\ Forall (fun kf =>
                 time_points !! keyframe_index kf = Some (time kf)
                 /\ scene_id kf = None
                 /\ frame_number kf = py_int (time kf ⊗ fps)
                 /\ exists frame,
                      cap (frame_number kf) = Some frame
                      /\ quality_score kf = quality frame
                      /\ image_hash kf = Some (hash frame))
              keyframes.
Proof.
  destruct (custom_loop_run time_points 0 [] w)
    as (l & Hl & Htimes & Hsorted & Hall).
  exists l. unfold extract_custom, try_finally. rewrite Hl. simpl.
  split; [reflexivity|]. split; [exact Htimes|]. split; [exact Hsorted|].
  eapply Forall_impl; [exact Hall|].
  intros kf ((j & Hj & Hlk) & H). split; [|exact H].
  simpl in Hj. now rewrite Hj.
Qed.

(** X21.  For a scene whose times are floats, whose ['duration'] is
    non-negative and at most the span from ['start_time'] to
    ['end_time'], and whose span is at least the float 0.1, every
    keyframe lies in the scene, ends included: its time is at or after
    ['start_time'] and at or before ['end_time']. *)
Theorem keyframe_times_inside_scene self scene keyframes st en d :
  start_time scene = Some st -> end_time scene = Some en ->
  duration scene = Some d ->
  binary64 st -> binary64 en -> binary64 d ->
  0 <= d -> st + d <= en -> st + b64 0.1 <= en ->
  _extract_from_scene cap quality hash fps self scene = Ok keyframes ->
  Forall (fun kf => st <= time kf /\ time kf <= en) keyframes.
Proof.
  intros Hst Hen Hd Bst Ben Bd Hd0 Hspan Hlong Hex.
  destruct (extract_from_scene_each64 _ _ _ Hex)
    as (_ & d' & times & Hd' & Htimes & Hall).
  rewrite Hd in Hd'. injection Hd' as <-.
  destruct (sample_times_spec64 self scene st en d Hst Hen)
    as (stepped & Hlen & Hk & Hend & Heq).
  rewrite Htimes in Heq. injection Heq as ->.
  destruct (KeyframeFacts.interval_of_range self) as [Hi _].
  eapply Forall_impl; [exact Hall|].
  intros kf (_ & _ & Hin & _).
  destruct (length stepped <? max_frames_per_scene self)%nat.
  - apply elem_of_take in Hin as (j & Hj & _).
    assert (Hhalf : 0 <= d ⊘ 2 /\ d ⊘ 2 <= d).
    { assert (E : d / 2 == d * (1 # 2)) by field.
      split; [apply b64_nonneg | apply b64_le_binary64; [exact Bd|]];
        rewrite E; lra. }
    destruct j as [|[|[|j]]]; simpl in Hj; try discriminate;
      injection Hj as <-.
    + split; [apply Qle_refl | lra].
    + split; [apply b64_ge_binary64 | apply b64_le_binary64];
        try assumption; lra.
    + split; [apply b64_ge_binary64 | apply b64_le_binary64];
        try assumption; [lra|].
      assert (H01 : 0 <= b64 0.1) by (apply b64_nonneg; discriminate). lra.
  - apply list_elem_of_lookup in Hin as [k Hkt].
    destruct (Hk _ _ Hkt) as [-> Hlt].
    assert (H0 : 0 <= step_offset (interval_of self) k)
      by (apply step_offset_nonneg; lra).
    split; [apply b64_ge_binary64 | apply b64_le_binary64];
      try assumption; lra.
Qed.

End Running.

(** X22.  A scene shorter than a tenth of a second (the float 0.1),
    with a duration of at most a second and room for three frames, is
    sampled at its start, at its middle and at ['end_time'] minus 0.1;
    this third sample is not inside the scene: it lies at or before the
    scene's start. *)
Theorem short_scene_sampled_before_its_start self scene st en d :
  start_time scene = Some st -> end_time scene = Some en ->
  binary64 st -> en - st < b64 0.1 -> d <= 1 ->
  (3 <= max_frames_per_scene self)%nat ->
  sample_times self scene d = Ok [st; st ⊕ d ⊘ 2; en ⊖ b64 0.1]
  /\ en ⊖ b64 0.1 <= st.
Proof.
  intros Hst Hen Bst Hshort Hd Hm.
  destruct (sample_times_spec64 self scene st en d Hst Hen)
    as (stepped & Hlen & Hk & Hend & ->).
  destruct (interval_of_Z self) as (z & Hz & Ez).
  assert (Hone : (length stepped <= 1)%nat).
  { destruct (decide (length stepped <= 1)%nat) as [E|E]; [exact E|].
    destruct (lookup_lt_is_Some_2 stepped 1) as [t Ht]; [lia|].
    destruct (Hk _ _ Ht) as [_ Hlt].
    rewrite (step_offset_exact self 1) in Hlt by lia.
    change (Qnat 1) with 1 in Hlt. rewrite Ez in Hlt.
    assert (1 <= inject_Z z) by (change 1 with (inject_Z 1); rewrite <- Zle_Qle; lia).
    lra. }
  assert (Hlt : (length stepped <? max_frames_per_scene self)%nat = true)
    by (apply Nat.ltb_lt; lia).
  rewrite Hlt. split.
  - destruct (max_frames_per_scene self) as [|[|[|m]]]; try lia.
    now destruct m.
  - apply b64_le_binary64; [exact Bst | lra].
Qed.

Lemma extracted_keyframes_integrity_witness :
  exists keyframes per_scene,
    (extract sample_cap sample_quality
             (fun frame => FrameMeasures.image_hash_of_gray (sample_gray frame))
             true 25 sample_extractor [sample_scene1; sample_scene2] false
             initial).2
    = Returned keyframes
    /\ keyframes = concat per_scene
    /\ length per_scene = 2%nat.
Proof.
  assert (H : exists keyframes,
             (extract sample_cap sample_quality
                (fun frame =>
                   FrameMeasures.image_hash_of_gray (sample_gray frame))
                true 25 sample_extractor [sample_scene1; sample_scene2] false
                initial).2
             = Returned keyframes).
  { vm_compute. eexists. reflexivity. }
  destruct H as [keyframes H]. exists keyframes.
  destruct (extracted_keyframes_integrity
              sample_cap sample_quality
              (fun frame => FrameMeasures.image_hash_of_gray (sample_gray frame))
              25 true sample_extractor [sample_scene1; sample_scene2] false
              keyframes H) as (per_scene & Hcat & Hall).
  exists per_scene. split; [exact H|]. split; [exact Hcat|].
  symmetry. exact (Forall2_length _ _ _ Hall).
Defined.

Lemma keyframe_times_inside_scene_witness :
  exists keyframes,
    _extract_from_scene sample_cap sample_quality (fun _ => "h"%string) 25
                        sample_extractor sample_scene1
    = Ok keyframes
    /\ Forall (fun kf => 10 <= time kf /\ time kf <= 14) keyframes.
Proof.
  assert (H : exists keyframes,
             _extract_from_scene sample_cap sample_quality
               (fun _ => "h"%string) 25 sample_extractor sample_scene1
             = Ok keyframes).
  { vm_compute. eexists. reflexivity. }
  destruct H as [keyframes H]. exists keyframes. split; [exact H|].
  apply (keyframe_times_inside_scene
           sample_cap sample_quality (fun _ => "h"%string) 25
           sample_extractor sample_scene1 keyframes 10 14 4);
    try reflexivity; try exact H;
    try (vm_compute; reflexivity); vm_compute; discriminate.
Defined.

Lemma short_scene_sampled_before_its_start_witness :
  sample_times sample_extractor short_scene (b64 2140.1 ⊖ 2140)
  = Ok [2140; 2140 ⊕ (b64 2140.1 ⊖ 2140) ⊘ 2; b64 2140.1 ⊖ b64 0.1]
  /\ b64 2140.1 ⊖ b64 0.1 <= 2140.
Proof.
  apply (short_scene_sampled_before_its_start
           sample_extractor short_scene 2140 (b64 2140.1)
           (b64 2140.1 ⊖ 2140));
    [reflexivity | reflexivity | vm_compute; reflexivity
     | vm_compute; reflexivity | vm_compute; discriminate | simpl; lia].
Defined.

(** The end of a scene can be reached: the duration of the scene from
    60.12 to 64.12 is a little more than 4 seconds, so that the step 4
    is taken, and 60.12 + 4 is 64.12. *)
Example third_sample_at_scene_end :
  sample_times sample_extractor late_scene (b64 64.12 ⊖ b64 60.12)
  = Ok [b64 60.12; b64 60.12 ⊕ 2; b64 64.12]
  /\ b64 60.12 + (b64 64.12 ⊖ b64 60.12) == b64 64.12.
Proof. vm_compute. repeat split. Qed.

(** The third sample of the short scene is its start, the frame 53500. *)
Example short_scene_third_sample :
  b64 2140.1 ⊖ b64 0.1 == 2140 /\ py_int (2140 ⊗ 25) = 53500%Z.
Proof. split; vm_compute; reflexivity. Qed.
End Keyframe64Proofs.
